(** * Tesserae baseline scorer and ranker (biblindex/annotations/baseline.py)

    A shallow embedding of [get_d_min_freq], [get_d_max_dist],
    [tesserae_score] and [tesserae_baseline], and the properties of the
    retrieval-and-scoring engine that follow from the code.

    Conventions of the embedding.
    - A token is a [string], a segment a [list string], a frequency map a
      [gmap string Q] (Python [dict]; subscripting a missing key raises
      [KeyError]).
    - Python exceptions are values of [exn]; a computation that may raise
      has type [result A].
    - Arithmetic is exact: the floats of the source are read as the
      rationals / reals they approximate.  A score is either the integer
      [0] of the early return or [math.log q] for a rational [q], kept
      symbolically as [Log q]; [score_R] gives its real value.  Rounding
      is not modelled: where the exact ratio is [1] or next to it, the
      float the source computes can fall on the other side of [1].  The
      properties below therefore fix no sign of a score from the inputs;
      they compare scores the code has computed.
    - The iteration order of a Python [set] is not fixed by the language:
      it is a parameter ([SetIter]).  So is the permutation returned by
      [np.argsort] on ties ([Argsort]). *)

From Stdlib Require Import QArith Qreals Reals Lra Lia.
From stdpp Require Import gmap strings list sorting.

Local Open Scope string_scope.
Local Open Scope Z_scope.

(** ** Exceptions and the error monad *)

Inductive exn : Type :=
| KeyError (w : string)
| ZeroDivisionError
| ValueError.

Inductive result (A : Type) : Type :=
| Ok (a : A)
| Raise (e : exn).
Arguments Ok {A} a.
Arguments Raise {A} e.

#[global] Instance result_ret : MRet result := fun A a => Ok a.

#[global] Instance result_bind : MBind result := fun A B k r =>
  match r with
  | Ok a => k a
  | Raise e => Raise e
  end.

Definition is_ok {A} (r : result A) : Prop :=
  match r with Ok _ => True | Raise _ => False end.

(** ** Python primitives used by the source *)

(** [freqs[w]] on a dict. *)
Definition dict_get (freqs : gmap string Q) (w : string) : result Q :=
  match freqs !! w with
  | Some q => Ok q
  | None => Raise (KeyError w)
  end.

(** [x / y] (true division), without rounding. *)
Definition py_div (x y : Q) : result Q :=
  if Qeq_bool y 0 then Raise ZeroDivisionError else Ok (x / y)%Q.

(** [sum(xs)]: a left fold starting from [0], without rounding. *)
Definition py_sum (xs : list Q) : Q := fold_left Qplus xs 0%Q.

(** [s.index(w)]: position of the first occurrence. *)
Fixpoint index (s : list string) (w : string) : result nat :=
  match s with
  | [] => Raise ValueError
  | x :: s' => if decide (x = w) then Ok 0%nat
               else i ← index s' w; Ok (S i)
  end.

(** [l[:n]] for a Python integer [n]: a negative bound counts from the end. *)
Definition py_slice_to {A} (n : Z) (l : list A) : list A :=
  if n <? 0 then take (Z.to_nat (Z.of_nat (length l) + n)) l
  else take (Z.to_nat n) l.

(** [w in matching]. *)
Definition member (w : string) (matching : list string) : bool :=
  bool_decide (w ∈ matching).

(** ** Sets in iteration order

    [set_iter s] lists [set(s)] in the order the interpreter iterates it,
    [inter_iter s1 s2] lists [set(s1).intersection(set(s2))]. *)

Class SetIter : Type := {
  set_iter : list string -> list string;
  inter_iter : list string -> list string -> list string;
  set_iter_NoDup : forall s, NoDup (set_iter s);
  set_iter_elem : forall s w, w ∈ set_iter s <-> w ∈ s;
  inter_iter_NoDup : forall s1 s2, NoDup (inter_iter s1 s2);
  inter_iter_elem : forall s1 s2 w, w ∈ inter_iter s1 s2 <-> w ∈ s1 /\ w ∈ s2
}.

(** ** Stable sorting by key: Python's [sorted(xs, key=...)] *)

Section KeySort.
Context {K V : Type} (leb : K -> K -> bool).

Fixpoint insert_by (x : K * V) (l : list (K * V)) : list (K * V) :=
  match l with
  | [] => [x]
  | y :: l' => if leb (fst x) (fst y) then x :: y :: l'
               else y :: insert_by x l'
  end.

Fixpoint sort_by (l : list (K * V)) : list (K * V) :=
  match l with
  | [] => []
  | x :: l' => insert_by x (sort_by l')
  end.

End KeySort.

(** ** Scores *)

(** The two values of the [method] argument the source dispatches on. *)
Inductive method : Type := min_freq | max_dist.

(** What [tesserae_score] returns: the integer [0], or [math.log(q)]. *)
Inductive score : Type :=
| Zero
| Log (q : Q).

(** [math.log(x)]: a domain error outside the positive reals. *)
Definition math_log (x : Q) : result score :=
  if Qle_bool x 0 then Raise ValueError else Ok (Log x).

(** The argument whose logarithm a score is ([0 = log 1]). *)
Definition score_arg (v : score) : Q :=
  match v with
  | Zero => 1
  | Log q => q
  end.

(** The real number a score stands for. *)
Definition score_R (v : score) : R :=
  match v with
  | Zero => 0%R
  | Log q => ln (Q2R q)
  end.

(** Only logarithms of positive numbers are ever produced. *)
Definition score_wf (v : score) : Prop := (0 < score_arg v)%Q.

(** [v > 0] and [v1 <= v2] on scores, decided on the arguments of [log]. *)
Definition score_pos (v : score) : bool := negb (Qle_bool (score_arg v) 1).
Definition score_leb (v1 v2 : score) : bool := Qle_bool (score_arg v1) (score_arg v2).

(** ** The two distance heuristics and the pairwise scorer *)

Section Scorer.
Context `{SI : SetIter}.

(** [a, b, *_ = sorted(set(s), key=lambda w: freqs[w])]
    [return abs(s.index(a) - s.index(b))] *)
Definition get_d_min_freq (s : list string) (freqs : gmap string Q) : result Z :=
  keyed ← mapM (fun w => f ← dict_get freqs w; Ok (f, w)) (set_iter s);
  match (sort_by Qle_bool keyed).*2 with
  | a :: b :: _ =>
      ia ← index s a;
      ib ← index s b;
      Ok (Z.abs (Z.of_nat ia - Z.of_nat ib))
  | _ => Raise ValueError
  end.

(** The body of the inner loop, for one pair [i < j]. *)
Definition max_dist_step (s matching : list string) (i : nat) (d : Z) (j : nat) : Z :=
  match s !! i, s !! j with
  | Some x, Some y =>
      if member x matching && member y matching
      then Z.max d (Z.abs (Z.of_nat i - Z.of_nat j))
      else d
  | _, _ => d
  end.

(** [for i in range(len(s)): for j in range(i+1, len(s)): ...] *)
Definition get_d_max_dist (s matching : list string) : Z :=
  fold_left
    (fun d i => fold_left (max_dist_step s matching i) (seq (S i) (length s - S i)) d)
    (seq 0 (length s)) 0.

(** [sum([1 / freqs[w] for w in matching])] *)
Definition inv_freq_sum (freqs : gmap string Q) (matching : list string) : result Q :=
  ws ← mapM (fun w => f ← dict_get freqs w; py_div 1 f) matching;
  Ok (py_sum ws).

(** The distance terms [d_t, d_s] of the selected method. *)
Definition distances (s1 s2 : list string) (freqs1 freqs2 : gmap string Q)
    (matching : list string) (m : method) : result (Z * Z) :=
  match m with
  | min_freq =>
      d_t ← get_d_min_freq s1 freqs1;
      d_s ← get_d_min_freq s2 freqs2;
      Ok (d_t, d_s)
  | max_dist =>
      Ok (get_d_max_dist s1 matching, get_d_max_dist s2 matching)
  end.

Definition tesserae_score (s1 s2 : list string) (freqs1 freqs2 : gmap string Q)
    (m : method) : result score :=
  let matching := inter_iter s1 s2 in
  if (length matching <? 2)%nat then Ok Zero
  else
    f_t ← inv_freq_sum freqs1 matching;
    f_s ← inv_freq_sum freqs2 matching;
    '(d_t, d_s) ← distances s1 s2 freqs1 freqs2 matching m;
    r ← py_div (f_t + f_s)%Q (inject_Z (d_t + d_s));
    math_log r.

End Scorer.

(** ** The candidate ranker and the evaluation loop *)

(** [tscores[i]] and [trg[i]] for an index produced by [np.argsort], which
    is always in range. *)
Definition score_at (tscores : list score) (i : nat) : score :=
  default Zero (tscores !! i).

Definition segment_at (trg : list (list string)) (i : nat) : list string :=
  default [] (trg !! i).

(** [np.argsort]: some permutation of the indices that puts the scores in
    ascending order.  Which one, when scores tie, depends on the sorting
    kernel numpy selects. *)
Class Argsort : Type := {
  argsort : list score -> list nat;
  argsort_perm : forall tscores, argsort tscores ≡ₚ seq 0 (length tscores);
  argsort_ascending : forall tscores,
    StronglySorted (fun i j => score_leb (score_at tscores i) (score_at tscores j))
                   (argsort tscores)
}.

(** Two admissible argsorts, for examples only: a stable one (ties in
    ascending index order, as [kind='stable'] gives) and one that leaves
    ties in descending index order.  The default kind of [np.argsort] is
    not stable, and the code asks for no kind: what holds of the ranker is
    proved for every [Argsort]. *)
Definition argsort_stable (tscores : list score) : list nat :=
  (sort_by score_leb (zip tscores (seq 0 (length tscores)))).*2.

Definition argsort_ties_descending (tscores : list score) : list nat :=
  (sort_by score_leb (reverse (zip tscores (seq 0 (length tscores))))).*2.

(** Iteration in order of last occurrence, one admissible set order. *)
Definition set_iter_dedup (s : list string) : list string := remove_dups s.

Definition inter_iter_dedup (s1 s2 : list string) : list string :=
  filter (fun w => w ∈ s2) (remove_dups s1).

(** [sum(scores)] over Python integers. *)
Definition sum_Z (xs : list Z) : Z := fold_left Z.add xs 0.

Section Ranker.
Context `{SI : SetIter} `{AS : Argsort}.

(** [tscores = [tesserae_score(s1, s2, src_freqs, trg_freqs) for s2 in trg]]:
    the call passes no [method], so the default ['min_freq'] is used. *)
Definition candidate_scores (s1 : list string) (trg : list (list string))
    (src_freqs trg_freqs : gmap string Q) : result (list score) :=
  mapM (fun s2 => tesserae_score s1 s2 src_freqs trg_freqs min_freq) trg.

(** [idxs = np.argsort(tscores)[::-1][:at]]
    [idxs = [idx for idx in idxs if tscores[idx] > 0]] *)
Definition top_idxs (tscores : list score) (at_ : Z) : list nat :=
  filter (fun i => score_pos (score_at tscores i))
         (py_slice_to at_ (reverse (argsort tscores))).

(** [[(idx, tscores[idx], len(set(s1).intersection(set(trg[idx])))) for idx in idxs]] *)
Definition scored_candidates (s1 : list string) (trg : list (list string))
    (tscores : list score) (idxs : list nat) : list (nat * score * nat) :=
  (fun i => (i, score_at tscores i, length (inter_iter s1 (segment_at trg i)))) <$> idxs.

(** One iteration of the loop over [enumerate(src)]: the hit and the
    appended output row. *)
Definition baseline_row (trg : list (list string)) (src_freqs trg_freqs : gmap string Q)
    (at_ : Z) (entry : nat * list string) : result (Z * list (nat * score * nat)) :=
  let '(idx, s1) := entry in
  tscores ← candidate_scores s1 trg src_freqs trg_freqs;
  let idxs := top_idxs tscores at_ in
  Ok (if bool_decide (idx ∈ idxs) then 1 else 0,
      scored_candidates s1 trg tscores idxs).

(** The loop over [enumerate(src)], then [sum(scores) / len(scores)].  The
    cutoff [at] of the source is [at_] here; [m] is the [method] argument,
    which the body never reads. *)
Definition tesserae_baseline (src trg : list (list string))
    (src_freqs trg_freqs : gmap string Q) (at_ : Z) (m : method)
    : result (Q * list (list (nat * score * nat))) :=
  rows ← mapM (baseline_row trg src_freqs trg_freqs at_) (zip (seq 0 (length src)) src);
  recall ← py_div (inject_Z (sum_Z rows.*1)) (inject_Z (Z.of_nat (length rows)));
  Ok (recall, rows.*2).

End Ranker.

(** ** The random baseline

    [random_baseline] ranks by chance.  Its inputs here are what the
    loaders hand it: the gold pairs, the background pairs in the order
    [random.shuffle] left them, and the permutation that
    [np.random.permutation] draws in each iteration. *)

Section RandomBaseline.
Context {Id Seg : Type} `{EqDecision Id}.

(** [ids, _ = zip( *pairs )], the transposition of the list of pairs: there
    is nothing to unpack when [pairs] is empty. *)
Definition unzip_ids (pairs : list (Id * Seg)) : result (list Id) :=
  match pairs with
  | [] => Raise ValueError
  | _ => Ok pairs.*1
  end.

(** [true[doc] in bg[np.random.permutation(len(bg))][:at]], as [0] or [1]. *)
Definition random_hit (pool : list Id) (perm : list nat) (at_ : Z) (x : Id) : Z :=
  if bool_decide (x ∈ py_slice_to at_ (omap (fun i => pool !! i) perm)) then 1 else 0.

(** The candidate pool: the ids of [bg[:n_background]], then the gold ids. *)
Definition random_pool (gold background : list (Id * Seg)) (n_background : Z) : list Id :=
  (py_slice_to n_background background).*1 ++ gold.*1.

Definition random_baseline (gold background : list (Id * Seg)) (perms : nat -> list nat)
    (at_ n_background : Z) : result Q :=
  true_ids ← unzip_ids gold;
  let pool := random_pool gold background n_background in
  let correct := sum_Z (imap (fun doc x => random_hit pool (perms doc) at_ x) true_ids) in
  py_div (inject_Z correct) (inject_Z (Z.of_nat (length true_ids))).

End RandomBaseline.

(** ** Chunking and windowing of a stream (textreuse/skipthought/dataiter.py)

    A generator is read as the list of the values it yields. *)

Section Stream.
Context {A : Type}.

(** The loop of [chunks], from a given content of [buf]:
    [buf.append(s)], then [yield buf] and a fresh [buf] when
    [len(buf) == size]; after the loop, [yield buf] if [len(buf) > 0]. *)
Fixpoint chunks_from (size : Z) (buf it : list A) : list (list A) :=
  match it with
  | [] => if 0 <? Z.of_nat (length buf) then [buf] else []
  | s :: it' =>
      let buf' := (buf ++ [s])%list in
      if Z.of_nat (length buf') =? size then buf' :: chunks_from size [] it'
      else chunks_from size buf' it'
  end.

Definition chunks (it : list A) (size : Z) : list (list A) :=
  chunks_from size [] it.

(** [result = result[1:] + (elem,)] on a triple; [None] of Python is [None]. *)
Definition window_shift (result : option A * option A * option A) (elem : option A)
    : option A * option A * option A :=
  (result.1.2, result.2, elem).

(** [for elem in it: result = result[1:] + (elem,); yield result] *)
Fixpoint window_rest (result : option A * option A * option A) (it : list (option A))
    : list (option A * option A * option A) :=
  match it with
  | [] => []
  | elem :: it' =>
      let result' := window_shift result elem in
      result' :: window_rest result' it'
  end.

(** [it = itertools.chain([None], it, [None])], the first three elements
    as [result], yielded when there are three of them, then the loop. *)
Definition window (it : list (option A)) : list (option A * option A * option A) :=
  match (None :: it ++ [None])%list with
  | a :: b :: c :: rest => (a, b, c) :: window_rest (a, b, c) rest
  | _ => []
  end.

End Stream.

(** ** Sentence pairs of the skip-thought iterator ([DataIter] in dataiter.py)

    [batch_generator] fills a buffer from each chunk of the stream of
    lines: one entry per line that has the neighbours asked for by
    [includes = (self.prevline, self.nextline)]. *)

(** The second component of a buffered entry: the tuple
    [(prevline, nextline)], or the one neighbour that is included. *)
Inductive context (A : Type) : Type :=
| Both (prevline nextline : A)
| Single (line : A).
Arguments Both {A} prevline nextline.
Arguments Single {A} line.

Section DataIter.
Context {A : Type}.
Variables (self_prevline self_nextline : bool).

(** The body of the loop over [window(chunk)]:
    [if current is None: continue], then the [if]/[elif] chain on the
    included neighbours; [None] when nothing is appended to [buf]. *)
Definition buffer_entry (t : option A * option A * option A) : option (A * context A) :=
  let '(prevline, current, nextline) := t in
  match current with
  | None => None
  | Some current =>
      if self_prevline && self_nextline then
        match prevline, nextline with
        | Some p, Some n => Some (current, Both p n)
        | _, _ => None
        end
      else
        match (if self_prevline then prevline else None) with
        | Some p => Some (current, Single p)
        | None =>
            match (if self_nextline then nextline else None) with
            | Some n => Some (current, Single n)
            | None => None
            end
        end
  end.

(** [buf] after the loop over [window(chunk)]. *)
Definition buffer_of_chunk (chunk : list (option A)) : list (A * context A) :=
  omap buffer_entry (window chunk).

End DataIter.

(** ** Set-overlap features of sentence pairs (textreuse/skipthought/eval_msrp.py)

    [is_number(w)] is whether [float(w)] parses; the parser is Python's, so
    it is a parameter.  A sentence is the sequence of its tokens. *)

Section CountFeats.
Variable is_number : string -> bool.

(** [[w for w in t if is_number(w)]] *)
Definition numbers (t : list string) : list string :=
  filter (fun w => is_number w) t.

(** [set(t)] *)
Definition token_set (t : list string) : gset string := list_to_set t.

(** A feature that is [1.] when the condition holds and stays [0.] otherwise. *)
Definition flag (b : bool) : Q := if b then 1%Q else 0%Q.

(** The body of the loop of [count_feats]: the six features of one pair. *)
Definition pair_feats (tA tB : list string) : result (list Q) :=
  let nA := numbers tA in
  let nB := numbers tB in
  let f0 := flag (bool_decide (token_set nA = token_set nB)) in
  let f1 := flag (bool_decide (token_set nA = token_set nB)
                  && bool_decide (0 < length nA)%nat) in
  let f2 := flag (bool_decide (token_set nA ⊆ token_set nB)
                  || bool_decide (token_set nB ⊆ token_set nA)) in
  let common := inject_Z (Z.of_nat (size (token_set tA ∩ token_set tB))) in
  f3 ← py_div common (inject_Z (Z.of_nat (size (token_set tA))));
  f4 ← py_div common (inject_Z (Z.of_nat (size (token_set tB))));
  rAB ← py_div (inject_Z (Z.of_nat (length tA))) (inject_Z (Z.of_nat (length tB)));
  rBA ← py_div (inject_Z (Z.of_nat (length tB))) (inject_Z (Z.of_nat (length tA)));
  Ok [f0; f1; f2; f3; f4; ((1 # 2) * (rAB + rBA))%Q].

(** [features = np.zeros((len(A), 6))], then one row filled per pair of
    [zip(A, B)]; the rows past [len(B)] stay zero. *)
Definition count_feats (A B : list (list string)) : result (list (list Q)) :=
  rows ← mapM (fun p => pair_feats p.1 p.2) (zip A B);
  Ok (rows ++ replicate (length A - length B) (replicate 6 0%Q))%list.

End CountFeats.

(** ** Splitting a dataset with a shared reserve (biblindex/sample_dataset.py)

    The script's input is the list of selected lines in the order
    [random.shuffle] left them; [splits] is a [defaultdict(list)]. *)

Definition NSPLITS : nat := 4.
Definition RESERVE : nat := 20.

Section SampleDataset.
Context {A : Type}.

(** [PROP = math.ceil(len(lines) / NSPLITS)] *)
Definition PROP (lines : list A) : nat := (length lines + (NSPLITS - 1)) / NSPLITS.

(** [lines[split*PROP:(split+1)*PROP]] *)
Definition split_lines (lines : list A) (split : nat) : list A :=
  take (PROP lines) (drop (split * PROP lines) lines).

(** [split_lines[-RESERVE:]]: the last [RESERVE] items, or all of them. *)
Definition reserve_of (l : list A) : list A := drop (length l - RESERVE) l.

(** [splits[k]] on a [defaultdict(list)], and [splits[k].extend(items)]. *)
Definition dd_get (splits : gmap nat (list A)) (k : nat) : list A :=
  default [] (splits !! k).

Definition dd_extend (splits : gmap nat (list A)) (k : nat) (items : list A)
    : gmap nat (list A) :=
  <[k := (dd_get splits k ++ items)%list]> splits.

(** One iteration of [for split in range(NSPLITS)]: the lines of the split
    are appended one by one to [splits[split]], and its reserve is added to
    every other split. *)
Definition add_split (lines : list A) (splits : gmap nat (list A)) (split : nat)
    : gmap nat (list A) :=
  let sl := split_lines lines split in
  let splits := fold_left (fun sp i => dd_extend sp split [i]) sl splits in
  fold_left (fun sp splitb =>
               if decide (split <> splitb) then dd_extend sp splitb (reserve_of sl) else sp)
            (seq 0 NSPLITS) splits.

Definition make_splits (lines : list A) : gmap nat (list A) :=
  fold_left (add_split lines) (seq 0 NSPLITS) ∅.

End SampleDataset.

(** * Vocabulary of the properties *)

(** Keys ascending, and original positions ascending among equal keys. *)
Definition lex_lt {K} (leb : K -> K -> bool) (a b : K * nat) : Prop :=
  leb a.1 b.1 /\ (~ leb b.1 a.1 \/ (a.2 < b.2)%nat).

(** The tokens two segments share, as a finite set. *)
Definition shared (s1 s2 : list string) : gset string :=
  list_to_set s1 ∩ list_to_set s2.

(** The weight [1 / freqs[w]] of a token that is in the map. *)
Definition inv_freq (freqs : gmap string Q) (w : string) : Q :=
  (1 / default 0 (freqs !! w))%Q.

(** The token is in the map with a frequency one can divide by. *)
Definition usable (freqs : gmap string Q) (w : string) : Prop :=
  exists q, freqs !! w = Some q /\ ~ (q == 0)%Q.

#[global] Instance Q_lt_dec (x y : Q) : Decision (x < y)%Q :=
  match Qlt_le_dec x y with
  | left H => left H
  | right H => right (Qle_not_lt _ _ H)
  end.

(** A Frequency Map holds positive weights only. *)
Definition freq_map_wf (freqs : gmap string Q) : Prop :=
  map_Forall (fun _ q => 0 < q)%Q freqs.

(** A Frequency Map covers a segment when it has every token of it. *)
Definition covers (freqs : gmap string Q) (s : list string) : Prop :=
  Forall (fun w => is_Some (freqs !! w)) s.

#[global] Instance freq_map_wf_dec (freqs : gmap string Q) : Decision (freq_map_wf freqs).
Proof. unfold freq_map_wf. apply _. Defined.

#[global] Instance covers_dec (freqs : gmap string Q) (s : list string) :
  Decision (covers freqs s).
Proof. unfold covers. apply _. Defined.





(** Candidates with equal scores appear in their original order. *)
Definition ties_in_candidate_order (row : list (nat * score * nat)) : Prop :=
  forall p q c1 c2,
    (p < q)%nat -> row !! p = Some c1 -> row !! q = Some c2 ->
    score_R c1.1.2 = score_R c2.1.2 -> (c1.1.1 < c2.1.1)%nat.

(** [i] comes before [j] in a list of indices. *)
Definition precedes (order : list nat) (i j : nat) : Prop :=
  exists a b, (a < b)%nat /\ order !! a = Some i /\ order !! b = Some j.

(** Candidates with equal scores appear in the reverse of the order they
    have in [order]. *)
Definition ties_in_reverse_of (order : list nat) (row : list (nat * score * nat)) : Prop :=
  forall p q c1 c2,
    (p < q)%nat -> row !! p = Some c1 -> row !! q = Some c2 ->
    score_R c1.1.2 = score_R c2.1.2 -> precedes order c2.1.1 c1.1.1.

(** Position [i] of the segment holds a matching token. *)
Definition matches_at (s matching : list string) (i : nat) : bool :=
  match s !! i with
  | Some x => member x matching
  | None => false
  end.

(** The positions of a segment that hold a matching token, in ascending order. *)
Definition matching_positions (s matching : list string) : list nat :=
  filter (fun i => matches_at s matching i) (seq 0 (length s)).

(** The distance from the first to the last element of a list of positions
    ([0] when the list is empty). *)
Definition span (ps : list nat) : Z :=
  match ps, last ps with
  | p :: _, Some q => Z.of_nat q - Z.of_nat p
  | _, _ => 0
  end.

(** The number of distinct tokens of a segment. *)
Definition distinct_tokens (s : list string) : nat :=
  size (list_to_set s : gset string).

(** Whether candidate [k] is listed in a row of scored candidates. *)
Definition row_hit (k : nat) (row : list (nat * score * nat)) : Z :=
  if bool_decide (k ∈ row.*1.*1) then 1 else 0.

(** The element before position [k] of a stream ([None] before the first
    element) and the element after it ([None] after the last). *)
Definition before {A} (it : list (option A)) (k : nat) : option A :=
  match k with
  | O => None
  | S j => default None (it !! j)
  end.

Definition after {A} (it : list (option A)) (k : nat) : option A :=
  default None (it !! S k).

(** The neighbours an entry of the buffer must have, by the included
    contexts: [ctx] is the context of [includes] at position [k]. *)
Definition context_at {A} (self_prevline self_nextline : bool) (it : list (option A))
    (k : nat) (ctx : context A) : Prop :=
  match self_prevline, self_nextline with
  | true, true => exists p n, before it k = Some p /\ after it k = Some n /\ ctx = Both p n
  | true, false => exists p, before it k = Some p /\ ctx = Single p
  | false, true => exists n, after it k = Some n /\ ctx = Single n
  | false, false => False
  end.

(** The number of entries buffered from a list of chunks. *)
Definition pairs_of_chunks {A} (self_prevline self_nextline : bool)
    (cs : list (list (option A))) : nat :=
  sum_list ((fun c => length (buffer_of_chunk self_prevline self_nextline c)) <$> cs).

(** What split [k] receives from the lines of split [j]: all of them when
    [j = k], their reserve otherwise. *)
Definition split_part {A} (lines : list A) (k j : nat) : list A :=
  if decide (j = k) then split_lines lines j else reserve_of (split_lines lines j).

(** Example data. *)
Definition ab_segment : list string := ["a"; "b"].
Definition abc_segment : list string := ["a"; "b"; "c"].
Definition acb_segment : list string := ["a"; "c"; "b"].
Definition abac_segment : list string := ["a"; "b"; "a"; "c"].
Definition freqs_1_5_10 : gmap string Q :=
  list_to_map [("a", 1%Q); ("b", 5%Q); ("c", 10%Q)].
Definition freqs_1_2_3 : gmap string Q :=
  list_to_map [("a", 1%Q); ("b", 2%Q); ("c", 3%Q)].
Definition freqs_10_10 : gmap string Q :=
  list_to_map [("a", 10%Q); ("b", 10%Q)].
Definition freqs_1_1 : gmap string Q :=
  list_to_map [("a", 1%Q); ("b", 1%Q)].

(** * Properties *)

(** ** The error monad *)

Lemma bind_Ok {A B} (r : result A) (k : A -> result B) (b : B) :
  r ≫= k = Ok b <-> exists a, r = Ok a /\ k a = Ok b.
Proof.
  destruct r as [a|e]; simpl; split.
  - intros H. by exists a.
  - by intros (a' & [= ->] & H).
  - discriminate.
  - by intros (a' & [=] & _).
Qed.

Lemma mapM_Ok_length {A B} (f : A -> result B) (l : list A) (ys : list B) :
  mapM f l = Ok ys -> length ys = length l.
Proof.
  revert ys. induction l as [|x l IH]; intros ys; simpl.
  - by intros [= <-].
  - destruct (f x) as [y|e]; simpl; [|discriminate].
    destruct (mapM f l) as [ys'|e]; simpl; [|discriminate].
    intros [= <-]. simpl. f_equal. by apply IH.
Qed.

Lemma mapM_Ok_lookup {A B} (f : A -> result B) (l : list A) (ys : list B) i x :
  mapM f l = Ok ys -> l !! i = Some x -> exists y, ys !! i = Some y /\ f x = Ok y.
Proof.
  revert ys i. induction l as [|x' l IH]; intros ys i; simpl; [done|].
  destruct (f x') as [y'|e] eqn:Hf; simpl; [|discriminate].
  destruct (mapM f l) as [ys'|e]; simpl; [|discriminate].
  intros [= <-]. destruct i as [|i]; simpl.
  - intros [= <-]. by exists y'.
  - by apply IH.
Qed.

Lemma mapM_is_ok {A B} (f : A -> result B) (l : list A) :
  is_ok (mapM f l) <-> Forall (fun x => is_ok (f x)) l.
Proof.
  induction l as [|x l IH]; simpl.
  - split; [constructor | done].
  - rewrite Forall_cons, <- IH.
    destruct (f x); simpl; [|tauto].
    destruct (mapM f l); simpl; tauto.
Qed.

Lemma mapM_Raise {A B} (f : A -> result B) (l : list A) e :
  mapM f l = Raise e -> exists x, x ∈ l /\ f x = Raise e.
Proof.
  induction l as [|x l IH]; simpl; [discriminate|].
  destruct (f x) as [y|e'] eqn:Hf; simpl.
  - destruct (mapM f l) as [ys|e']; simpl; [discriminate|].
    intros [= ->]. destruct IH as (x' & ? & ?); [done|].
    exists x'. split; [by right | done].
  - intros [= ->]. exists x. split; [by left | done].
Qed.

Lemma mapM_ext_in {A B} (f g : A -> result B) (l : list A) :
  (forall x, x ∈ l -> f x = g x) -> mapM f l = mapM g l.
Proof.
  induction l as [|x l IH]; intros H; simpl; [done|].
  rewrite (H x) by left. rewrite IH; [done|].
  intros y Hy. apply H. by right.
Qed.

(** ** Stable sorting by key *)

Lemma StronglySorted_fmap_iff {A B} (R : relation B) (f : A -> B) (l : list A) :
  StronglySorted R (f <$> l) <-> StronglySorted (fun a b => R (f a) (f b)) l.
Proof.
  induction l as [|x l IH]; simpl.
  - split; constructor.
  - rewrite !StronglySorted_cons, IH, Forall_fmap. done.
Qed.

Lemma StronglySorted_weaken {A} (R R' : relation A) (l : list A) :
  (forall a b, a ∈ l -> b ∈ l -> R a b -> R' a b) ->
  StronglySorted R l -> StronglySorted R' l.
Proof.
  induction l as [|x l IH]; intros HR; [constructor|].
  rewrite !StronglySorted_cons. intros [Hx Hl]. split.
  - rewrite Forall_forall in *. intros y Hy.
    apply HR; [by left | by right | by apply Hx].
  - apply IH; [|done]. intros a b Ha Hb. apply HR; by right.
Qed.

Lemma StronglySorted_sublist {A} (R : relation A) (l1 l2 : list A) :
  l1 `sublist_of` l2 -> StronglySorted R l2 -> StronglySorted R l1.
Proof.
  induction 1 as [|x l1 l2 Hsub IH|x l1 l2 Hsub IH];
    rewrite ?StronglySorted_cons; [done| |].
  - intros [Hx Hl]. split; [|by apply IH].
    rewrite Forall_forall in *. intros y Hy.
    apply Hx. by eapply sublist_subseteq.
  - intros [_ Hl]. by apply IH.
Qed.

Lemma StronglySorted_reverse {A} (R : relation A) (l : list A) :
  StronglySorted R l -> StronglySorted (flip R) (reverse l).
Proof.
  induction l as [|x l IH]; [constructor|].
  rewrite StronglySorted_cons, reverse_cons. intros [Hx Hl].
  apply StronglySorted_app_2; [| by apply IH | repeat constructor].
  intros y z Hy Hz. apply list_elem_of_singleton in Hz as ->.
  rewrite elem_of_reverse in Hy. rewrite Forall_forall in Hx.
  unfold flip. by apply Hx.
Qed.

Section KeySortFacts.
Context {K V : Type} (leb : K -> K -> bool).

Lemma insert_by_perm (x : K * V) (l : list (K * V)) :
  insert_by leb x l ≡ₚ x :: l.
Proof.
  induction l as [|y l IH]; simpl; [done|].
  destruct (leb x.1 y.1); [done|].
  rewrite IH. apply Permutation_swap.
Qed.

Lemma sort_by_perm (l : list (K * V)) : sort_by leb l ≡ₚ l.
Proof.
  induction l as [|x l IH]; simpl; [done|].
  by rewrite insert_by_perm, IH.
Qed.

Lemma sort_by_length (l : list (K * V)) : length (sort_by leb l) = length l.
Proof. apply Permutation_length, sort_by_perm. Qed.

End KeySortFacts.

Section Stability.
Context {K : Type} (leb : K -> K -> bool).
Hypothesis leb_total : forall a b, leb a b \/ leb b a.
Hypothesis leb_trans : forall a b c, leb a b -> leb b c -> leb a c.

Lemma insert_by_lex (x : K * nat) (l : list (K * nat)) :
  StronglySorted (lex_lt leb) l ->
  Forall (fun b => (x.2 < b.2)%nat) l ->
  StronglySorted (lex_lt leb) (insert_by leb x l).
Proof.
  induction l as [|y l IH]; simpl; intros Hs Hx.
  - repeat constructor.
  - apply StronglySorted_cons in Hs as [Hy Hl].
    apply Forall_cons in Hx as [Hxy Hxl].
    destruct (leb x.1 y.1) eqn:Hle.
    + apply StronglySorted_cons. split.
      * constructor.
        { split; [by rewrite Hle | by right]. }
        rewrite Forall_forall in *. intros z Hz. split; [|right; by apply Hxl].
        apply leb_trans with y.1; [by rewrite Hle|]. by apply Hy.
      * apply StronglySorted_cons. done.
    + apply StronglySorted_cons. split; [|by apply IH].
      rewrite insert_by_perm. constructor; [|done].
      split.
      * destruct (leb_total y.1 x.1) as [?|H]; [done|]. by rewrite Hle in H.
      * left. rewrite Hle. simpl. tauto.
Qed.

Lemma sort_by_stable (l : list (K * nat)) :
  StronglySorted (fun a b => (a.2 < b.2)%nat) l ->
  StronglySorted (lex_lt leb) (sort_by leb l).
Proof.
  induction l as [|x l IH]; simpl; [constructor|].
  rewrite StronglySorted_cons. intros [Hx Hl].
  apply insert_by_lex; [by apply IH|].
  by rewrite sort_by_perm.
Qed.

End Stability.

Section KeySortSorted.
Context {K V : Type} (leb : K -> K -> bool).
Hypothesis leb_total : forall a b, leb a b \/ leb b a.
Hypothesis leb_trans : forall a b c, leb a b -> leb b c -> leb a c.

Lemma insert_by_sorted (x : K * V) (l : list (K * V)) :
  StronglySorted (fun a b => leb a.1 b.1) l ->
  StronglySorted (fun a b => leb a.1 b.1) (insert_by leb x l).
Proof.
  induction l as [|y l IH]; simpl; intros Hs.
  - repeat constructor.
  - apply StronglySorted_cons in Hs as [Hy Hl].
    destruct (leb x.1 y.1) eqn:Hle.
    + apply StronglySorted_cons. split.
      * constructor; [by rewrite Hle|].
        rewrite Forall_forall in *. intros z Hz.
        apply leb_trans with y.1; [by rewrite Hle | by apply Hy].
      * by apply StronglySorted_cons.
    + apply StronglySorted_cons. split; [|by apply IH].
      rewrite insert_by_perm. constructor; [|done].
      destruct (leb_total y.1 x.1) as [?|H]; [done|]. by rewrite Hle in H.
Qed.

Lemma sort_by_sorted (l : list (K * V)) :
  StronglySorted (fun a b => leb a.1 b.1) (sort_by leb l).
Proof.
  induction l as [|x l IH]; simpl; [constructor | by apply insert_by_sorted].
Qed.

End KeySortSorted.

(** ** Order on scores *)

Lemma score_leb_total (a b : score) : score_leb a b \/ score_leb b a.
Proof.
  unfold score_leb. rewrite !Is_true_true, !Qle_bool_iff.
  destruct (Qlt_le_dec (score_arg b) (score_arg a)) as [H|H]; [right|left]; [|done].
  by apply Qlt_le_weak.
Qed.

Lemma score_leb_trans (a b c : score) : score_leb a b -> score_leb b c -> score_leb a c.
Proof.
  unfold score_leb. rewrite !Is_true_true, !Qle_bool_iff. apply Qle_trans.
Qed.

Lemma score_pos_lt (v : score) : score_pos v <-> (1 < score_arg v)%Q.
Proof.
  unfold score_pos. rewrite negb_True, Is_true_true, Qle_bool_iff.
  split; [apply Qnot_le_lt | apply Qlt_not_le].
Qed.

(** The boolean tests agree with the real numbers the scores stand for. *)
Lemma score_pos_R (v : score) : score_wf v -> (score_pos v <-> (0 < score_R v)%R).
Proof.
  unfold score_wf. rewrite score_pos_lt. destruct v as [|q]; simpl.
  - intros _. split; [discriminate | lra].
  - intros Hq. apply Qlt_Rlt in Hq. rewrite RMicromega.Q2R_0 in Hq.
    rewrite <- ln_1. split.
    + intros H. apply Qlt_Rlt in H. rewrite RMicromega.Q2R_1 in H.
      apply ln_increasing; lra.
    + intros H. apply ln_lt_inv in H; [|lra|done].
      apply Rlt_Qlt. by rewrite RMicromega.Q2R_1.
Qed.

Lemma score_nonneg_R (v : score) :
  score_wf v -> ((0 <= score_R v)%R <-> (1 <= score_arg v)%Q).
Proof.
  unfold score_wf. destruct v as [|q]; simpl.
  - intros _. split; [discriminate | lra].
  - intros Hq. apply Qlt_Rlt in Hq. rewrite RMicromega.Q2R_0 in Hq.
    rewrite <- ln_1. split.
    + intros H. apply Rle_Qle. rewrite RMicromega.Q2R_1.
      destruct (Rle_lt_dec 1 (Q2R q)) as [|Hlt]; [done|].
      apply ln_increasing in Hlt; [lra | done].
    + intros H. apply Qle_Rle in H. rewrite RMicromega.Q2R_1 in H.
      destruct H as [H|H]; [left; apply ln_increasing; lra | right; by rewrite H].
Qed.

Lemma score_leb_R (v1 v2 : score) :
  score_wf v1 -> score_wf v2 -> (score_leb v1 v2 <-> (score_R v1 <= score_R v2)%R).
Proof.
  assert (Hln : forall v, score_wf v -> score_R v = ln (Q2R (score_arg v))).
  { intros [|q] _; simpl; [by rewrite RMicromega.Q2R_1, ln_1 | done]. }
  intros H1 H2. rewrite (Hln _ H1), (Hln _ H2).
  unfold score_wf in *. apply Qlt_Rlt in H1, H2. rewrite RMicromega.Q2R_0 in H1, H2.
  unfold score_leb. rewrite Is_true_true, Qle_bool_iff. split.
  - intros H. apply Qle_Rle in H.
    destruct H as [H|H]; [left; by apply ln_increasing | right; by rewrite H].
  - intros H. apply Rle_Qle.
    destruct (Rle_lt_dec (Q2R (score_arg v1)) (Q2R (score_arg v2))) as [|Hlt]; [done|].
    apply ln_increasing in Hlt; [lra | done].
Qed.

(** ** The stable argsort is an argsort *)

Lemma seq_StronglySorted (start len : nat) : StronglySorted lt (seq start len).
Proof.
  revert start. induction len as [|len IH]; intros start; simpl; constructor; [apply IH|].
  apply Forall_forall. intros j Hj. apply elem_of_seq in Hj. lia.
Qed.

Lemma zip_seq_elem (tscores : list score) (v : score) (i : nat) :
  (v, i) ∈ zip tscores (seq 0 (length tscores)) -> score_at tscores i = v.
Proof.
  intros H. apply list_elem_of_lookup in H as [k Hk].
  apply lookup_zip_Some in Hk as [Hv Hi].
  apply lookup_seq in Hi as [-> _]. unfold score_at. simpl. by rewrite Hv.
Qed.

Lemma argsort_stable_lex (tscores : list score) :
  StronglySorted (lex_lt score_leb)
    (sort_by score_leb (zip tscores (seq 0 (length tscores)))).
Proof.
  apply sort_by_stable; [apply score_leb_total | apply score_leb_trans |].
  apply (StronglySorted_fmap_iff lt snd).
  rewrite snd_zip by (rewrite length_seq; lia). apply seq_StronglySorted.
Qed.

Lemma argsort_stable_perm (tscores : list score) :
  argsort_stable tscores ≡ₚ seq 0 (length tscores).
Proof.
  unfold argsort_stable. rewrite sort_by_perm.
  rewrite snd_zip by (rewrite length_seq; lia). done.
Qed.

Lemma argsort_stable_ascending (tscores : list score) :
  StronglySorted (fun i j => score_leb (score_at tscores i) (score_at tscores j))
                 (argsort_stable tscores).
Proof.
  unfold argsort_stable. apply StronglySorted_fmap_iff.
  eapply StronglySorted_weaken; [|apply argsort_stable_lex].
  intros [v i] [v' j] Hi Hj [Hle _]. simpl in *.
  rewrite sort_by_perm in Hi, Hj.
  by rewrite (zip_seq_elem _ _ _ Hi), (zip_seq_elem _ _ _ Hj).
Qed.

#[global] Instance stable_argsort : Argsort := {|
  argsort := argsort_stable;
  argsort_perm := argsort_stable_perm;
  argsort_ascending := argsort_stable_ascending
|}.

Lemma argsort_ties_descending_perm (tscores : list score) :
  argsort_ties_descending tscores ≡ₚ seq 0 (length tscores).
Proof.
  unfold argsort_ties_descending. rewrite sort_by_perm, reverse_Permutation.
  rewrite snd_zip by (rewrite length_seq; lia). done.
Qed.

Lemma argsort_ties_descending_ascending (tscores : list score) :
  StronglySorted (fun i j => score_leb (score_at tscores i) (score_at tscores j))
                 (argsort_ties_descending tscores).
Proof.
  unfold argsort_ties_descending. apply StronglySorted_fmap_iff.
  eapply StronglySorted_weaken;
    [|apply sort_by_sorted; [apply score_leb_total | apply score_leb_trans]].
  intros [v i] [v' j] Hi Hj Hle. simpl in *.
  rewrite sort_by_perm, reverse_Permutation in Hi, Hj.
  by rewrite (zip_seq_elem _ _ _ Hi), (zip_seq_elem _ _ _ Hj).
Qed.

Definition ties_descending_argsort : Argsort := {|
  argsort := argsort_ties_descending;
  argsort_perm := argsort_ties_descending_perm;
  argsort_ascending := argsort_ties_descending_ascending
|}.

Lemma inter_iter_dedup_NoDup (s1 s2 : list string) : NoDup (inter_iter_dedup s1 s2).
Proof. apply NoDup_filter, NoDup_remove_dups. Qed.

Lemma inter_iter_dedup_elem (s1 s2 : list string) (w : string) :
  w ∈ inter_iter_dedup s1 s2 <-> w ∈ s1 /\ w ∈ s2.
Proof.
  unfold inter_iter_dedup. rewrite list_elem_of_filter, elem_of_remove_dups. tauto.
Qed.

#[global] Instance dedup_iter : SetIter := {|
  set_iter := set_iter_dedup;
  inter_iter := inter_iter_dedup;
  set_iter_NoDup := NoDup_remove_dups;
  set_iter_elem := elem_of_remove_dups;
  inter_iter_NoDup := inter_iter_dedup_NoDup;
  inter_iter_elem := inter_iter_dedup_elem
|}.

(** ** Sums of rationals *)

Lemma fold_left_Qplus (xs : list Q) (a : Q) :
  (fold_left Qplus xs a == a + foldr Qplus 0 xs)%Q.
Proof.
  revert a. induction xs as [|x xs IH]; intros a; simpl.
  - by rewrite Qplus_0_r.
  - rewrite IH. by rewrite Qplus_assoc.
Qed.

Lemma py_sum_foldr (xs : list Q) : (py_sum xs == foldr Qplus 0 xs)%Q.
Proof. unfold py_sum. rewrite fold_left_Qplus. apply Qplus_0_l. Qed.



Lemma foldr_Qplus_nonneg (xs : list Q) :
  Forall (fun x => 0 < x)%Q xs -> (0 <= foldr Qplus 0 xs)%Q.
Proof.
  induction 1 as [|x xs Hx _ IH]; simpl; [apply Qle_refl|].
  apply Qlt_le_weak in Hx.
  pose proof (Qplus_le_compat _ _ _ _ Hx IH) as H. by rewrite Qplus_0_l in H.
Qed.

Lemma py_sum_pos (xs : list Q) :
  Forall (fun x => 0 < x)%Q xs -> xs <> [] -> (0 < py_sum xs)%Q.
Proof.
  intros H Hne. rewrite py_sum_foldr. destruct H as [|x xs Hx Hxs]; [done|]. simpl.
  apply foldr_Qplus_nonneg in Hxs.
  pose proof (Qplus_lt_le_compat _ _ _ _ Hx Hxs) as H. by rewrite Qplus_0_l in H.
Qed.

(** ** Lookups, division and [index] *)

Lemma py_div_Ok (x y : Q) : ~ (y == 0)%Q -> py_div x y = Ok (x / y)%Q.
Proof.
  intros H. unfold py_div. destruct (Qeq_bool y 0) eqn:E; [|done].
  by apply Qeq_bool_iff in E.
Qed.

Lemma py_div_Raise (x y : Q) e : py_div x y = Raise e -> e = ZeroDivisionError /\ (y == 0)%Q.
Proof.
  unfold py_div. destruct (Qeq_bool y 0) eqn:E; [|discriminate].
  intros [= <-]. split; [done|]. by apply Qeq_bool_iff.
Qed.

Lemma index_Ok (s : list string) (w : string) :
  w ∈ s -> exists i, index s w = Ok i /\ s !! i = Some w.
Proof.
  induction s as [|x s IH]; [by intros ?%elem_of_nil|].
  intros Hw. simpl. destruct (decide (x = w)) as [->|Hne].
  - by exists 0%nat.
  - apply elem_of_cons in Hw as [->|Hw]; [done|].
    destruct (IH Hw) as (i & -> & Hi). by exists (S i).
Qed.

Lemma index_Ok_inv (s : list string) (w : string) (i : nat) :
  index s w = Ok i -> s !! i = Some w.
Proof.
  revert i. induction s as [|x s IH]; intros i; simpl; [discriminate|].
  destruct (decide (x = w)) as [->|Hne].
  - by intros [= <-].
  - destruct (index s w) as [j|e]; simpl; [|discriminate].
    intros [= <-]. by apply IH.
Qed.

(** ** Matching tokens as a finite set *)

Section ScorerFacts.
Context `{SI : SetIter}.

Lemma inter_iter_shared (s1 s2 : list string) (w : string) :
  w ∈ inter_iter s1 s2 <-> w ∈ shared s1 s2.
Proof. rewrite inter_iter_elem. unfold shared. set_solver. Qed.

Lemma inter_iter_length (s1 s2 : list string) :
  length (inter_iter s1 s2) = size (shared s1 s2).
Proof.
  unfold size, set_size. simpl. apply Permutation_length.
  apply NoDup_Permutation; [apply inter_iter_NoDup | apply NoDup_elements |].
  intros w. rewrite inter_iter_shared. by rewrite elem_of_elements.
Qed.

Lemma inter_iter_swap (s1 s2 : list string) :
  inter_iter s1 s2 ≡ₚ inter_iter s2 s1.
Proof.
  apply NoDup_Permutation; [apply inter_iter_NoDup | apply inter_iter_NoDup |].
  intros w. rewrite !inter_iter_elem. tauto.
Qed.

Lemma set_iter_length_ge (s1 s2 : list string) :
  (length (inter_iter s1 s2) <= length (set_iter s1))%nat.
Proof.
  apply submseteq_length, NoDup_submseteq; [apply inter_iter_NoDup|].
  intros w. rewrite inter_iter_elem, set_iter_elem. tauto.
Qed.

End ScorerFacts.

(** ** The weighted frequency sums *)

Lemma mapM_Ok_fmap {A B} (f : A -> result B) (g : A -> B) (l : list A) :
  (forall x, x ∈ l -> f x = Ok (g x)) -> mapM f l = Ok (g <$> l).
Proof.
  induction l as [|x l IH]; intros H; simpl; [done|].
  rewrite (H x) by left. simpl. rewrite IH; [done|].
  intros y Hy. apply H. by right.
Qed.

Lemma weight_usable (freqs : gmap string Q) (w : string) :
  usable freqs w ->
  (f ← dict_get freqs w; py_div 1 f) = Ok (inv_freq freqs w).
Proof.
  intros (q & Hq & Hne). unfold dict_get, inv_freq. rewrite Hq. simpl.
  by apply py_div_Ok.
Qed.

Lemma weight_is_ok (freqs : gmap string Q) (w : string) :
  is_ok (f ← dict_get freqs w; py_div 1 f) <-> usable freqs w.
Proof.
  split; [|intros H; by rewrite weight_usable].
  unfold dict_get, usable. destruct (freqs !! w) as [q|]; simpl; [|done].
  unfold py_div. destruct (Qeq_bool q 0) eqn:E; simpl; [done|].
  intros _. exists q. split; [done|]. apply Qeq_bool_neq, E.
Qed.

Lemma weight_Raise (freqs : gmap string Q) (w : string) (e : exn) :
  (f ← dict_get freqs w; py_div 1 f) = Raise e ->
  (freqs !! w = None /\ e = KeyError w) \/
  (exists q, freqs !! w = Some q /\ (q == 0)%Q /\ e = ZeroDivisionError).
Proof.
  unfold dict_get. destruct (freqs !! w) as [q|]; simpl.
  - intros [-> H]%py_div_Raise. right. by exists q.
  - intros [= <-]. by left.
Qed.

Lemma inv_freq_sum_Ok (freqs : gmap string Q) (matching : list string) :
  Forall (usable freqs) matching ->
  inv_freq_sum freqs matching = Ok (py_sum (inv_freq freqs <$> matching)).
Proof.
  intros H. unfold inv_freq_sum.
  rewrite (mapM_Ok_fmap _ (inv_freq freqs)); [done|].
  intros w Hw. apply weight_usable. rewrite Forall_forall in H. by apply H.
Qed.

Lemma inv_freq_sum_is_ok (freqs : gmap string Q) (matching : list string) :
  is_ok (inv_freq_sum freqs matching) <-> Forall (usable freqs) matching.
Proof.
  split; [|intros H; by rewrite inv_freq_sum_Ok].
  unfold inv_freq_sum. intros H.
  assert (is_ok (mapM (fun w => f ← dict_get freqs w; py_div 1 f) matching)) as Hm.
  { by destruct (mapM _ matching). }
  apply mapM_is_ok in Hm. eapply Forall_impl; [done|].
  intros w. apply weight_is_ok.
Qed.

Lemma inv_freq_sum_Raise (freqs : gmap string Q) (matching : list string) (e : exn) :
  inv_freq_sum freqs matching = Raise e ->
  exists w, w ∈ matching /\
    ((freqs !! w = None /\ e = KeyError w) \/
     (exists q, freqs !! w = Some q /\ (q == 0)%Q /\ e = ZeroDivisionError)).
Proof.
  unfold inv_freq_sum.
  destruct (mapM _ matching) as [ws|e'] eqn:Hm; simpl; [discriminate|].
  intros [= ->]. apply mapM_Raise in Hm as (w & Hw & Hr).
  exists w. split; [done|]. by apply weight_Raise.
Qed.

Lemma inv_freq_sum_pos (freqs : gmap string Q) (matching : list string) :
  (forall w, w ∈ matching -> exists q, freqs !! w = Some q /\ (0 < q)%Q) ->
  matching <> [] ->
  exists f, inv_freq_sum freqs matching = Ok f /\ (0 < f)%Q.
Proof.
  intros H Hne. eexists. split.
  - apply inv_freq_sum_Ok. apply Forall_forall. intros w Hw.
    destruct (H w Hw) as (q & Hq & Hpos). exists q. split; [done|].
    intros E. rewrite E in Hpos. by apply Qlt_irrefl in Hpos.
  - apply py_sum_pos; [|by destruct matching].
    apply Forall_fmap, Forall_forall. intros w Hw. simpl.
    destruct (H w Hw) as (q & Hq & Hpos). unfold inv_freq. rewrite Hq. simpl.
    unfold Qdiv. rewrite Qmult_1_l. by apply Qinv_lt_0_compat.
Qed.

(** ** The distance heuristics *)

Lemma index_Raise (s : list string) (w : string) (e : exn) :
  index s w = Raise e -> e = ValueError.
Proof.
  induction s as [|x s IH]; simpl; [by intros [= <-]|].
  destruct (decide (x = w)); [discriminate|].
  destruct (index s w); simpl; [discriminate|]. intros [= <-]. by apply IH.
Qed.


Lemma fold_left_ge {B} (f : Z -> B -> Z) (l : list B) (d : Z) :
  (forall d b, d <= f d b) -> d <= fold_left f l d.
Proof.
  intros Hf. revert d. induction l as [|b l IH]; intros d; simpl; [lia|].
  etrans; [apply (Hf d b) | apply IH].
Qed.

Lemma fold_left_hit {B} (f : Z -> B -> Z) (l : list B) (d c : Z) (b : B) :
  (forall d b, d <= f d b) -> b ∈ l -> (forall d, c <= f d b) -> c <= fold_left f l d.
Proof.
  intros Hf Hb Hc. revert d. induction l as [|b' l IH]; intros d; simpl.
  - by apply elem_of_nil in Hb.
  - apply elem_of_cons in Hb as [<-|Hb]; [|by apply IH].
    etrans; [apply (Hc d) | by apply fold_left_ge].
Qed.

Lemma max_dist_step_ge (s matching : list string) (i : nat) (d : Z) (j : nat) :
  d <= max_dist_step s matching i d j.
Proof.
  unfold max_dist_step.
  destruct (s !! i), (s !! j); try lia.
  destruct (member _ _ && member _ _); lia.
Qed.

Lemma max_dist_step_hit (s matching : list string) (i j : nat) (x y : string) (d : Z) :
  s !! i = Some x -> s !! j = Some y -> x ∈ matching -> y ∈ matching ->
  Z.abs (Z.of_nat i - Z.of_nat j) <= max_dist_step s matching i d j.
Proof.
  intros Hi Hj Hx Hy. unfold max_dist_step, member. rewrite Hi, Hj.
  rewrite !bool_decide_eq_true_2 by done. simpl. lia.
Qed.

Lemma get_d_max_dist_nonneg (s matching : list string) :
  0 <= get_d_max_dist s matching.
Proof.
  unfold get_d_max_dist. apply fold_left_ge.
  intros d i. apply fold_left_ge. intros d' j. apply max_dist_step_ge.
Qed.

Lemma get_d_max_dist_pair (s matching : list string) (i j : nat) (x y : string) :
  (i < j)%nat -> s !! i = Some x -> s !! j = Some y ->
  x ∈ matching -> y ∈ matching ->
  Z.of_nat j - Z.of_nat i <= get_d_max_dist s matching.
Proof.
  intros Hij Hi Hj Hx Hy. unfold get_d_max_dist.
  pose proof (lookup_lt_Some _ _ _ Hi). pose proof (lookup_lt_Some _ _ _ Hj).
  apply (fold_left_hit _ _ _ _ i).
  - intros d i'. apply fold_left_ge. intros d' j'. apply max_dist_step_ge.
  - apply elem_of_seq. lia.
  - intros d. apply (fold_left_hit _ _ _ _ j).
    + intros d' j'. apply max_dist_step_ge.
    + apply elem_of_seq. lia.
    + intros d'. etrans; [|by eapply max_dist_step_hit]. lia.
Qed.

Lemma get_d_max_dist_ge1 (s matching : list string) (a b : string) :
  a <> b -> a ∈ s -> b ∈ s -> a ∈ matching -> b ∈ matching ->
  1 <= get_d_max_dist s matching.
Proof.
  intros Hne Ha Hb Hma Hmb.
  apply list_elem_of_lookup in Ha as [i Hi]. apply list_elem_of_lookup in Hb as [j Hj].
  assert (i <> j) by (intros ->; congruence).
  destruct (decide (i < j)%nat).
  - etrans; [|by eapply (get_d_max_dist_pair s matching i j)]. lia.
  - etrans; [|by eapply (get_d_max_dist_pair s matching j i); [lia|..]]. lia.
Qed.


Section DistanceFacts.
Context `{SI : SetIter}.

Lemma keyed_snd (freqs : gmap string Q) (l : list string) (keyed : list (Q * string)) :
  mapM (fun w => f ← dict_get freqs w; Ok (f, w)) l = Ok keyed -> keyed.*2 = l.
Proof.
  revert keyed. induction l as [|w l IH]; intros keyed; simpl; [by intros [= <-]|].
  destruct (dict_get freqs w) as [q|e]; simpl; [|discriminate].
  destruct (mapM _ l) as [k|e]; simpl; [|discriminate].
  intros [= <-]. simpl. f_equal. by apply IH.
Qed.

Lemma keyed_Ok (freqs : gmap string Q) (l : list string) :
  (forall w, w ∈ l -> is_Some (freqs !! w)) ->
  exists keyed, mapM (fun w => f ← dict_get freqs w; Ok (f, w)) l = Ok keyed.
Proof.
  intros H.
  assert (is_ok (mapM (fun w => f ← dict_get freqs w; Ok (f, w)) l)) as Hok.
  { apply mapM_is_ok, Forall_forall. intros w Hw.
    destruct (H w Hw) as [q Hq]. unfold dict_get. by rewrite Hq. }
  destruct (mapM _ l) as [keyed|]; [by exists keyed | done].
Qed.

Lemma sorted_tokens_perm (keyed : list (Q * string)) :
  (sort_by Qle_bool keyed).*2 ≡ₚ keyed.*2.
Proof. by rewrite sort_by_perm. Qed.

(** The two tokens picked by [get_d_min_freq] are distinct tokens of the
    segment, so the distance it returns is at least one. *)
Lemma get_d_min_freq_ge1 (s : list string) (freqs : gmap string Q) (d : Z) :
  get_d_min_freq s freqs = Ok d -> 1 <= d.
Proof.
  unfold get_d_min_freq. intros (keyed & Hk & H)%bind_Ok.
  pose proof (sorted_tokens_perm keyed) as Hp.
  rewrite (keyed_snd _ _ _ Hk) in Hp.
  destruct ((sort_by Qle_bool keyed).*2) as [|a [|b rest]]; [done..|].
  apply bind_Ok in H as (ia & Hia & H). apply bind_Ok in H as (ib & Hib & [= <-]).
  apply index_Ok_inv in Hia, Hib.
  assert (NoDup (a :: b :: rest)) as Hnd by (rewrite Hp; apply set_iter_NoDup).
  apply NoDup_cons in Hnd as [Hab _].
  assert (ia <> ib); [|lia].
  intros ->. apply Hab. replace a with b by congruence. by left.
Qed.

Lemma get_d_min_freq_Ok (s : list string) (freqs : gmap string Q) :
  (forall w, w ∈ s -> is_Some (freqs !! w)) ->
  (2 <= length (set_iter s))%nat ->
  exists d, get_d_min_freq s freqs = Ok d.
Proof.
  intros Hcov Hlen. unfold get_d_min_freq.
  destruct (keyed_Ok freqs (set_iter s)) as [keyed Hk].
  { intros w Hw. apply Hcov. by apply set_iter_elem. }
  rewrite Hk. simpl.
  pose proof (sorted_tokens_perm keyed) as Hp.
  rewrite (keyed_snd _ _ _ Hk) in Hp.
  pose proof (Permutation_length Hp) as Hl.
  destruct ((sort_by Qle_bool keyed).*2) as [|a [|b rest]]; simpl in Hl; [lia..|].
  destruct (index_Ok s a) as (ia & -> & _).
  { apply set_iter_elem. rewrite <- Hp. by left. }
  destruct (index_Ok s b) as (ib & -> & _).
  { apply set_iter_elem. rewrite <- Hp. right. by left. }
  simpl. eauto.
Qed.

Lemma get_d_min_freq_Raise (s : list string) (freqs : gmap string Q) (e : exn) :
  get_d_min_freq s freqs = Raise e ->
  e = ValueError \/ exists w, w ∈ s /\ freqs !! w = None /\ e = KeyError w.
Proof.
  unfold get_d_min_freq.
  destruct (mapM _ (set_iter s)) as [keyed|e'] eqn:Hk; simpl.
  - destruct ((sort_by Qle_bool keyed).*2) as [|a [|b rest]];
      [intros [= <-]; by left..|].
    destruct (index s a) as [ia|e1] eqn:Ha; simpl.
    + destruct (index s b) as [ib|e2] eqn:Hb; simpl; [discriminate|].
      intros [= <-]. left. by eapply index_Raise.
    + intros [= <-]. left. by eapply index_Raise.
  - intros [= ->]. apply mapM_Raise in Hk as (w & Hw & Hr). right.
    exists w. split; [by apply set_iter_elem|].
    unfold dict_get in Hr. destruct (freqs !! w); simpl in Hr; [discriminate|].
    by injection Hr as <-.
Qed.

End DistanceFacts.

(** ** The pairwise scorer *)

Lemma covers_elem (freqs : gmap string Q) (s : list string) (w : string) :
  covers freqs s -> w ∈ s -> exists q, freqs !! w = Some q.
Proof. unfold covers. rewrite Forall_forall. intros H Hw. by apply H. Qed.

Section ScoreFacts.
Context `{SI : SetIter}.

Lemma tesserae_score_few (s1 s2 : list string) (freqs1 freqs2 : gmap string Q) (m : method) :
  (length (inter_iter s1 s2) < 2)%nat ->
  tesserae_score s1 s2 freqs1 freqs2 m = Ok Zero.
Proof.
  intros H. unfold tesserae_score.
  by rewrite (proj2 (Nat.ltb_lt _ _) H).
Qed.

Lemma tesserae_score_many (s1 s2 : list string) (freqs1 freqs2 : gmap string Q) (m : method) :
  (2 <= length (inter_iter s1 s2))%nat ->
  tesserae_score s1 s2 freqs1 freqs2 m =
    (f_t ← inv_freq_sum freqs1 (inter_iter s1 s2);
     f_s ← inv_freq_sum freqs2 (inter_iter s1 s2);
     '(d_t, d_s) ← distances s1 s2 freqs1 freqs2 (inter_iter s1 s2) m;
     r ← py_div (f_t + f_s)%Q (inject_Z (d_t + d_s));
     math_log r).
Proof.
  intros H. unfold tesserae_score.
  by rewrite (proj2 (Nat.ltb_ge _ _) H).
Qed.

Lemma two_shared (s1 s2 : list string) :
  (2 <= length (inter_iter s1 s2))%nat ->
  exists a b, a <> b /\ a ∈ inter_iter s1 s2 /\ b ∈ inter_iter s1 s2.
Proof.
  pose proof (inter_iter_NoDup s1 s2) as Hnd.
  destruct (inter_iter s1 s2) as [|a [|b rest]]; simpl; [lia..|]. intros _.
  exists a, b. apply NoDup_cons in Hnd as [Hab _].
  split; [|split; [by left | right; by left]].
  intros ->. apply Hab. by left.
Qed.

Lemma distances_ge1 (s1 s2 : list string) (freqs1 freqs2 : gmap string Q)
    (m : method) (d_t d_s : Z) :
  (2 <= length (inter_iter s1 s2))%nat ->
  distances s1 s2 freqs1 freqs2 (inter_iter s1 s2) m = Ok (d_t, d_s) ->
  1 <= d_t /\ 1 <= d_s.
Proof.
  intros Hlen. destruct m; simpl.
  - intros (d1 & H1 & H)%bind_Ok. apply bind_Ok in H as (d2 & H2 & [= <- <-]).
    split; by eapply get_d_min_freq_ge1.
  - intros [= <- <-].
    destruct (two_shared _ _ Hlen) as (a & b & Hne & Ha & Hb).
    pose proof Ha as Ha'. pose proof Hb as Hb'.
    apply inter_iter_elem in Ha' as [? ?]. apply inter_iter_elem in Hb' as [? ?].
    split; by eapply (get_d_max_dist_ge1 _ _ a b).
Qed.

Lemma distances_Raise (s1 s2 : list string) (freqs1 freqs2 : gmap string Q)
    (matching : list string) (m : method) (e : exn) :
  distances s1 s2 freqs1 freqs2 matching m = Raise e ->
  e = ValueError \/
  (exists w, w ∈ s1 /\ freqs1 !! w = None /\ e = KeyError w) \/
  (exists w, w ∈ s2 /\ freqs2 !! w = None /\ e = KeyError w).
Proof.
  destruct m; simpl; [|discriminate].
  destruct (get_d_min_freq s1 freqs1) as [d1|e1] eqn:H1; simpl.
  - destruct (get_d_min_freq s2 freqs2) as [d2|e2] eqn:H2; simpl; [discriminate|].
    intros [= <-]. apply get_d_min_freq_Raise in H2 as [->|H2]; auto.
  - intros [= <-]. apply get_d_min_freq_Raise in H1 as [->|H1]; auto.
Qed.

Lemma distances_Ok (s1 s2 : list string) (freqs1 freqs2 : gmap string Q) (m : method) :
  (2 <= length (inter_iter s1 s2))%nat ->
  covers freqs1 s1 -> covers freqs2 s2 ->
  exists d_t d_s, distances s1 s2 freqs1 freqs2 (inter_iter s1 s2) m = Ok (d_t, d_s).
Proof.
  intros Hlen H1 H2. destruct m; simpl; [|eauto].
  destruct (get_d_min_freq_Ok s1 freqs1) as [d1 ->]; [by apply Forall_forall| |].
  { pose proof (set_iter_length_ge s1 s2). lia. }
  destruct (get_d_min_freq_Ok s2 freqs2) as [d2 ->]; [by apply Forall_forall| |].
  { pose proof (set_iter_length_ge s2 s1).
    pose proof (Permutation_length (inter_iter_swap s1 s2)). lia. }
  simpl. eauto.
Qed.

(** Once the weights and the distances are there, the score is the
    logarithm of their ratio. *)
Lemma tesserae_score_ratio (s1 s2 : list string) (freqs1 freqs2 : gmap string Q)
    (m : method) (f_t f_s : Q) (d_t d_s : Z) :
  (2 <= length (inter_iter s1 s2))%nat ->
  inv_freq_sum freqs1 (inter_iter s1 s2) = Ok f_t ->
  inv_freq_sum freqs2 (inter_iter s1 s2) = Ok f_s ->
  distances s1 s2 freqs1 freqs2 (inter_iter s1 s2) m = Ok (d_t, d_s) ->
  (0 < f_t + f_s)%Q ->
  tesserae_score s1 s2 freqs1 freqs2 m = Ok (Log ((f_t + f_s) / inject_Z (d_t + d_s)))
  /\ (0 < (f_t + f_s) / inject_Z (d_t + d_s))%Q.
Proof.
  intros Hlen Ht Hs Hd Hpos.
  destruct (distances_ge1 _ _ _ _ _ _ _ Hlen Hd) as [? ?].
  assert (0 < inject_Z (d_t + d_s))%Q as Hden.
  { rewrite <- (Zlt_Qlt 0). lia. }
  assert (0 < (f_t + f_s) / inject_Z (d_t + d_s))%Q as Hr.
  { apply Qlt_shift_div_l; [done|]. by rewrite Qmult_0_l. }
  split; [|done].
  rewrite tesserae_score_many by done. rewrite Ht, Hs, Hd. simpl.
  rewrite py_div_Ok.
  - simpl. unfold math_log.
    destruct (Qle_bool _ 0) eqn:E; [|done].
    apply Qle_bool_iff in E. by apply Qle_not_lt in E.
  - intros E. rewrite E in Hden. by apply Qlt_irrefl in Hden.
Qed.

End ScoreFacts.

(** ** Comparing outcomes of the scorer *)





(** Under well-formed maps that cover both segments, the scorer returns the
    logarithm of a positive ratio whenever two tokens are shared. *)
Lemma tesserae_score_total `{SI : SetIter} (s1 s2 : list string)
    (freqs1 freqs2 : gmap string Q) (m : method) :
  freq_map_wf freqs1 -> freq_map_wf freqs2 ->
  covers freqs1 s1 -> covers freqs2 s2 ->
  (2 <= length (inter_iter s1 s2))%nat ->
  exists f_t f_s d_t d_s,
    inv_freq_sum freqs1 (inter_iter s1 s2) = Ok f_t /\
    inv_freq_sum freqs2 (inter_iter s1 s2) = Ok f_s /\
    distances s1 s2 freqs1 freqs2 (inter_iter s1 s2) m = Ok (d_t, d_s) /\
    (0 < f_t + f_s)%Q /\ 0 < d_t + d_s /\
    tesserae_score s1 s2 freqs1 freqs2 m = Ok (Log ((f_t + f_s) / inject_Z (d_t + d_s))) /\
    (0 < (f_t + f_s) / inject_Z (d_t + d_s))%Q.
Proof.
  intros Hw1 Hw2 Hc1 Hc2 Hlen.
  assert (inter_iter s1 s2 <> []) as Hne by (destruct (inter_iter s1 s2); [simpl in Hlen; lia | done]).
  destruct (inv_freq_sum_pos freqs1 (inter_iter s1 s2)) as (f_t & Ht & Htpos); [|done|].
  { intros w [Hw _]%inter_iter_elem.
    destruct (covers_elem _ _ _ Hc1 Hw) as [q Hq]. exists q. split; [done|]. by eapply Hw1. }
  destruct (inv_freq_sum_pos freqs2 (inter_iter s1 s2)) as (f_s & Hs & Hspos); [|done|].
  { intros w [_ Hw]%inter_iter_elem.
    destruct (covers_elem _ _ _ Hc2 Hw) as [q Hq]. exists q. split; [done|]. by eapply Hw2. }
  destruct (distances_Ok s1 s2 freqs1 freqs2 m) as (d_t & d_s & Hd); [done..|].
  destruct (distances_ge1 _ _ _ _ _ _ _ Hlen Hd) as [? ?].
  assert (0 < f_t + f_s)%Q as Hpos.
  { pose proof (Qplus_lt_le_compat _ _ _ _ Htpos (Qlt_le_weak _ _ Hspos)) as H'.
    by rewrite Qplus_0_l in H'. }
  destruct (tesserae_score_ratio s1 s2 freqs1 freqs2 m f_t f_s d_t d_s) as [Hsc Hr]; [done..|].
  exists f_t, f_s, d_t, d_s. repeat split; try done. lia.
Qed.

(** Whatever the maps, a returned score is [0] or the logarithm of a
    positive number. *)
Lemma tesserae_score_wf `{SI : SetIter} (s1 s2 : list string)
    (freqs1 freqs2 : gmap string Q) (m : method) (v : score) :
  tesserae_score s1 s2 freqs1 freqs2 m = Ok v -> score_wf v.
Proof.
  unfold tesserae_score.
  destruct (length (inter_iter s1 s2) <? 2)%nat; [by intros [= <-]|].
  intros (f_t & _ & H)%bind_Ok. apply bind_Ok in H as (f_s & _ & H).
  apply bind_Ok in H as ([d_t d_s] & _ & H). apply bind_Ok in H as (r & _ & H).
  unfold math_log in H. destruct (Qle_bool r 0) eqn:E; [discriminate|].
  injection H as <-. unfold score_wf. simpl.
  apply Qnot_le_lt. intros Hle. apply Qle_bool_iff in Hle. congruence.
Qed.

Lemma tesserae_score_returns `{SI : SetIter} (s1 s2 : list string)
    (freqs1 freqs2 : gmap string Q) (m : method) :
  freq_map_wf freqs1 -> freq_map_wf freqs2 ->
  covers freqs1 s1 -> covers freqs2 s2 ->
  exists v, tesserae_score s1 s2 freqs1 freqs2 m = Ok v.
Proof.
  intros Hw1 Hw2 Hc1 Hc2.
  destruct (decide (length (inter_iter s1 s2) < 2)%nat) as [Hlt|Hge].
  - exists Zero. by apply tesserae_score_few.
  - destruct (tesserae_score_total s1 s2 freqs1 freqs2 m)
      as (f_t & f_s & d_t & d_s & _ & _ & _ & _ & _ & -> & _); [done..|lia|eauto].
Qed.

(** ** Claims about the pairwise scorer *)

(** C8: when the token sets of the two segments share fewer than two
    tokens, [tesserae_score] returns exactly [0], whatever the frequency
    maps and the method. *)
Theorem tesserae_score_zero_below_two_shared `{SI : SetIter} (s1 s2 : list string)
    (freqs1 freqs2 : gmap string Q) (m : method) :
  (size (shared s1 s2) < 2)%nat ->
  tesserae_score s1 s2 freqs1 freqs2 m = Ok Zero.
Proof.
  intros H. apply tesserae_score_few. by rewrite inter_iter_length.
Qed.

Lemma tesserae_score_zero_below_two_shared_witness :
  (size (shared ab_segment ["a"; "c"]) < 2)%nat /\
  tesserae_score (SI := dedup_iter) ab_segment ["a"; "c"] ∅ ∅ max_dist = Ok Zero.
Proof.
  assert (size (shared ab_segment ["a"; "c"]) < 2)%nat as H by (vm_compute; lia).
  split; [exact H|].
  exact (tesserae_score_zero_below_two_shared ab_segment ["a"; "c"] ∅ ∅ max_dist H).
Defined.

Lemma wf_nonzero (freqs : gmap string Q) (w : string) (q : Q) :
  freq_map_wf freqs -> freqs !! w = Some q -> ~ (q == 0)%Q.
Proof.
  intros Hwf Hq E. apply Hwf in Hq. simpl in Hq. rewrite E in Hq.
  by apply Qlt_irrefl in Hq.
Qed.

(** C5: for segments sharing at least two tokens and either method, the
    scorer raises no division error.  Both distance terms are at least one,
    so the combined distance is never zero; and when the maps cover the
    segments a score is returned. *)
Theorem tesserae_score_no_division_error `{SI : SetIter} (s1 s2 : list string)
    (freqs1 freqs2 : gmap string Q) (m : method) :
  freq_map_wf freqs1 -> freq_map_wf freqs2 ->
  (2 <= size (shared s1 s2))%nat ->
  tesserae_score s1 s2 freqs1 freqs2 m <> Raise ZeroDivisionError /\
  (forall d_t d_s,
     distances s1 s2 freqs1 freqs2 (inter_iter s1 s2) m = Ok (d_t, d_s) ->
     2 <= d_t + d_s) /\
  (covers freqs1 s1 -> covers freqs2 s2 ->
   exists v, tesserae_score s1 s2 freqs1 freqs2 m = Ok v).
Proof.
  intros Hw1 Hw2 Hsz. rewrite <- inter_iter_length in Hsz.
  split; [|split].
  - rewrite tesserae_score_many by done.
    destruct (inv_freq_sum freqs1 _) as [f_t|e] eqn:Ht; simpl.
    2:{ apply inv_freq_sum_Raise in Ht as (w & _ & [[_ ->]|(q & Hq & E & _)]); [done|].
        by destruct (wf_nonzero _ _ _ Hw1 Hq). }
    destruct (inv_freq_sum freqs2 _) as [f_s|e] eqn:Hs; simpl.
    2:{ apply inv_freq_sum_Raise in Hs as (w & _ & [[_ ->]|(q & Hq & E & _)]); [done|].
        by destruct (wf_nonzero _ _ _ Hw2 Hq). }
    destruct (distances s1 s2 freqs1 freqs2 _ m) as [[d_t d_s]|e] eqn:Hd; simpl.
    2:{ apply distances_Raise in Hd as [->|[(w & _ & _ & ->)|(w & _ & _ & ->)]]; done. }
    destruct (distances_ge1 _ _ _ _ _ _ _ Hsz Hd) as [? ?].
    rewrite py_div_Ok.
    + simpl. unfold math_log. by destruct (Qle_bool _ 0).
    + unfold Qeq. simpl. lia.
  - intros d_t d_s Hd.
    destruct (distances_ge1 _ _ _ _ _ _ _ Hsz Hd). lia.
  - intros Hc1 Hc2.
    destruct (tesserae_score_total s1 s2 freqs1 freqs2 m)
      as (f_t & f_s & d_t & d_s & _ & _ & _ & _ & _ & -> & _); eauto.
Qed.

Lemma tesserae_score_no_division_error_witness :
  tesserae_score (SI := dedup_iter) abc_segment abc_segment freqs_1_2_3 freqs_1_2_3 max_dist
  <> Raise ZeroDivisionError.
Proof.
  refine (proj1 (tesserae_score_no_division_error
            abc_segment abc_segment freqs_1_2_3 freqs_1_2_3 max_dist _ _ _)).
  - compute_done.
  - compute_done.
  - vm_compute. lia.
Defined.

(** C10: when two segments share at least two tokens and some shared token
    is missing from one of the frequency maps, [tesserae_score] raises
    instead of returning a score; with well-formed maps the exception is
    the [KeyError] of a shared token missing from one of the maps. *)
Theorem tesserae_score_missing_token_raises `{SI : SetIter} (s1 s2 : list string)
    (freqs1 freqs2 : gmap string Q) (m : method) :
  (2 <= size (shared s1 s2))%nat ->
  (exists w, w ∈ shared s1 s2 /\ (freqs1 !! w = None \/ freqs2 !! w = None)) ->
  exists e,
    tesserae_score s1 s2 freqs1 freqs2 m = Raise e /\
    (freq_map_wf freqs1 -> freq_map_wf freqs2 ->
     exists w', e = KeyError w' /\ w' ∈ shared s1 s2 /\
                (freqs1 !! w' = None \/ freqs2 !! w' = None)).
Proof.
  intros Hsz (w & Hw & Hmiss). rewrite <- inter_iter_length in Hsz.
  apply inter_iter_shared in Hw.
  rewrite tesserae_score_many by done.
  destruct (inv_freq_sum freqs1 _) as [f_t|e] eqn:Ht; simpl.
  - assert (Forall (usable freqs1) (inter_iter s1 s2)) as Hu
      by (apply inv_freq_sum_is_ok; by rewrite Ht).
    rewrite Forall_forall in Hu. destruct (Hu w Hw) as (q & Hq & _).
    destruct Hmiss as [Hn|Hn]; [congruence|].
    destruct (inv_freq_sum freqs2 _) as [f_s|e] eqn:Hs; simpl.
    + assert (Forall (usable freqs2) (inter_iter s1 s2)) as Hu2
        by (apply inv_freq_sum_is_ok; by rewrite Hs).
      rewrite Forall_forall in Hu2. destruct (Hu2 w Hw) as (q2 & Hq2 & _). congruence.
    + exists e. split; [done|]. intros _ Hw2.
      apply inv_freq_sum_Raise in Hs as (w' & Hw' & [[Hnone ->]|(q' & Hq' & E & _)]).
      * exists w'. split; [done|]. split; [by apply inter_iter_shared | by right].
      * by destruct (wf_nonzero _ _ _ Hw2 Hq').
  - exists e. split; [done|]. intros Hw1 _.
    apply inv_freq_sum_Raise in Ht as (w' & Hw' & [[Hnone ->]|(q' & Hq' & E & _)]).
    + exists w'. split; [done|]. split; [by apply inter_iter_shared | by left].
    + by destruct (wf_nonzero _ _ _ Hw1 Hq').
Qed.

Lemma tesserae_score_missing_token_raises_witness :
  exists e, tesserae_score (SI := dedup_iter) abc_segment abc_segment
              freqs_1_2_3 freqs_10_10 min_freq = Raise e.
Proof.
  destruct (tesserae_score_missing_token_raises
              abc_segment abc_segment freqs_1_2_3 freqs_10_10 min_freq) as (e & He & _).
  - vm_compute. lia.
  - exists "c". split; [compute_done | right; reflexivity].
  - by exists e.
Defined.

(** C3 (as amended): with well-formed maps covering the segments, the
    scorer returns a real score, for both methods: [0] when fewer than two
    tokens are shared, and otherwise the logarithm of the positive ratio
    [(f_t + f_s) / (d_t + d_s)] of the sums and distances it has
    computed.  Nothing keeps that ratio at or above one. *)
Theorem tesserae_score_real `{SI : SetIter} (s1 s2 : list string)
    (freqs1 freqs2 : gmap string Q) (m : method) :
  freq_map_wf freqs1 -> freq_map_wf freqs2 ->
  covers freqs1 s1 -> covers freqs2 s2 ->
  exists v,
    tesserae_score s1 s2 freqs1 freqs2 m = Ok v /\
    score_wf v /\
    ((size (shared s1 s2) < 2)%nat -> v = Zero) /\
    ((2 <= size (shared s1 s2))%nat ->
     exists f_t f_s d_t d_s,
       inv_freq_sum freqs1 (inter_iter s1 s2) = Ok f_t /\
       inv_freq_sum freqs2 (inter_iter s1 s2) = Ok f_s /\
       distances s1 s2 freqs1 freqs2 (inter_iter s1 s2) m = Ok (d_t, d_s) /\
       (0 < f_t + f_s)%Q /\ 0 < d_t + d_s /\
       v = Log ((f_t + f_s) / inject_Z (d_t + d_s))).
Proof.
  intros Hw1 Hw2 Hc1 Hc2.
  destruct (decide (size (shared s1 s2) < 2)%nat) as [Hlt|Hge].
  - exists Zero. split; [apply tesserae_score_few; by rewrite inter_iter_length|].
    split; [done|]. split; [done | lia].
  - assert (2 <= length (inter_iter s1 s2))%nat as Hlen by (rewrite inter_iter_length; lia).
    destruct (tesserae_score_total s1 s2 freqs1 freqs2 m)
      as (f_t & f_s & d_t & d_s & Ht & Hs & Hd & Hpos & Hden & Hsc & Hr); [done..|].
    eexists. split; [exact Hsc|]. split; [exact Hr|]. split; [lia|]. intros _.
    exists f_t, f_s, d_t, d_s. by repeat (split; [done|]).
Qed.

Lemma tesserae_score_real_witness :
  exists v, tesserae_score (SI := dedup_iter) ab_segment ab_segment
              freqs_10_10 freqs_10_10 min_freq = Ok v.
Proof.
  destruct (tesserae_score_real (SI := dedup_iter)
              ab_segment ab_segment freqs_10_10 freqs_10_10 min_freq)
    as (v & Hv & _).
  - compute_done.
  - compute_done.
  - compute_done.
  - compute_done.
  - by exists v.
Defined.

(** C3 (as stated) fails: two segments sharing both their tokens, with
    every frequency equal to ten, score [ln (1/5)], a negative number. *)
Lemma tesserae_score_negative_example :
  freq_map_wf freqs_10_10 /\ covers freqs_10_10 ab_segment /\
  exists v, tesserae_score (SI := dedup_iter) ab_segment ab_segment
              freqs_10_10 freqs_10_10 min_freq = Ok v /\
            (score_R v < 0)%R.
Proof.
  split; [compute_done|]. split; [compute_done|].
  exists (Log (4000 # 20000)). split; [by vm_compute|].
  simpl. rewrite <- ln_1. apply ln_increasing.
  - unfold Q2R. simpl. lra.
  - unfold Q2R. simpl. lra.
Qed.

(** ** [get_d_min_freq] on the example segment *)

Lemma set_iter_three `{SI : SetIter} (s : list string) (a b c : string) :
  a <> b -> a <> c -> b <> c ->
  (forall w, w ∈ s <-> w = a \/ w = b \/ w = c) ->
  set_iter s ∈ [[a; b; c]; [a; c; b]; [b; a; c]; [b; c; a]; [c; a; b]; [c; b; a]].
Proof.
  intros Hab Hac Hbc Hs.
  pose proof (set_iter_NoDup s) as Hnd.
  assert (set_iter s ≡ₚ [a; b; c]) as Hp.
  { apply NoDup_Permutation; [done | |].
    - rewrite !NoDup_cons, !elem_of_cons, !elem_of_nil.
      repeat split; [tauto..|apply NoDup_nil_2].
    - intros w. rewrite set_iter_elem, Hs, !elem_of_cons, elem_of_nil. tauto. }
  pose proof (Permutation_length Hp) as Hl.
  destruct (set_iter s) as [|x [|y [|z [|? ?]]]]; simpl in Hl; try lia.
  assert (x ∈ [a; b; c]) as Hx by (rewrite <- Hp, !elem_of_cons; auto).
  assert (y ∈ [a; b; c]) as Hy by (rewrite <- Hp, !elem_of_cons; auto).
  assert (z ∈ [a; b; c]) as Hz by (rewrite <- Hp, !elem_of_cons; auto).
  apply NoDup_cons in Hnd as [Hxy Hnd]. apply NoDup_cons in Hnd as [Hyz _].
  rewrite !elem_of_cons, !elem_of_nil in *.
  destruct Hx as [->|[->|[->|[]]]], Hy as [->|[->|[->|[]]]], Hz as [->|[->|[->|[]]]];
    first [ by (exfalso; apply Hxy; auto)
          | by (exfalso; apply Hyz; auto)
          | auto 10 ].
Qed.

(** C2 (as amended): on [['a','b','a','c']] with frequencies
    [{a:1, b:5, c:10}], the tokens sorted by ascending frequency are
    [a, b, c]; [get_d_min_freq] takes [a] and [b], whose first positions
    are 0 and 1, and returns the distance 1. *)
Theorem get_d_min_freq_example `{SI : SetIter} :
  (exists keyed,
     mapM (fun w => f ← dict_get freqs_1_5_10 w; Ok (f, w)) (set_iter abac_segment)
       = Ok keyed /\
     (sort_by Qle_bool keyed).*2 = ["a"; "b"; "c"]) /\
  index abac_segment "a" = Ok 0%nat /\
  index abac_segment "b" = Ok 1%nat /\
  get_d_min_freq abac_segment freqs_1_5_10 = Ok 1.
Proof.
  assert (set_iter abac_segment ∈
            [["a"; "b"; "c"]; ["a"; "c"; "b"]; ["b"; "a"; "c"];
             ["b"; "c"; "a"]; ["c"; "a"; "b"]; ["c"; "b"; "a"]]) as H.
  { apply set_iter_three; [done..|].
    intros w. unfold abac_segment. rewrite !elem_of_cons, elem_of_nil. tauto. }
  unfold get_d_min_freq.
  rewrite !elem_of_cons in H.
  destruct H as [->|[->|[->|[->|[->|[->|H]]]]]];
    [..|by apply elem_of_nil in H];
    (split; [eexists; split; by vm_compute | by vm_compute]).
Qed.

(** C2 (as stated) fails: the distance returned is not 2. *)
Lemma get_d_min_freq_example_not_two :
  get_d_min_freq (SI := dedup_iter) abac_segment freqs_1_5_10 <> Ok 2.
Proof. vm_compute. discriminate. Qed.


(** ** The candidate ranker *)

Lemma StronglySorted_lookup {A} (R : relation A) (l : list A) (p q : nat) (x y : A) :
  StronglySorted R l -> (p < q)%nat -> l !! p = Some x -> l !! q = Some y -> R x y.
Proof.
  intros Hs. revert p q. induction Hs as [|z l Hs IH Hz]; intros p q Hpq Hp Hq; [done|].
  destruct q as [|q]; [lia|]. simpl in Hq. destruct p as [|p]; simpl in Hp.
  - injection Hp as <-. rewrite Forall_forall in Hz.
    apply Hz. by eapply list_elem_of_lookup_2.
  - apply (IH p q); [lia | done..].
Qed.

Lemma py_slice_to_sublist {A} (n : Z) (l : list A) : py_slice_to n l `sublist_of` l.
Proof. unfold py_slice_to. destruct (n <? 0); apply sublist_take. Qed.

Lemma py_slice_to_length {A} (n : Z) (l : list A) :
  0 <= n -> Z.of_nat (length (py_slice_to n l)) <= n.
Proof.
  intros Hn. unfold py_slice_to.
  rewrite (proj2 (Z.ltb_ge n 0) Hn), length_take. lia.
Qed.

Lemma py_slice_to_mono {A} (n1 n2 : Z) (l : list A) (x : A) :
  0 <= n1 <= n2 -> x ∈ py_slice_to n1 l -> x ∈ py_slice_to n2 l.
Proof.
  intros [H1 H2]. unfold py_slice_to.
  rewrite (proj2 (Z.ltb_ge n1 0)), (proj2 (Z.ltb_ge n2 0)) by lia.
  rewrite !elem_of_take. intros (i & Hi & Hlt). exists i. split; [done | lia].
Qed.

Section RankerFacts.
Context `{SI : SetIter} `{AS : Argsort}.

Lemma top_idxs_sublist (tscores : list score) (at_ : Z) :
  top_idxs tscores at_ `sublist_of` reverse (argsort tscores).
Proof.
  unfold top_idxs. etrans; [apply sublist_filter | apply py_slice_to_sublist].
Qed.

Lemma top_idxs_length (tscores : list score) (at_ : Z) :
  0 <= at_ -> Z.of_nat (length (top_idxs tscores at_)) <= at_.
Proof.
  intros H. unfold top_idxs.
  pose proof (length_filter (fun i => score_pos (score_at tscores i))
                (py_slice_to at_ (reverse (argsort tscores)))).
  pose proof (py_slice_to_length at_ (reverse (argsort tscores)) H). lia.
Qed.

Lemma top_idxs_pos (tscores : list score) (at_ : Z) :
  Forall (fun i => score_pos (score_at tscores i)) (top_idxs tscores at_).
Proof.
  apply Forall_forall. intros i Hi. unfold top_idxs in Hi.
  by apply list_elem_of_filter in Hi as [? _].
Qed.

Lemma top_idxs_descending (tscores : list score) (at_ : Z) :
  StronglySorted (fun i j => score_leb (score_at tscores j) (score_at tscores i))
                 (top_idxs tscores at_).
Proof.
  eapply StronglySorted_sublist; [apply top_idxs_sublist|].
  apply (StronglySorted_reverse _ _ (argsort_ascending tscores)).
Qed.

Lemma top_idxs_mono (tscores : list score) (at1 at2 : Z) (i : nat) :
  0 <= at1 <= at2 -> i ∈ top_idxs tscores at1 -> i ∈ top_idxs tscores at2.
Proof.
  intros H. unfold top_idxs. rewrite !list_elem_of_filter.
  intros [? ?]. split; [done|]. by eapply py_slice_to_mono.
Qed.

Lemma baseline_row_Ok (trg : list (list string)) (src_freqs trg_freqs : gmap string Q)
    (at_ : Z) (idx : nat) (s1 : list string) (hit : Z) (row : list (nat * score * nat)) :
  baseline_row trg src_freqs trg_freqs at_ (idx, s1) = Ok (hit, row) ->
  exists tscores,
    candidate_scores s1 trg src_freqs trg_freqs = Ok tscores /\
    hit = (if bool_decide (idx ∈ top_idxs tscores at_) then 1 else 0) /\
    row = scored_candidates s1 trg tscores (top_idxs tscores at_).
Proof.
  unfold baseline_row. intros (tscores & Ht & [= <- <-])%bind_Ok. by exists tscores.
Qed.

Lemma tesserae_baseline_Ok (src trg : list (list string))
    (src_freqs trg_freqs : gmap string Q) (at_ : Z) (m : method)
    (recall : Q) (output : list (list (nat * score * nat))) :
  tesserae_baseline src trg src_freqs trg_freqs at_ m = Ok (recall, output) ->
  exists rows,
    mapM (baseline_row trg src_freqs trg_freqs at_) (zip (seq 0 (length src)) src) = Ok rows /\
    output = rows.*2 /\ rows <> [] /\
    recall = (inject_Z (sum_Z rows.*1) / inject_Z (Z.of_nat (length rows)))%Q.
Proof.
  unfold tesserae_baseline. intros (rows & Hr & H)%bind_Ok.
  apply bind_Ok in H as (r & Hd & [= <- <-]).
  exists rows. split; [done|]. split; [done|].
  unfold py_div in Hd. destruct rows; [discriminate|].
  destruct (Qeq_bool _ 0); [discriminate|]. by injection Hd as <-.
Qed.

Lemma output_rows (trg : list (list string)) (src_freqs trg_freqs : gmap string Q)
    (at_ : Z) (entries : list (nat * list string))
    (rows : list (Z * list (nat * score * nat))) (row : list (nat * score * nat)) :
  mapM (baseline_row trg src_freqs trg_freqs at_) entries = Ok rows ->
  row ∈ rows.*2 ->
  exists s1 tscores, row = scored_candidates s1 trg tscores (top_idxs tscores at_).
Proof.
  intros Hm Hrow. apply list_elem_of_fmap in Hrow as ([hit row'] & -> & Hin).
  apply list_elem_of_lookup in Hin as [k Hk].
  pose proof (mapM_Ok_length _ _ _ Hm) as Hlen.
  destruct (lookup_lt_is_Some_2 entries k) as [[idx s1] He].
  { rewrite <- Hlen. by eapply lookup_lt_Some. }
  destruct (mapM_Ok_lookup _ _ _ _ _ Hm He) as (y & Hy & Hrow).
  rewrite Hk in Hy. injection Hy as <-.
  apply baseline_row_Ok in Hrow as (tscores & _ & _ & ->). by exists s1, tscores.
Qed.

(** With well-formed maps covering every segment and a non-empty gold
    set, the evaluation loop returns. *)
Lemma tesserae_baseline_returns (src trg : list (list string))
    (src_freqs trg_freqs : gmap string Q) (at_ : Z) (m : method) :
  freq_map_wf src_freqs -> freq_map_wf trg_freqs ->
  Forall (covers src_freqs) src -> Forall (covers trg_freqs) trg ->
  src <> [] ->
  exists recall output,
    tesserae_baseline src trg src_freqs trg_freqs at_ m = Ok (recall, output).
Proof.
  intros Hw1 Hw2 Hc1 Hc2 Hne.
  assert (is_ok (mapM (baseline_row trg src_freqs trg_freqs at_)
                      (zip (seq 0 (length src)) src))) as Hok.
  { apply mapM_is_ok, Forall_forall. intros [idx s1] Hin.
    apply elem_of_zip_r in Hin. rewrite Forall_forall in Hc1.
    unfold baseline_row.
    assert (is_ok (candidate_scores s1 trg src_freqs trg_freqs)) as Hcs.
    { apply mapM_is_ok, Forall_forall. intros s2 Hs2. rewrite Forall_forall in Hc2.
      destruct (tesserae_score_returns s1 s2 src_freqs trg_freqs min_freq)
        as [v ->]; auto. done. }
    by destruct (candidate_scores s1 trg src_freqs trg_freqs). }
  unfold tesserae_baseline.
  destruct (mapM _ (zip _ src)) as [rows|] eqn:Hm; [|done]. simpl.
  apply mapM_Ok_length in Hm. rewrite length_zip, length_seq, Nat.min_id in Hm.
  rewrite py_div_Ok; [simpl; eauto|].
  unfold Qeq. simpl. destruct src; [done|]. simpl in Hm. lia.
Qed.

End RankerFacts.

Lemma score_pos_wf (v : score) : score_pos v -> score_wf v.
Proof.
  rewrite score_pos_lt. unfold score_wf. intros H.
  eapply Qlt_trans; [|exact H]. reflexivity.
Qed.

Lemma score_pos_R_1 (v : score) : score_pos v -> (0 < score_R v)%R.
Proof. intros H. by apply score_pos_R; [apply score_pos_wf|]. Qed.

(** C9: every list of scored candidates returned by the ranker has at most
    [at] entries (for a cutoff [at >= 0]), holds only candidates with a
    score above zero, and is ordered by descending score. *)
Theorem ranker_rows_bounded_positive_descending `{SI : SetIter} `{AS : Argsort}
    (src trg : list (list string)) (src_freqs trg_freqs : gmap string Q)
    (at_ : Z) (m : method) (recall : Q) (output : list (list (nat * score * nat))) :
  0 <= at_ ->
  tesserae_baseline src trg src_freqs trg_freqs at_ m = Ok (recall, output) ->
  Forall (fun row =>
            Z.of_nat (length row) <= at_ /\
            Forall (fun c => (0 < score_R c.1.2)%R) row /\
            StronglySorted (fun c1 c2 => (score_R c2.1.2 <= score_R c1.1.2)%R) row)
         output.
Proof.
  intros Hat (rows & Hm & -> & _)%tesserae_baseline_Ok.
  apply Forall_forall. intros row Hrow.
  destruct (output_rows _ _ _ _ _ _ _ Hm Hrow) as (s1 & tscores & ->).
  unfold scored_candidates. split; [|split].
  - rewrite length_fmap. by apply top_idxs_length.
  - apply Forall_fmap. simpl.
    eapply Forall_impl; [apply top_idxs_pos|]. intros i. apply score_pos_R_1.
  - apply StronglySorted_fmap_iff. simpl.
    eapply StronglySorted_weaken; [|apply top_idxs_descending].
    pose proof (top_idxs_pos tscores at_) as Hpos. rewrite Forall_forall in Hpos.
    intros i j Hi Hj Hle. simpl in Hle.
    apply score_leb_R; [apply score_pos_wf, Hpos, Hj | apply score_pos_wf, Hpos, Hi | done].
Qed.

Lemma ranker_rows_bounded_positive_descending_witness :
  Forall (fun row =>
            Z.of_nat (length row) <= 1 /\
            Forall (fun c => (0 < score_R c.1.2)%R) row /\
            StronglySorted (fun c1 c2 => (score_R c2.1.2 <= score_R c1.1.2)%R) row)
         [[(1%nat, Log (4 # 2), 2%nat)]].
Proof.
  apply (ranker_rows_bounded_positive_descending (SI := dedup_iter) (AS := stable_argsort)
           [ab_segment] [ab_segment; ab_segment] freqs_1_1 freqs_1_1 1 min_freq 0%Q).
  - lia.
  - vm_compute. reflexivity.
Defined.

(** ** Recall as a function of the cutoff *)

Lemma fold_left_Zadd (xs : list Z) (a : Z) :
  fold_left Z.add xs a = a + fold_left Z.add xs 0.
Proof.
  revert a. induction xs as [|x xs IH]; intros a; simpl; [lia|].
  rewrite (IH (a + x)), (IH (0 + x)). lia.
Qed.

Lemma sum_Z_cons (x : Z) (xs : list Z) : sum_Z (x :: xs) = x + sum_Z xs.
Proof. unfold sum_Z. simpl. apply fold_left_Zadd. Qed.

Section RecallFacts.
Context `{SI : SetIter} `{AS : Argsort}.

Lemma baseline_row_mono (trg : list (list string)) (src_freqs trg_freqs : gmap string Q)
    (at1 at2 : Z) (entry : nat * list string) (hit1 : Z) (row1 : list (nat * score * nat)) :
  0 <= at1 <= at2 ->
  baseline_row trg src_freqs trg_freqs at1 entry = Ok (hit1, row1) ->
  exists hit2 row2,
    baseline_row trg src_freqs trg_freqs at2 entry = Ok (hit2, row2) /\ hit1 <= hit2.
Proof.
  intros Hat. destruct entry as [idx s1].
  intros (tscores & Ht & -> & _)%baseline_row_Ok.
  unfold baseline_row. rewrite Ht. simpl. do 2 eexists. split; [done|].
  destruct (bool_decide (idx ∈ top_idxs tscores at1)) eqn:E1;
    destruct (bool_decide (idx ∈ top_idxs tscores at2)) eqn:E2; try lia.
  apply bool_decide_eq_true in E1. apply bool_decide_eq_false in E2.
  destruct E2. by eapply top_idxs_mono.
Qed.

Lemma rows_mono (trg : list (list string)) (src_freqs trg_freqs : gmap string Q)
    (at1 at2 : Z) (entries : list (nat * list string))
    (rows1 : list (Z * list (nat * score * nat))) :
  0 <= at1 <= at2 ->
  mapM (baseline_row trg src_freqs trg_freqs at1) entries = Ok rows1 ->
  exists rows2,
    mapM (baseline_row trg src_freqs trg_freqs at2) entries = Ok rows2 /\
    length rows2 = length rows1 /\
    sum_Z rows1.*1 <= sum_Z rows2.*1.
Proof.
  intros Hat. revert rows1. induction entries as [|entry entries IH]; intros rows1; simpl.
  - intros [= <-]. by exists [].
  - intros ([hit1 row1] & Hrow & H)%bind_Ok.
    apply bind_Ok in H as (rest1 & Hrest & [= <-]).
    destruct (baseline_row_mono _ _ _ _ _ _ _ _ Hat Hrow) as (hit2 & row2 & -> & Hle).
    destruct (IH _ Hrest) as (rest2 & -> & Hlen & Hsum).
    simpl. eexists. split; [done|]. simpl. split; [by rewrite Hlen|].
    rewrite !sum_Z_cons. apply Z.add_le_mono; [exact Hle | exact Hsum].
Qed.

End RecallFacts.

(** C7: for a fixed method, gold set and candidate pool, the recall
    returned by the evaluation loop is non-decreasing in the cutoff: when
    the loop returns at [at1] and [0 <= at1 <= at2], it returns at [at2]
    too, with a recall at least as large. *)
Theorem recall_monotone_in_cutoff `{SI : SetIter} `{AS : Argsort}
    (src trg : list (list string)) (src_freqs trg_freqs : gmap string Q)
    (m : method) (at1 at2 : Z) (recall1 : Q) (output1 : list (list (nat * score * nat))) :
  0 <= at1 -> at1 <= at2 ->
  tesserae_baseline src trg src_freqs trg_freqs at1 m = Ok (recall1, output1) ->
  exists recall2 output2,
    tesserae_baseline src trg src_freqs trg_freqs at2 m = Ok (recall2, output2) /\
    (recall1 <= recall2)%Q.
Proof.
  intros H1 H2 (rows1 & Hm & _ & Hne & ->)%tesserae_baseline_Ok.
  destruct (rows_mono _ _ _ at1 at2 _ _ (conj H1 H2) Hm) as (rows2 & Hm2 & Hlen & Hsum).
  assert (0 < inject_Z (Z.of_nat (length rows1)))%Q as Hpos.
  { rewrite <- (Zlt_Qlt 0). destruct rows1; [done | simpl; lia]. }
  unfold tesserae_baseline. rewrite Hm2. simpl. rewrite Hlen.
  rewrite py_div_Ok.
  - simpl. do 2 eexists. split; [done|].
    unfold Qdiv. apply Qmult_le_compat_r; [by rewrite <- Zle_Qle|].
    apply Qinv_le_0_compat. by apply Qlt_le_weak.
  - intros E. rewrite E in Hpos. by apply Qlt_irrefl in Hpos.
Qed.

Lemma recall_monotone_in_cutoff_witness :
  exists recall2 output2,
    tesserae_baseline (SI := dedup_iter) (AS := stable_argsort)
      [ab_segment] [ab_segment; ab_segment] freqs_1_1 freqs_1_1 2 min_freq
      = Ok (recall2, output2) /\
    (0 <= recall2)%Q.
Proof.
  destruct (recall_monotone_in_cutoff (SI := dedup_iter) (AS := stable_argsort)
              [ab_segment] [ab_segment; ab_segment] freqs_1_1 freqs_1_1 min_freq 1 2
              0%Q [[(1%nat, Log (4 # 2), 2%nat)]])
    as (recall2 & output2 & H & Hle).
  - lia.
  - lia.
  - vm_compute. reflexivity.
  - by exists recall2, output2.
Defined.

(** ** Ties in the ranking *)

Lemma sublist_precedes (l1 l2 : list nat) (p q i j : nat) :
  l1 `sublist_of` l2 -> (p < q)%nat -> l1 !! p = Some i -> l1 !! q = Some j ->
  precedes l2 i j.
Proof.
  intros Hsub. revert p q. induction Hsub as [|x l1 l2 Hsub IH|x l1 l2 Hsub IH];
    intros p q Hpq Hp Hq; [done| |].
  - destruct q as [|q]; [lia|]. simpl in Hq. destruct p as [|p]; simpl in Hp.
    + injection Hp as ->.
      assert (j ∈ l2) as Hj.
      { eapply sublist_subseteq; [exact Hsub|]. by eapply list_elem_of_lookup_2. }
      apply list_elem_of_lookup in Hj as [b Hb].
      exists 0%nat, (S b). split; [lia|]. by split.
    + destruct (IH p q ltac:(lia) Hp Hq) as (a & b & Hab & Ha & Hb).
      exists (S a), (S b). split; [lia|]. by split.
  - destruct (IH p q Hpq Hp Hq) as (a & b & Hab & Ha & Hb).
    exists (S a), (S b). split; [lia|]. by split.
Qed.

Lemma reverse_precedes (l : list nat) (i j : nat) :
  precedes (reverse l) i j -> precedes l j i.
Proof.
  intros (a & b & Hab & Ha & Hb).
  pose proof (lookup_lt_Some _ _ _ Ha) as Hla.
  pose proof (lookup_lt_Some _ _ _ Hb) as Hlb.
  rewrite length_reverse in Hla, Hlb.
  rewrite reverse_lookup in Ha, Hb by done.
  exists (length l - S b)%nat, (length l - S a)%nat. split; [lia|]. by split.
Qed.

(** C4 (as amended): the ranker reverses an ascending argsort, so in every
    row candidates with equal scores are listed in the reverse of the
    order [np.argsort] gave them, whatever that order is: of two tied
    candidates the one listed first is the one [np.argsort] put last. *)
Theorem ranker_ties_reverse_argsort `{SI : SetIter} `{AS : Argsort}
    (src trg : list (list string)) (src_freqs trg_freqs : gmap string Q)
    (at_ : Z) (m : method) (recall : Q) (output : list (list (nat * score * nat))) :
  tesserae_baseline src trg src_freqs trg_freqs at_ m = Ok (recall, output) ->
  forall k s1 row,
    src !! k = Some s1 -> output !! k = Some row ->
    exists tscores,
      candidate_scores s1 trg src_freqs trg_freqs = Ok tscores /\
      ties_in_reverse_of (argsort tscores) row.
Proof.
  intros (rows & Hm & -> & _)%tesserae_baseline_Ok k s1 row Hk Hrow.
  assert (zip (seq 0 (length src)) src !! k = Some (k, s1)) as He.
  { apply lookup_zip_Some. split; [|done].
    apply lookup_seq. split; [done|]. by eapply lookup_lt_Some. }
  destruct (mapM_Ok_lookup _ _ _ _ _ Hm He) as ([hit row'] & Hr & Hb).
  rewrite list_lookup_fmap, Hr in Hrow. injection Hrow as <-.
  apply baseline_row_Ok in Hb as (tscores & Ht & _ & ->).
  exists tscores. split; [done|].
  intros p q c1 c2 Hpq Hp Hq _.
  unfold scored_candidates in Hp, Hq.
  apply list_lookup_fmap_Some_1 in Hp as (i & -> & Hi).
  apply list_lookup_fmap_Some_1 in Hq as (j & -> & Hj).
  simpl. apply reverse_precedes.
  eapply sublist_precedes; [apply top_idxs_sublist | done..].
Qed.

Lemma ranker_ties_reverse_argsort_witness :
  exists tscores,
    candidate_scores (SI := dedup_iter) ab_segment [ab_segment; ab_segment]
      freqs_1_1 freqs_1_1 = Ok tscores /\
    ties_in_reverse_of (argsort (Argsort := stable_argsort) tscores)
      [(1%nat, Log (4 # 2), 2%nat); (0%nat, Log (4 # 2), 2%nat)].
Proof.
  refine (ranker_ties_reverse_argsort (SI := dedup_iter) (AS := stable_argsort)
            [ab_segment] [ab_segment; ab_segment] freqs_1_1 freqs_1_1 2 min_freq 1%Q
            [[(1%nat, Log (4 # 2), 2%nat); (0%nat, Log (4 # 2), 2%nat)]]
            _ 0%nat ab_segment _ _ _).
  - vm_compute. reflexivity.
  - reflexivity.
  - reflexivity.
Defined.

(** The order of tied candidates follows the argsort: on two candidates
    identical to the query, the stable argsort lists candidate 1 first
    and the argsort that leaves ties in descending order lists candidate
    0 first. *)
Lemma ranker_tie_order_follows_argsort :
  tesserae_baseline (SI := dedup_iter) (AS := stable_argsort)
    [ab_segment] [ab_segment; ab_segment] freqs_1_1 freqs_1_1 2 min_freq
    = Ok (1%Q, [[(1%nat, Log (4 # 2), 2%nat); (0%nat, Log (4 # 2), 2%nat)]]) /\
  tesserae_baseline (SI := dedup_iter) (AS := ties_descending_argsort)
    [ab_segment] [ab_segment; ab_segment] freqs_1_1 freqs_1_1 2 min_freq
    = Ok (1%Q, [[(0%nat, Log (4 # 2), 2%nat); (1%nat, Log (4 # 2), 2%nat)]]).
Proof. split; by vm_compute. Qed.

(** C4 (as stated) fails: two candidates identical to the query tie, and
    with an argsort that is stable on them the ranker lists candidate 1
    before candidate 0. *)
Lemma ranker_ties_not_in_candidate_order :
  exists recall row,
    tesserae_baseline (SI := dedup_iter) (AS := stable_argsort)
      [ab_segment] [ab_segment; ab_segment] freqs_1_1 freqs_1_1 2 min_freq
      = Ok (recall, [row]) /\
    ~ ties_in_candidate_order row.
Proof.
  exists 1%Q, [(1%nat, Log (4 # 2), 2%nat); (0%nat, Log (4 # 2), 2%nat)].
  split; [by vm_compute|].
  intros H.
  specialize (H 0%nat 1%nat _ _ (Nat.lt_0_1) eq_refl eq_refl eq_refl). simpl in H. lia.
Qed.

(** C1: the evaluation loop does not hand its [method] to the scorer.  The
    result of a run with [max_dist] is the result of the run with
    [min_freq]; on the example the [max_dist] score is [ln (11/12) < 0]
    (the candidate would be dropped) but the loop reports the [min_freq]
    score [ln (11/6)] and a recall of one. *)
Theorem tesserae_baseline_ignores_method :
  (forall (SI : SetIter) (AS : Argsort) (src trg : list (list string))
          (src_freqs trg_freqs : gmap string Q) (at_ : Z),
     tesserae_baseline src trg src_freqs trg_freqs at_ max_dist =
     tesserae_baseline src trg src_freqs trg_freqs at_ min_freq) /\
  tesserae_score (SI := dedup_iter) abc_segment abc_segment freqs_1_2_3 freqs_1_2_3 max_dist
    = Ok (Log (132 # 144)) /\
  tesserae_score (SI := dedup_iter) abc_segment abc_segment freqs_1_2_3 freqs_1_2_3 min_freq
    = Ok (Log (132 # 72)) /\
  tesserae_baseline (SI := dedup_iter) (AS := stable_argsort)
    [abc_segment] [abc_segment] freqs_1_2_3 freqs_1_2_3 1 max_dist
    = Ok (1%Q, [[(0%nat, Log (132 # 72), 3%nat)]]).
Proof.
  split; [reflexivity|]. repeat split; by vm_compute.
Qed.

(** * Further properties of the code *)

(** ** [get_d_max_dist]: the span of the matching positions *)

Lemma fold_left_le {B} (f : Z -> B -> Z) (l : list B) (d bound : Z) :
  d <= bound -> (forall d b, b ∈ l -> d <= bound -> f d b <= bound) ->
  fold_left f l d <= bound.
Proof.
  revert d. induction l as [|b l IH]; intros d Hd Hf; simpl; [done|].
  apply IH.
  - apply Hf; [by left | done].
  - intros d' b' Hb'. apply Hf. by right.
Qed.

Lemma fold_left_mono {B} (f g : Z -> B -> Z) (l : list B) (d d' : Z) :
  d <= d' -> (forall d d' b, d <= d' -> f d b <= g d' b) ->
  fold_left f l d <= fold_left g l d'.
Proof.
  revert d d'. induction l as [|b l IH]; intros d d' Hd Hfg; simpl; [done|].
  apply IH; [by apply Hfg | done].
Qed.

Lemma matching_positions_elem (s matching : list string) (i : nat) :
  i ∈ matching_positions s matching <-> exists x, s !! i = Some x /\ x ∈ matching.
Proof.
  unfold matching_positions, matches_at.
  rewrite list_elem_of_filter, elem_of_seq. split.
  - intros [H _]. destruct (s !! i) as [x|]; [|done].
    exists x. split; [done|]. unfold member in H. by apply bool_decide_unpack in H.
  - intros (x & Hx & Hm). rewrite Hx. split.
    + unfold member. by apply bool_decide_pack.
    + apply lookup_lt_Some in Hx. lia.
Qed.

Lemma matching_positions_sorted (s matching : list string) :
  StronglySorted lt (matching_positions s matching).
Proof.
  eapply StronglySorted_sublist; [apply sublist_filter | apply seq_StronglySorted].
Qed.

Lemma span_bounds (ps : list nat) (i j : nat) :
  StronglySorted lt ps -> i ∈ ps -> j ∈ ps -> (i <= j)%nat ->
  Z.of_nat j - Z.of_nat i <= span ps.
Proof.
  intros Hs Hi Hj Hij. unfold span.
  destruct ps as [|p ps]; [by apply elem_of_nil in Hi|].
  destruct (last (p :: ps)) as [q|] eqn:Hq; [|by rewrite last_None in Hq].
  apply StronglySorted_cons in Hs as [Hp Hs']. rewrite Forall_forall in Hp.
  assert (p <= i)%nat.
  { apply elem_of_cons in Hi as [->|Hi]; [lia|]. apply Hp in Hi. lia. }
  assert (j <= q)%nat; [|lia].
  apply last_Some in Hq as [l' Hl'].
  assert (StronglySorted lt (l' ++ [q])) as Hs''.
  { rewrite <- Hl'. apply StronglySorted_cons. split; [by apply Forall_forall | done]. }
  rewrite Hl' in Hj. apply elem_of_app in Hj as [Hj|Hj].
  - pose proof (StronglySorted_app_1_elem_of _ _ _ j q Hs'' Hj). 
    assert (j < q)%nat; [|lia]. apply H0. by left.
  - apply list_elem_of_singleton in Hj. lia.
Qed.

Lemma span_nonneg (ps : list nat) : StronglySorted lt ps -> 0 <= span ps.
Proof.
  intros Hs. destruct ps as [|p ps]; [done|].
  pose proof (span_bounds (p :: ps) p p Hs) as H.
  etrans; [|apply H; [by left | by left | lia]]. lia.
Qed.

Lemma span_attained (ps : list nat) :
  ps <> [] -> exists p q, p ∈ ps /\ q ∈ ps /\ span ps = Z.of_nat q - Z.of_nat p.
Proof.
  intros Hne. unfold span. destruct ps as [|p ps]; [done|].
  destruct (last (p :: ps)) as [q|] eqn:Hq; [|by rewrite last_None in Hq].
  exists p, q. split; [by left|]. split; [|done].
  apply last_Some in Hq as [l' ->]. apply elem_of_app. right. by left.
Qed.

(** X1: [get_d_max_dist] is the distance between the first and the last
    position of the segment that hold a matching token, and [0] when no
    position does. *)
Theorem get_d_max_dist_span (s matching : list string) :
  get_d_max_dist s matching = span (matching_positions s matching).
Proof.
  pose proof (matching_positions_sorted s matching) as Hs.
  apply Z.le_antisymm.
  - unfold get_d_max_dist. apply fold_left_le; [by apply span_nonneg|].
    intros d i Hi Hd. apply fold_left_le; [done|].
    intros d' j Hj Hd'. unfold max_dist_step.
    destruct (s !! i) as [x|] eqn:Hx; [|done].
    destruct (s !! j) as [y|] eqn:Hy; [|done].
    destruct (member x matching) eqn:Mx; [|done].
    destruct (member y matching) eqn:My; [|done]. simpl.
    apply elem_of_seq in Hj.
    assert (Z.of_nat j - Z.of_nat i <= span (matching_positions s matching)).
    { apply span_bounds; [done | | | lia].
      - apply matching_positions_elem. exists x. split; [done|].
        unfold member in Mx. by apply bool_decide_eq_true in Mx.
      - apply matching_positions_elem. exists y. split; [done|].
        unfold member in My. by apply bool_decide_eq_true in My. }
    lia.
  - destruct (matching_positions s matching) as [|p0 ps0] eqn:E.
    { apply get_d_max_dist_nonneg. }
    destruct (span_attained (p0 :: ps0)) as (p & q & Hp & Hq & ->); [done|].
    rewrite <- E in Hp, Hq.
    destruct (decide (p < q)%nat) as [Hlt|Hge].
    + apply matching_positions_elem in Hp as (x & Hx & Mx).
      apply matching_positions_elem in Hq as (y & Hy & My).
      by eapply get_d_max_dist_pair.
    + etrans; [|apply get_d_max_dist_nonneg]. lia.
Qed.

(** X2: [get_d_max_dist] is never negative and is at most [len(s) - 1]
    on a non-empty segment (on the empty segment it is [0]): it lies
    between [0] and [max(0, len(s) - 1)].  It can only grow when tokens
    are added to the matching set. *)
Theorem get_d_max_dist_bounds_mono (s matching matching' : list string) :
  (forall w, w ∈ matching -> w ∈ matching') ->
  0 <= get_d_max_dist s matching <= Z.max 0 (Z.of_nat (length s) - 1) /\
  get_d_max_dist s matching <= get_d_max_dist s matching'.
Proof.
  intros Hsub. split; [split|].
  - apply get_d_max_dist_nonneg.
  - unfold get_d_max_dist. apply fold_left_le; [lia|].
    intros d i Hi Hd. apply fold_left_le; [done|].
    intros d' j Hj Hd'. unfold max_dist_step.
    destruct (s !! i), (s !! j); try done.
    destruct (member _ _ && member _ _); [|done].
    apply elem_of_seq in Hi, Hj. lia.
  - unfold get_d_max_dist. apply fold_left_mono; [lia|].
    intros d d' i Hd. apply fold_left_mono; [done|].
    intros e e' j He. unfold max_dist_step, member.
    destruct (s !! i) as [x|], (s !! j) as [y|]; try done.
    destruct (bool_decide (x ∈ matching)) eqn:Mx; simpl; [|].
    + destruct (bool_decide (y ∈ matching)) eqn:My; simpl.
      * apply bool_decide_eq_true in Mx, My.
        rewrite !bool_decide_eq_true_2 by auto. simpl. lia.
      * destruct (bool_decide (x ∈ matching') && bool_decide (y ∈ matching')); lia.
    + destruct (bool_decide (x ∈ matching') && bool_decide (y ∈ matching')); lia.
Qed.

Lemma get_d_max_dist_bounds_mono_witness :
  0 <= get_d_max_dist ["a"; "b"; "c"; "a"] ["a"] <= 3 /\
  get_d_max_dist ["a"; "b"; "c"; "a"] ["a"] <= get_d_max_dist ["a"; "b"; "c"; "a"] ["a"; "c"].
Proof.
  apply (get_d_max_dist_bounds_mono ["a"; "b"; "c"; "a"] ["a"] ["a"; "c"]).
  intros w Hw. apply list_elem_of_singleton in Hw as ->. by left.
Defined.

(** ** [get_d_min_freq]: errors, bounds and the tokens it picks *)

Lemma Qle_bool_total (a b : Q) : Qle_bool a b \/ Qle_bool b a.
Proof.
  rewrite !Is_true_true, !Qle_bool_iff.
  destruct (Qlt_le_dec b a) as [H|H]; [right; by apply Qlt_le_weak | by left].
Qed.

Lemma Qle_bool_trans (a b c : Q) : Qle_bool a b -> Qle_bool b c -> Qle_bool a c.
Proof. rewrite !Is_true_true, !Qle_bool_iff. apply Qle_trans. Qed.

Section MinFreqFacts.
Context `{SI : SetIter}.

Lemma set_iter_length (s : list string) : length (set_iter s) = distinct_tokens s.
Proof.
  unfold distinct_tokens, size, set_size. simpl. apply Permutation_length.
  apply NoDup_Permutation; [apply set_iter_NoDup | apply NoDup_elements |].
  intros w. by rewrite set_iter_elem, elem_of_elements, elem_of_list_to_set.
Qed.

Lemma keyed_lookup (freqs : gmap string Q) (l : list string) (keyed : list (Q * string))
    (q : Q) (w : string) :
  mapM (fun w => f ← dict_get freqs w; Ok (f, w)) l = Ok keyed ->
  (q, w) ∈ keyed -> freqs !! w = Some q /\ w ∈ l.
Proof.
  revert keyed. induction l as [|w' l IH]; intros keyed; simpl.
  - intros [= <-] H. by apply elem_of_nil in H.
  - destruct (dict_get freqs w') as [q'|e] eqn:Hq'; simpl; [|discriminate].
    destruct (mapM _ l) as [k|e]; simpl; [|discriminate].
    intros [= <-] Hin. apply elem_of_cons in Hin as [Heq|Hin].
    + injection Heq as -> ->. split; [|by left].
      unfold dict_get in Hq'. destruct (freqs !! w'); by simplify_eq.
    + destruct (IH k eq_refl Hin). split; [done | by right].
Qed.

Lemma get_d_min_freq_missing_token_aux (s : list string) (freqs : gmap string Q)
    (w : string) :
  w ∈ s -> freqs !! w = None ->
  exists w', get_d_min_freq s freqs = Raise (KeyError w').
Proof.
  intros Hw Hnone. unfold get_d_min_freq.
  destruct (mapM _ (set_iter s)) as [keyed|e] eqn:Hk.
  - assert (is_ok (mapM (fun w => f ← dict_get freqs w; Ok (f, w)) (set_iter s))) as Hok
      by (by rewrite Hk).
    apply mapM_is_ok in Hok. rewrite Forall_forall in Hok.
    specialize (Hok w (proj2 (set_iter_elem s w) Hw)).
    unfold dict_get in Hok. by rewrite Hnone in Hok.
  - apply mapM_Raise in Hk as (w' & Hw' & Hr).
    unfold dict_get in Hr. destruct (freqs !! w') eqn:E; simpl in Hr; [discriminate|].
    injection Hr as <-. by exists w'.
Qed.

Lemma get_d_min_freq_lt_length (s : list string) (freqs : gmap string Q) (d : Z) :
  get_d_min_freq s freqs = Ok d -> d < Z.of_nat (length s).
Proof.
  unfold get_d_min_freq. intros (keyed & _ & H)%bind_Ok.
  destruct ((sort_by Qle_bool keyed).*2) as [|a [|b rest]]; [done..|].
  apply bind_Ok in H as (ia & Hia & H). apply bind_Ok in H as (ib & Hib & [= <-]).
  apply index_Ok_inv, lookup_lt_Some in Hia, Hib. lia.
Qed.

End MinFreqFacts.

(** X3: when some token of the segment (shared with the other segment or
    not) is missing from the frequency map, [get_d_min_freq] raises the
    [KeyError] of a token of the segment that is missing from the map. *)
Theorem get_d_min_freq_missing_token `{SI : SetIter} (s : list string)
    (freqs : gmap string Q) :
  (exists w, w ∈ s /\ freqs !! w = None) ->
  exists w', w' ∈ s /\ freqs !! w' = None /\
             get_d_min_freq s freqs = Raise (KeyError w').
Proof.
  intros (w & Hw & Hnone). unfold get_d_min_freq.
  destruct (mapM _ (set_iter s)) as [keyed|e] eqn:Hk.
  - assert (is_ok (mapM (fun w => f ← dict_get freqs w; Ok (f, w)) (set_iter s))) as Hok
      by (by rewrite Hk).
    apply mapM_is_ok in Hok. rewrite Forall_forall in Hok.
    specialize (Hok w (proj2 (set_iter_elem s w) Hw)).
    unfold dict_get in Hok. by rewrite Hnone in Hok.
  - apply mapM_Raise in Hk as (w' & Hw' & Hr).
    unfold dict_get in Hr. destruct (freqs !! w') eqn:E; simpl in Hr; [discriminate|].
    injection Hr as <-. exists w'. split; [by apply set_iter_elem|]. done.
Qed.

Lemma get_d_min_freq_missing_token_witness :
  exists w', w' ∈ abc_segment /\ freqs_10_10 !! w' = None /\
             get_d_min_freq (SI := dedup_iter) abc_segment freqs_10_10 = Raise (KeyError w').
Proof.
  apply (get_d_min_freq_missing_token (SI := dedup_iter) abc_segment freqs_10_10).
  exists "c". split; [compute_done | reflexivity].
Defined.

(** X4: on a segment with fewer than two distinct tokens (the empty
    segment, or one token repeated) whose tokens are all in the map,
    [get_d_min_freq] raises [ValueError]: the unpacking [a, b, *_ = ...]
    has nothing to bind [b] to. *)
Theorem get_d_min_freq_too_few_tokens `{SI : SetIter} (s : list string)
    (freqs : gmap string Q) :
  covers freqs s -> (distinct_tokens s < 2)%nat ->
  get_d_min_freq s freqs = Raise ValueError.
Proof.
  intros Hc Hlt. unfold get_d_min_freq.
  destruct (keyed_Ok freqs (set_iter s)) as [keyed Hk].
  { intros w Hw. rewrite set_iter_elem in Hw.
    destruct (covers_elem _ _ _ Hc Hw) as [q Hq]. by exists q. }
  rewrite Hk. simpl.
  pose proof (Permutation_length (sorted_tokens_perm keyed)) as Hl.
  rewrite (keyed_snd _ _ _ Hk), set_iter_length in Hl.
  destruct ((sort_by Qle_bool keyed).*2) as [|a [|b rest]]; [done..|].
  simpl in Hl. lia.
Qed.

Lemma get_d_min_freq_too_few_tokens_witness :
  get_d_min_freq (SI := dedup_iter) ["a"; "a"; "a"] freqs_1_1 = Raise ValueError.
Proof.
  apply (get_d_min_freq_too_few_tokens (SI := dedup_iter) ["a"; "a"; "a"] freqs_1_1).
  - compute_done.
  - vm_compute. lia.
Defined.

(** X5: [get_d_min_freq] returns exactly when the map has every token of
    the segment and the segment has at least two distinct tokens; the
    distance it returns is at least [1] and less than [len(s)]. *)
Theorem get_d_min_freq_returns_iff `{SI : SetIter} (s : list string)
    (freqs : gmap string Q) :
  ((exists d, get_d_min_freq s freqs = Ok d) <->
   covers freqs s /\ (2 <= distinct_tokens s)%nat) /\
  (forall d, get_d_min_freq s freqs = Ok d -> 1 <= d < Z.of_nat (length s)).
Proof.
  split; [split|].
  - intros [d Hd]. split.
    + apply Forall_forall. intros w Hw.
      destruct (freqs !! w) as [q|] eqn:E; [by exists q|].
      destruct (get_d_min_freq_missing_token_aux s freqs w Hw E) as (w' & H').
      congruence.
    + destruct (decide (2 <= distinct_tokens s)%nat) as [|Hn]; [done|].
      unfold get_d_min_freq in Hd. apply bind_Ok in Hd as (keyed & Hk & Hd).
      pose proof (Permutation_length (sorted_tokens_perm keyed)) as Hl.
      rewrite (keyed_snd _ _ _ Hk), set_iter_length in Hl.
      destruct ((sort_by Qle_bool keyed).*2) as [|a [|b rest]]; [done..|].
      simpl in Hl. lia.
  - intros [Hc Hlen]. apply get_d_min_freq_Ok.
    + intros w Hw. destruct (covers_elem _ _ _ Hc Hw) as [q Hq]. by exists q.
    + by rewrite set_iter_length.
  - intros d Hd. split; [by eapply get_d_min_freq_ge1 | by eapply get_d_min_freq_lt_length].
Qed.

(** X6: the distance [get_d_min_freq] returns is measured between the
    first occurrences of two distinct tokens [a] and [b] of the segment
    such that [a] is at most as frequent as [b], and [b] is at most as
    frequent as every token of the segment other than [a]: the two least
    frequent tokens. *)
Theorem get_d_min_freq_least_frequent `{SI : SetIter} (s : list string)
    (freqs : gmap string Q) (d : Z) :
  get_d_min_freq s freqs = Ok d ->
  exists a b qa qb ia ib,
    a <> b /\ freqs !! a = Some qa /\ freqs !! b = Some qb /\
    index s a = Ok ia /\ index s b = Ok ib /\
    d = Z.abs (Z.of_nat ia - Z.of_nat ib) /\
    (qa <= qb)%Q /\
    (forall w qw, w ∈ s -> w <> a -> freqs !! w = Some qw -> (qb <= qw)%Q).
Proof.
  unfold get_d_min_freq. intros (keyed & Hk & H)%bind_Ok.
  pose proof (sort_by_sorted Qle_bool Qle_bool_total Qle_bool_trans keyed) as Hs.
  pose proof (sort_by_perm Qle_bool keyed) as Hp.
  pose proof (sorted_tokens_perm keyed) as Hp2.
  rewrite (keyed_snd _ _ _ Hk) in Hp2.
  destruct (sort_by Qle_bool keyed) as [|[qa a] [|[qb b] rest]]; [done..|].
  simpl in H, Hp2.
  apply bind_Ok in H as (ia & Hia & H). apply bind_Ok in H as (ib & Hib & [= <-]).
  assert ((qa, a) ∈ keyed) as Ha by (rewrite <- Hp; by left).
  assert ((qb, b) ∈ keyed) as Hb by (rewrite <- Hp; right; by left).
  destruct (keyed_lookup _ _ _ _ _ Hk Ha) as [Hfa _].
  destruct (keyed_lookup _ _ _ _ _ Hk Hb) as [Hfb _].
  apply StronglySorted_cons in Hs as [Hqa Hs].
  apply StronglySorted_cons in Hs as [Hqb _].
  rewrite Forall_forall in Hqa, Hqb.
  assert (NoDup (a :: b :: rest.*2)) as Hnd by (rewrite Hp2; apply set_iter_NoDup).
  exists a, b, qa, qb, ia, ib. repeat split; try done.
  - apply NoDup_cons in Hnd as [Hab _]. intros ->. apply Hab. by left.
  - apply Qle_bool_iff, Is_true_true. apply (Hqa (qb, b)). by left.
  - intros w qw Hw Hne Hfw.
    assert (w ∈ a :: b :: rest.*2) as Hin by (rewrite Hp2; by apply set_iter_elem).
    apply elem_of_cons in Hin as [->|Hin]; [done|].
    apply elem_of_cons in Hin as [->|Hin].
    + replace qw with qb by congruence. apply Qle_refl.
    + apply list_elem_of_fmap in Hin as ([q' w'] & -> & Hin'). simpl in *.
      assert ((q', w') ∈ keyed) as Hk' by (rewrite <- Hp; right; by right).
      destruct (keyed_lookup _ _ _ _ _ Hk Hk') as [Hf' _].
      replace qw with q' by congruence.
      apply Qle_bool_iff, Is_true_true. by apply (Hqb (q', w')).
Qed.

Lemma get_d_min_freq_least_frequent_witness :
  exists a b qa qb ia ib,
    a <> b /\ freqs_1_5_10 !! a = Some qa /\ freqs_1_5_10 !! b = Some qb /\
    index abac_segment a = Ok ia /\ index abac_segment b = Ok ib /\
    1 = Z.abs (Z.of_nat ia - Z.of_nat ib) /\
    (qa <= qb)%Q /\
    (forall w qw, w ∈ abac_segment -> w <> a -> freqs_1_5_10 !! w = Some qw -> (qb <= qw)%Q).
Proof.
  apply (get_d_min_freq_least_frequent (SI := dedup_iter) abac_segment freqs_1_5_10 1).
  vm_compute. reflexivity.
Defined.

(** ** [tesserae_score]: what each method needs, and how it fails *)

Section ScoreMore.
Context `{SI : SetIter}.

Lemma inv_freq_sum_wf_pos (freqs : gmap string Q) (matching : list string) (f : Q) :
  freq_map_wf freqs -> matching <> [] ->
  inv_freq_sum freqs matching = Ok f -> (0 < f)%Q.
Proof.
  intros Hwf Hne Hf.
  assert (Forall (usable freqs) matching) as Hu by (apply inv_freq_sum_is_ok; by rewrite Hf).
  rewrite Forall_forall in Hu.
  destruct (inv_freq_sum_pos freqs matching) as (f' & Hf' & Hpos); [|done|congruence].
  intros w Hw. destruct (Hu w Hw) as (q & Hq & _). exists q. split; [done|].
  by eapply Hwf.
Qed.

Lemma inv_freq_sum_wf_Raise (freqs : gmap string Q) (matching : list string) (e : exn) :
  freq_map_wf freqs -> inv_freq_sum freqs matching = Raise e ->
  exists w, w ∈ matching /\ freqs !! w = None /\ e = KeyError w.
Proof.
  intros Hwf (w & Hw & [[Hn ->]|(q & Hq & E & _)])%inv_freq_sum_Raise.
  - by exists w.
  - by destruct (wf_nonzero _ _ _ Hwf Hq).
Qed.

Lemma get_d_min_freq_Raise_two (s : list string) (freqs : gmap string Q) (e : exn) :
  (2 <= length (set_iter s))%nat ->
  get_d_min_freq s freqs = Raise e ->
  exists w, w ∈ s /\ freqs !! w = None /\ e = KeyError w.
Proof.
  intros Hlen Hr.
  destruct (decide (covers freqs s)) as [Hc|Hn].
  - destruct (get_d_min_freq_Ok s freqs) as [d Hd]; [|done|congruence].
    intros w Hw. destruct (covers_elem _ _ _ Hc Hw) as [q Hq]. by exists q.
  - apply not_Forall_Exists in Hn; [|apply _].
    apply Exists_exists in Hn as (w & Hw & Hnone). unfold compose in Hnone.
    assert (freqs !! w = None) as Hnone'.
    { destruct (freqs !! w) as [q|] eqn:E; [|done]. destruct Hnone. by exists q. }
    destruct (get_d_min_freq_missing_token_aux s freqs w Hw Hnone') as [w' Hw'].
    destruct (get_d_min_freq_Raise _ _ _ Hr) as [->|(w'' & ? & ? & ->)]; [congruence|].
    by exists w''.
Qed.

Lemma shared_two_set_iter (s1 s2 : list string) :
  (2 <= length (inter_iter s1 s2))%nat ->
  (2 <= length (set_iter s1))%nat /\ (2 <= length (set_iter s2))%nat.
Proof.
  intros H. pose proof (set_iter_length_ge s1 s2). pose proof (set_iter_length_ge s2 s1).
  pose proof (Permutation_length (inter_iter_swap s1 s2)). lia.
Qed.


End ScoreMore.

(** X8: the two methods need different things from the maps.  When the
    shared tokens are in both (positive) maps, [max_dist] returns the
    logarithm of a positive ratio, whatever else is missing; [min_freq]
    looks up every token of both segments, and raises the [KeyError] of a
    token missing on its side as soon as there is one. *)
Theorem tesserae_score_lookups_by_method `{SI : SetIter} (s1 s2 : list string)
    (freqs1 freqs2 : gmap string Q) :
  freq_map_wf freqs1 -> freq_map_wf freqs2 ->
  (2 <= size (shared s1 s2))%nat ->
  (forall w, w ∈ shared s1 s2 -> is_Some (freqs1 !! w) /\ is_Some (freqs2 !! w)) ->
  (exists q, tesserae_score s1 s2 freqs1 freqs2 max_dist = Ok (Log q) /\ (0 < q)%Q) /\
  ((exists w, (w ∈ s1 /\ freqs1 !! w = None) \/ (w ∈ s2 /\ freqs2 !! w = None)) ->
   exists w', tesserae_score s1 s2 freqs1 freqs2 min_freq = Raise (KeyError w') /\
              ((w' ∈ s1 /\ freqs1 !! w' = None) \/ (w' ∈ s2 /\ freqs2 !! w' = None))).
Proof.
  intros Hw1 Hw2 Hsz Hcov. rewrite <- inter_iter_length in Hsz.
  assert (inter_iter s1 s2 <> []) as Hne
    by (destruct (inter_iter s1 s2); [simpl in Hsz; lia | done]).
  destruct (inv_freq_sum_pos freqs1 (inter_iter s1 s2)) as (f_t & Ht & Htpos); [|done|].
  { intros w Hw%inter_iter_shared. destruct (Hcov w Hw) as [[q Hq] _].
    exists q. split; [done | by eapply Hw1]. }
  destruct (inv_freq_sum_pos freqs2 (inter_iter s1 s2)) as (f_s & Hs & Hspos); [|done|].
  { intros w Hw%inter_iter_shared. destruct (Hcov w Hw) as [_ [q Hq]].
    exists q. split; [done | by eapply Hw2]. }
  assert (0 < f_t + f_s)%Q as Hpos.
  { pose proof (Qplus_lt_le_compat _ _ _ _ Htpos (Qlt_le_weak _ _ Hspos)) as H'.
    by rewrite Qplus_0_l in H'. }
  split.
  - destruct (tesserae_score_ratio s1 s2 freqs1 freqs2 max_dist f_t f_s
                (get_d_max_dist s1 (inter_iter s1 s2)) (get_d_max_dist s2 (inter_iter s1 s2)))
      as [Hsc Hr]; [done..|]. eauto.
  - intros Hmiss. rewrite tesserae_score_many by done. rewrite Ht, Hs. simpl.
    destruct (shared_two_set_iter s1 s2 Hsz) as [Hl1 Hl2].
    destruct (get_d_min_freq s1 freqs1) as [d1|e1] eqn:H1; simpl.
    + destruct (get_d_min_freq s2 freqs2) as [d2|e2] eqn:H2; simpl.
      * exfalso. destruct Hmiss as (w & [[Hw Hn]|[Hw Hn]]).
        -- destruct (get_d_min_freq_missing_token_aux s1 freqs1 w Hw Hn). congruence.
        -- destruct (get_d_min_freq_missing_token_aux s2 freqs2 w Hw Hn). congruence.
      * destruct (get_d_min_freq_Raise_two _ _ _ Hl2 H2) as (w' & ? & ? & ->).
        exists w'. split; [done | by right].
    + destruct (get_d_min_freq_Raise_two _ _ _ Hl1 H1) as (w' & ? & ? & ->).
      exists w'. split; [done | by left].
Qed.

Lemma tesserae_score_lookups_by_method_witness :
  exists q, tesserae_score (SI := dedup_iter) ["a"; "b"; "x"] ab_segment
              freqs_1_1 freqs_1_1 max_dist = Ok (Log q) /\ (0 < q)%Q.
Proof.
  refine (proj1 (tesserae_score_lookups_by_method (SI := dedup_iter)
                   ["a"; "b"; "x"] ab_segment freqs_1_1 freqs_1_1 _ _ _ _)).
  - compute_done.
  - compute_done.
  - vm_compute. lia.
  - intros w Hw. unfold shared in Hw.
    apply elem_of_intersection in Hw as [_ Hw]. apply elem_of_list_to_set in Hw.
    unfold ab_segment in Hw. rewrite !elem_of_cons, elem_of_nil in Hw.
    destruct Hw as [->|[->|[]]]; split; by eexists.
Defined.

(** X9: with positive frequency maps the scorer can fail in one way
    only, the [KeyError] of a token of [s1] missing from [freqs1] or of a
    token of [s2] missing from [freqs2]. *)
Theorem tesserae_score_only_key_errors `{SI : SetIter} (s1 s2 : list string)
    (freqs1 freqs2 : gmap string Q) (m : method) (e : exn) :
  freq_map_wf freqs1 -> freq_map_wf freqs2 ->
  tesserae_score s1 s2 freqs1 freqs2 m = Raise e ->
  exists w, e = KeyError w /\
            ((w ∈ s1 /\ freqs1 !! w = None) \/ (w ∈ s2 /\ freqs2 !! w = None)).
Proof.
  intros Hw1 Hw2 Hr.
  destruct (decide (length (inter_iter s1 s2) < 2)%nat) as [Hlt|Hge].
  { by rewrite tesserae_score_few in Hr. }
  assert (2 <= length (inter_iter s1 s2))%nat as Hlen by lia.
  assert (inter_iter s1 s2 <> []) as Hne
    by (destruct (inter_iter s1 s2); [simpl in Hlen; lia | done]).
  destruct (shared_two_set_iter s1 s2 Hlen) as [Hl1 Hl2].
  destruct (inv_freq_sum freqs1 (inter_iter s1 s2)) as [f_t|e1] eqn:Ht.
  2:{ rewrite tesserae_score_many, Ht in Hr by done. simpl in Hr. injection Hr as <-.
      apply inv_freq_sum_wf_Raise in Ht as (w & [Hw _]%inter_iter_elem & Hn & ->); [|done].
      exists w. split; [done | by left]. }
  destruct (inv_freq_sum freqs2 (inter_iter s1 s2)) as [f_s|e2] eqn:Hs.
  2:{ rewrite tesserae_score_many, Ht, Hs in Hr by done. simpl in Hr. injection Hr as <-.
      apply inv_freq_sum_wf_Raise in Hs as (w & [_ Hw]%inter_iter_elem & Hn & ->); [|done].
      exists w. split; [done | by right]. }
  destruct (distances s1 s2 freqs1 freqs2 (inter_iter s1 s2) m) as [[d_t d_s]|e3] eqn:Hd.
  - exfalso.
    pose proof (inv_freq_sum_wf_pos _ _ _ Hw1 Hne Ht) as Htpos.
    pose proof (inv_freq_sum_wf_pos _ _ _ Hw2 Hne Hs) as Hspos.
    destruct (tesserae_score_ratio s1 s2 freqs1 freqs2 m f_t f_s d_t d_s) as [Hsc _];
      [done..| |congruence].
    pose proof (Qplus_lt_le_compat _ _ _ _ Htpos (Qlt_le_weak _ _ Hspos)) as H'.
    by rewrite Qplus_0_l in H'.
  - rewrite tesserae_score_many, Ht, Hs, Hd in Hr by done. simpl in Hr. injection Hr as <-.
    destruct m; simpl in Hd; [|discriminate].
    destruct (get_d_min_freq s1 freqs1) as [d1|e1] eqn:H1; simpl in Hd.
    + destruct (get_d_min_freq s2 freqs2) as [d2|e2] eqn:H2; simpl in Hd; [discriminate|].
      injection Hd as <-.
      destruct (get_d_min_freq_Raise_two _ _ _ Hl2 H2) as (w' & ? & ? & ->).
      exists w'. split; [done | by right].
    + injection Hd as <-.
      destruct (get_d_min_freq_Raise_two _ _ _ Hl1 H1) as (w' & ? & ? & ->).
      exists w'. split; [done | by left].
Qed.

Lemma tesserae_score_only_key_errors_witness :
  exists w, KeyError "c" = KeyError w /\
            ((w ∈ abc_segment /\ freqs_1_2_3 !! w = None) \/
             (w ∈ abc_segment /\ freqs_10_10 !! w = None)).
Proof.
  apply (tesserae_score_only_key_errors (SI := dedup_iter)
           abc_segment abc_segment freqs_1_2_3 freqs_10_10 min_freq (KeyError "c")).
  - compute_done.
  - compute_done.
  - vm_compute. reflexivity.
Defined.

(** ** The two methods compared *)

Section MethodsCompared.
Context `{SI : SetIter}.

Lemma get_d_min_freq_le_max_dist (s matching : list string) (freqs : gmap string Q) (d : Z) :
  (forall w, w ∈ s -> w ∈ matching) ->
  get_d_min_freq s freqs = Ok d -> d <= get_d_max_dist s matching.
Proof.
  intros Hall. unfold get_d_min_freq. intros (keyed & Hk & H)%bind_Ok.
  destruct ((sort_by Qle_bool keyed).*2) as [|a [|b rest]]; [done..|].
  apply bind_Ok in H as (ia & Hia & H). apply bind_Ok in H as (ib & Hib & [= <-]).
  apply index_Ok_inv in Hia, Hib.
  assert (a ∈ matching) as Ha by (apply Hall; by eapply list_elem_of_lookup_2).
  assert (b ∈ matching) as Hb by (apply Hall; by eapply list_elem_of_lookup_2).
  pose proof (get_d_max_dist_nonneg s matching) as H0.
  destruct (lt_eq_lt_dec ia ib) as [[Hlt|Heq]|Hgt].
  - pose proof (get_d_max_dist_pair s matching ia ib a b Hlt Hia Hib Ha Hb). lia.
  - subst ib. lia.
  - pose proof (get_d_max_dist_pair s matching ib ia b a Hgt Hib Hia Hb Ha). lia.
Qed.

Lemma Qdiv_le_denominator (f d D : Q) :
  (0 <= f)%Q -> (0 < d)%Q -> (d <= D)%Q -> (f / D <= f / d)%Q.
Proof.
  intros Hf Hd HdD. unfold Qdiv.
  assert (0 < D)%Q as HD by (eapply Qlt_le_trans; eauto).
  assert (/ D <= / d)%Q as Hinv.
  { apply Qle_shift_inv_l; [done|].
    assert (/ D * d == d / D)%Q as -> by (field; intros E; rewrite E in HD; by apply Qlt_irrefl in HD).
    apply Qle_shift_div_r; [done|]. by rewrite Qmult_1_l. }
  rewrite !(Qmult_comm f). by apply Qmult_le_compat_r.
Qed.

(** X28: on two segments with the same tokens (a segment compared with
    itself, or with a reordering of itself) and positive frequency maps,
    [max_dist] never scores higher than [min_freq]: whenever the
    [min_freq] score is returned, the [max_dist] score is returned too and
    is at most as large.  The two rarest tokens of a segment are then
    matching tokens, so their distance is at most the span [max_dist]
    measures, and the same frequency sum is divided by a larger number.
    (Source: baseline.py, tesserae_score, get_d_min_freq, get_d_max_dist.) *)
Theorem tesserae_score_same_tokens (s1 s2 : list string) (freqs1 freqs2 : gmap string Q)
    (v1 : score) :
  freq_map_wf freqs1 -> freq_map_wf freqs2 ->
  (forall w, w ∈ s1 <-> w ∈ s2) ->
  tesserae_score s1 s2 freqs1 freqs2 min_freq = Ok v1 ->
  exists v2, tesserae_score s1 s2 freqs1 freqs2 max_dist = Ok v2 /\
             (score_R v2 <= score_R v1)%R.
Proof.
  intros Hwf1 Hwf2 Hsame Hs.
  destruct (decide (2 <= length (inter_iter s1 s2))%nat) as [Hlen|Hlen].
  2: { rewrite tesserae_score_few in Hs |- * by lia. injection Hs as <-.
       exists Zero. split; [done|]. simpl. lra. }
  rewrite tesserae_score_many in Hs by done.
  apply bind_Ok in Hs as (ft & Hft & Hs). apply bind_Ok in Hs as (fs & Hfs & Hs).
  apply bind_Ok in Hs as ([d1 d2] & Hd & Hs). apply bind_Ok in Hs as (r & Hr & Hlog).
  assert (inter_iter s1 s2 <> []) as Hne by (intros E; rewrite E in Hlen; simpl in Hlen; lia).
  pose proof (inv_freq_sum_wf_pos _ _ _ Hwf1 Hne Hft) as Hftpos.
  pose proof (inv_freq_sum_wf_pos _ _ _ Hwf2 Hne Hfs) as Hfspos.
  assert (0 < ft + fs)%Q as Hpos.
  { rewrite <- (Qplus_0_l 0). apply Qplus_lt_le_compat; [done|by apply Qlt_le_weak]. }
  destruct (distances_ge1 _ _ _ _ _ _ _ Hlen Hd) as [Hd1 Hd2].
  destruct (tesserae_score_ratio s1 s2 freqs1 freqs2 min_freq ft fs d1 d2 Hlen Hft Hfs Hd Hpos)
    as [Hmin Hminpos].
  rewrite tesserae_score_many in Hmin by done.
  rewrite Hft, Hfs, Hd in Hmin. simpl in Hmin. rewrite Hr in Hmin. simpl in Hmin.
  rewrite Hlog in Hmin. injection Hmin as ->.
  destruct (tesserae_score_ratio s1 s2 freqs1 freqs2 max_dist ft fs _ _ Hlen Hft Hfs eq_refl Hpos)
    as [Hmax Hmaxpos].
  eexists. split; [exact Hmax|].
  simpl in Hd. apply bind_Ok in Hd as (d1' & Hg1 & Hd).
  apply bind_Ok in Hd as (d2' & Hg2 & [= -> ->]).
  assert (d1 <= get_d_max_dist s1 (inter_iter s1 s2)) as Hle1.
  { apply (get_d_min_freq_le_max_dist s1 _ freqs1); [|done].
    intros w Hw. apply inter_iter_elem. split; [done|by apply Hsame]. }
  assert (d2 <= get_d_max_dist s2 (inter_iter s1 s2)) as Hle2.
  { apply (get_d_min_freq_le_max_dist s2 _ freqs2); [|done].
    intros w Hw. apply inter_iter_elem. split; [by apply Hsame|done]. }
  apply score_leb_R; [done..|].
  unfold score_leb. simpl. apply Is_true_true, Qle_bool_iff.
  apply Qdiv_le_denominator.
  - by apply Qlt_le_weak.
  - rewrite <- (Zlt_Qlt 0). lia.
  - rewrite <- Zle_Qle. lia.
Qed.

End MethodsCompared.

Lemma tesserae_score_same_tokens_witness :
  exists v2, tesserae_score (SI := dedup_iter) abc_segment acb_segment
               freqs_1_5_10 freqs_1_5_10 max_dist = Ok v2 /\
             (score_R v2 <= score_R (Log (6500 # 7500)))%R.
Proof.
  apply (tesserae_score_same_tokens (SI := dedup_iter) abc_segment acb_segment
           freqs_1_5_10 freqs_1_5_10).
  - compute_done.
  - compute_done.
  - intros w. unfold abc_segment, acb_segment.
    rewrite !elem_of_cons, !elem_of_nil. tauto.
  - vm_compute. reflexivity.
Defined.

(** ** [tesserae_baseline]: rows, recall and failures *)

Lemma sum_Z_bounds (hs : list Z) :
  Forall (fun h => 0 <= h <= 1) hs -> 0 <= sum_Z hs <= Z.of_nat (length hs).
Proof.
  induction 1 as [|h hs Hh _ IH]; [done|].
  rewrite sum_Z_cons. simpl length. lia.
Qed.

Lemma enumerate_lookup {A} (l : list A) (k : nat) (x : A) :
  l !! k = Some x -> zip (seq 0 (length l)) l !! k = Some (k, x).
Proof.
  intros H. apply lookup_zip_Some. split; [|done].
  apply lookup_seq. split; [done|]. by eapply lookup_lt_Some.
Qed.

Lemma enumerate_elem {A} (l : list A) (k : nat) (x : A) :
  (k, x) ∈ zip (seq 0 (length l)) l -> l !! k = Some x.
Proof.
  intros [i Hi]%list_elem_of_lookup. apply lookup_zip_Some in Hi as [Hk Hx].
  apply lookup_seq in Hk as [-> _]. done.
Qed.

Section BaselineMore.
Context `{SI : SetIter} `{AS : Argsort}.

Lemma argsort_elem (tscores : list score) (i : nat) :
  i ∈ argsort tscores <-> (i < length tscores)%nat.
Proof. rewrite argsort_perm, elem_of_seq. lia. Qed.

Lemma argsort_NoDup (tscores : list score) : NoDup (argsort tscores).
Proof. rewrite argsort_perm. apply NoDup_seq. Qed.

Lemma top_idxs_NoDup (tscores : list score) (at_ : Z) : NoDup (top_idxs tscores at_).
Proof.
  eapply sublist_NoDup; [|apply top_idxs_sublist].
  rewrite reverse_Permutation. apply argsort_NoDup.
Qed.

Lemma top_idxs_lt (tscores : list score) (at_ : Z) (i : nat) :
  i ∈ top_idxs tscores at_ -> (i < length tscores)%nat.
Proof.
  intros Hi. apply argsort_elem. rewrite <- elem_of_reverse.
  eapply sublist_subseteq; [apply top_idxs_sublist | done].
Qed.

Lemma scored_candidates_idxs (s1 : list string) (trg : list (list string))
    (tscores : list score) (idxs : list nat) :
  (scored_candidates s1 trg tscores idxs).*1.*1 = idxs.
Proof.
  unfold scored_candidates.
  induction idxs as [|i idxs IH]; [done|].
  rewrite !fmap_cons. simpl. f_equal. exact IH.
Qed.

Lemma candidate_scores_lookup (s1 : list string) (trg : list (list string))
    (src_freqs trg_freqs : gmap string Q) (tscores : list score) (i : nat) (s2 : list string) :
  candidate_scores s1 trg src_freqs trg_freqs = Ok tscores ->
  trg !! i = Some s2 ->
  exists v, tscores !! i = Some v /\
            tesserae_score s1 s2 src_freqs trg_freqs min_freq = Ok v.
Proof.
  intros Hc Hi. unfold candidate_scores in Hc.
  exact (mapM_Ok_lookup _ _ _ _ _ Hc Hi).
Qed.

(** Row [k] of the output, for the [k]-th segment of [src]. *)
Lemma baseline_row_lookup (src trg : list (list string))
    (src_freqs trg_freqs : gmap string Q) (at_ : Z) (m : method)
    (recall : Q) (output : list (list (nat * score * nat))) (k : nat) (s1 : list string) :
  tesserae_baseline src trg src_freqs trg_freqs at_ m = Ok (recall, output) ->
  src !! k = Some s1 ->
  exists tscores,
    candidate_scores s1 trg src_freqs trg_freqs = Ok tscores /\
    length tscores = length trg /\
    output !! k = Some (scored_candidates s1 trg tscores (top_idxs tscores at_)).
Proof.
  intros (rows & Hm & -> & _)%tesserae_baseline_Ok Hk.
  destruct (mapM_Ok_lookup _ _ _ _ _ Hm (enumerate_lookup _ _ _ Hk)) as ([hit row] & Hr & Hrow).
  apply baseline_row_Ok in Hrow as (tscores & Ht & _ & ->).
  exists tscores. split; [done|]. split.
  - by apply mapM_Ok_length in Ht.
  - by rewrite list_lookup_fmap, Hr.
Qed.

Lemma hits_of_rows (trg : list (list string)) (src_freqs trg_freqs : gmap string Q)
    (at_ : Z) (n : nat) (entries : list (list string))
    (rows : list (Z * list (nat * score * nat))) :
  mapM (baseline_row trg src_freqs trg_freqs at_) (zip (seq n (length entries)) entries)
    = Ok rows ->
  rows.*1 = imap (fun k row => row_hit (n + k) row) rows.*2.
Proof.
  revert n rows. induction entries as [|s1 entries IH]; intros n rows; simpl.
  - by intros [= <-].
  - intros ([hit row] & Hrow & H)%bind_Ok.
    apply bind_Ok in H as (rest & Hrest & [= <-]).
    apply baseline_row_Ok in Hrow as (tscores & _ & -> & ->).
    rewrite !fmap_cons, imap_cons. cbn [fst snd]. f_equal.
    + unfold row_hit. by rewrite scored_candidates_idxs, Nat.add_0_r.
    + rewrite (IH (S n) rest Hrest). apply imap_ext. intros k row' _. simpl.
      f_equal. lia.
Qed.

End BaselineMore.

(** X10: when the evaluation loop returns, the output has one row per
    segment of [src], and the recall is a fraction between [0] and [1]:
    the number of rows [k] that list candidate [k] (the gold candidate of
    [src[k]] is [trg[k]]) divided by [len(src)]. *)
Theorem tesserae_baseline_recall `{SI : SetIter} `{AS : Argsort}
    (src trg : list (list string)) (src_freqs trg_freqs : gmap string Q)
    (at_ : Z) (m : method) (recall : Q) (output : list (list (nat * score * nat))) :
  tesserae_baseline src trg src_freqs trg_freqs at_ m = Ok (recall, output) ->
  length output = length src /\
  recall = (inject_Z (sum_Z (imap row_hit output)) / inject_Z (Z.of_nat (length src)))%Q /\
  (0 <= recall <= 1)%Q.
Proof.
  intros (rows & Hm & -> & Hne & ->)%tesserae_baseline_Ok.
  pose proof (mapM_Ok_length _ _ _ Hm) as Hlen.
  rewrite length_zip, length_seq, Nat.min_id in Hlen.
  pose proof (hits_of_rows _ _ _ _ 0 _ _ Hm) as Hhits. simpl in Hhits.
  assert (0 <= sum_Z rows.*1 <= Z.of_nat (length rows)) as [Hlo Hhi].
  { rewrite <- (length_fmap fst rows). apply sum_Z_bounds.
    rewrite Hhits. apply Forall_forall. intros h Hh.
    apply elem_of_lookup_imap in Hh as (k & row & -> & _).
    unfold row_hit. destruct (bool_decide _); lia. }
  assert (0 < inject_Z (Z.of_nat (length rows)))%Q as Hpos.
  { rewrite <- (Zlt_Qlt 0). destruct rows; [done | simpl; lia]. }
  split; [by rewrite length_fmap|]. split; [rewrite Hhits, Hlen; reflexivity|].
  split.
  - apply Qle_shift_div_l; [done|]. rewrite Qmult_0_l. by rewrite <- (Zle_Qle 0).
  - apply Qle_shift_div_r; [done|]. rewrite Qmult_1_l. by rewrite <- Zle_Qle.
Qed.

Lemma tesserae_baseline_recall_witness :
  length [[(1%nat, Log (4 # 2), 2%nat); (0%nat, Log (4 # 2), 2%nat)]] = length [ab_segment] /\
  1%Q = (inject_Z (sum_Z (imap row_hit
            [[(1%nat, Log (4 # 2), 2%nat); (0%nat, Log (4 # 2), 2%nat)]]))
         / inject_Z (Z.of_nat (length [ab_segment])))%Q /\
  (0 <= 1 <= 1)%Q.
Proof.
  apply (tesserae_baseline_recall (SI := dedup_iter) (AS := stable_argsort)
           [ab_segment] [ab_segment; ab_segment] freqs_1_1 freqs_1_1 2 min_freq).
  vm_compute. reflexivity.
Defined.

(** X11: every scored candidate [(i, score, overlap)] in the row of
    [src[k]] is a real candidate: [i] indexes [trg], [score] is the
    [min_freq] score of [src[k]] against [trg[i]], [overlap] is the number
    of tokens the two share, which is at least two; and no candidate is
    listed twice. *)
Theorem tesserae_baseline_rows_faithful `{SI : SetIter} `{AS : Argsort}
    (src trg : list (list string)) (src_freqs trg_freqs : gmap string Q)
    (at_ : Z) (m : method) (recall : Q) (output : list (list (nat * score * nat)))
    (k : nat) (s1 : list string) (row : list (nat * score * nat)) :
  tesserae_baseline src trg src_freqs trg_freqs at_ m = Ok (recall, output) ->
  src !! k = Some s1 -> output !! k = Some row ->
  NoDup row.*1.*1 /\
  (forall i sc ov, (i, sc, ov) ∈ row ->
     exists s2, trg !! i = Some s2 /\
                tesserae_score s1 s2 src_freqs trg_freqs min_freq = Ok sc /\
                ov = size (shared s1 s2) /\ (2 <= ov)%nat).
Proof.
  intros Hb Hk Hrow.
  destruct (baseline_row_lookup _ _ _ _ _ _ _ _ _ _ Hb Hk) as (tscores & Hc & Hlen & Hout).
  rewrite Hrow in Hout. injection Hout as ->. split.
  - rewrite scored_candidates_idxs. apply top_idxs_NoDup.
  - intros i sc ov Hin. unfold scored_candidates in Hin.
    apply list_elem_of_fmap in Hin as (i' & [= -> -> ->] & Hi).
    pose proof (top_idxs_lt _ _ _ Hi) as Hlt. rewrite Hlen in Hlt.
    destruct (lookup_lt_is_Some_2 trg i' Hlt) as [s2 Hs2].
    destruct (candidate_scores_lookup _ _ _ _ _ _ _ Hc Hs2) as (v & Hv & Hsc).
    exists s2. unfold score_at, segment_at. rewrite Hv, Hs2. simpl.
    split; [done|]. split; [done|]. split; [apply inter_iter_length|].
    destruct (decide (2 <= length (inter_iter s1 s2))%nat) as [|Hn]; [done|].
    rewrite tesserae_score_few in Hsc by lia. injection Hsc as <-.
    pose proof (top_idxs_pos tscores at_) as Hpos. rewrite Forall_forall in Hpos.
    specialize (Hpos i' Hi). unfold score_at in Hpos. by rewrite Hv in Hpos.
Qed.

Lemma tesserae_baseline_rows_faithful_witness :
  NoDup [(1%nat, Log (4 # 2), 2%nat); (0%nat, Log (4 # 2), 2%nat)].*1.*1 /\
  (forall i sc ov,
     (i, sc, ov) ∈ [(1%nat, Log (4 # 2), 2%nat); (0%nat, Log (4 # 2), 2%nat)] ->
     exists s2, [ab_segment; ab_segment] !! i = Some s2 /\
                tesserae_score (SI := dedup_iter) ab_segment s2 freqs_1_1 freqs_1_1 min_freq
                  = Ok sc /\
                ov = size (shared ab_segment s2) /\ (2 <= ov)%nat).
Proof.
  apply (tesserae_baseline_rows_faithful (SI := dedup_iter) (AS := stable_argsort)
           [ab_segment] [ab_segment; ab_segment] freqs_1_1 freqs_1_1 2 min_freq 1%Q
           [[(1%nat, Log (4 # 2), 2%nat); (0%nat, Log (4 # 2), 2%nat)]] 0%nat).
  - vm_compute. reflexivity.
  - reflexivity.
  - reflexivity.
Defined.

(** X12: the evaluation loop returns exactly when [src] is not empty and
    the [min_freq] scorer returns on every pair of a segment of [src] and
    a segment of [trg].  On an empty [src] it raises [ZeroDivisionError]
    (the recall is [0/0]); on a non-empty [src] the exception it raises
    is one raised by the scorer on such a pair. *)
Theorem tesserae_baseline_returns_iff `{SI : SetIter} `{AS : Argsort}
    (src trg : list (list string)) (src_freqs trg_freqs : gmap string Q)
    (at_ : Z) (m : method) :
  ((exists recall output,
      tesserae_baseline src trg src_freqs trg_freqs at_ m = Ok (recall, output)) <->
   src <> [] /\
   forall s1 s2, s1 ∈ src -> s2 ∈ trg ->
     is_ok (tesserae_score s1 s2 src_freqs trg_freqs min_freq)) /\
  tesserae_baseline [] trg src_freqs trg_freqs at_ m = Raise ZeroDivisionError /\
  (forall e, src <> [] ->
     tesserae_baseline src trg src_freqs trg_freqs at_ m = Raise e ->
     exists s1 s2, s1 ∈ src /\ s2 ∈ trg /\
                   tesserae_score s1 s2 src_freqs trg_freqs min_freq = Raise e).
Proof.
  split; [split|split].
  - intros (recall & output & Hb). split.
    + pose proof Hb as (rows & Hm & _ & Hne & _)%tesserae_baseline_Ok.
      apply mapM_Ok_length in Hm. rewrite length_zip, length_seq, Nat.min_id in Hm.
      intros ->. by destruct rows.
    + intros s1 s2 [k Hk]%list_elem_of_lookup [i Hi]%list_elem_of_lookup.
      destruct (baseline_row_lookup _ _ _ _ _ _ _ _ _ _ Hb Hk) as (tscores & Hc & _ & _).
      destruct (candidate_scores_lookup _ _ _ _ _ _ _ Hc Hi) as (v & _ & ->). done.
  - intros [Hne Hall].
    assert (is_ok (mapM (baseline_row trg src_freqs trg_freqs at_)
                        (zip (seq 0 (length src)) src))) as Hok.
    { apply mapM_is_ok, Forall_forall. intros [idx s1] Hin.
      apply elem_of_zip_r in Hin. unfold baseline_row.
      assert (is_ok (candidate_scores s1 trg src_freqs trg_freqs)) as Hcs.
      { apply mapM_is_ok, Forall_forall. intros s2 Hs2. by apply Hall. }
      by destruct (candidate_scores s1 trg src_freqs trg_freqs). }
    unfold tesserae_baseline.
    destruct (mapM _ (zip _ src)) as [rows|] eqn:Hm; [|done]. simpl.
    apply mapM_Ok_length in Hm. rewrite length_zip, length_seq, Nat.min_id in Hm.
    rewrite py_div_Ok; [simpl; eauto|].
    unfold Qeq. simpl. destruct src; [done|]. simpl in Hm. lia.
  - reflexivity.
  - intros e Hne Hr. unfold tesserae_baseline in Hr.
    destruct (mapM _ (zip _ src)) as [rows|e'] eqn:Hm; simpl in Hr.
    + apply mapM_Ok_length in Hm. rewrite length_zip, length_seq, Nat.min_id in Hm.
      rewrite py_div_Ok in Hr; [discriminate|].
      unfold Qeq. simpl. destruct src; [done|]. simpl in Hm. lia.
    + injection Hr as ->.
      apply mapM_Raise in Hm as ([idx s1] & Hin & Hrow).
      apply elem_of_zip_r in Hin. unfold baseline_row in Hrow.
      destruct (candidate_scores s1 trg src_freqs trg_freqs) as [ts|e'] eqn:Hc;
        simpl in Hrow; [discriminate|].
      injection Hrow as ->. unfold candidate_scores in Hc.
      apply mapM_Raise in Hc as (s2 & Hs2 & Hsc). eauto.
Qed.

Lemma filter_Forall_id {A} (P : A -> Prop) `{forall x, Decision (P x)} (l : list A) :
  Forall P l -> filter P l = l.
Proof.
  induction 1 as [|x l Hx _ IH]; [done|].
  rewrite filter_cons_True by done. by rewrite IH.
Qed.

Lemma score_leb_pos (v1 v2 : score) : score_pos v1 -> score_leb v1 v2 -> score_pos v2.
Proof.
  rewrite !score_pos_lt. unfold score_leb. rewrite Is_true_true, Qle_bool_iff.
  intros H1 H2. by eapply Qlt_le_trans.
Qed.

Section TopK.
Context `{SI : SetIter} `{AS : Argsort}.

Lemma ranking_descending (tscores : list score) :
  StronglySorted (fun i j => score_leb (score_at tscores j) (score_at tscores i))
                 (reverse (argsort tscores)).
Proof. apply (StronglySorted_reverse _ _ (argsort_ascending tscores)). Qed.

Lemma score_at_positive (s1 s2 : list string) (src_freqs trg_freqs : gmap string Q)
    (v : score) :
  tesserae_score s1 s2 src_freqs trg_freqs min_freq = Ok v ->
  (score_pos v <-> (0 < score_R v)%R).
Proof. intros H. apply score_pos_R. by eapply tesserae_score_wf. Qed.

End TopK.

(** X13: the ranker returns the best candidates.  If a candidate of
    [trg] scores above zero against [src[k]] and is not in the row of
    [src[k]], then the row is full (it has exactly [at] entries) and every
    entry of it scores at least as high as that candidate. *)
Theorem tesserae_baseline_top_k `{SI : SetIter} `{AS : Argsort}
    (src trg : list (list string)) (src_freqs trg_freqs : gmap string Q)
    (at_ : Z) (m : method) (recall : Q) (output : list (list (nat * score * nat)))
    (k j : nat) (s1 s2 : list string) (row : list (nat * score * nat)) (v : score) :
  0 <= at_ ->
  tesserae_baseline src trg src_freqs trg_freqs at_ m = Ok (recall, output) ->
  src !! k = Some s1 -> output !! k = Some row ->
  trg !! j = Some s2 ->
  tesserae_score s1 s2 src_freqs trg_freqs min_freq = Ok v ->
  (0 < score_R v)%R ->
  j ∉ row.*1.*1 ->
  Z.of_nat (length row) = at_ /\
  Forall (fun c => (score_R v <= score_R c.1.2)%R) row.
Proof.
  intros Hat Hb Hk Hrow Hj Hsc Hpos Hnot.
  destruct (baseline_row_lookup _ _ _ _ _ _ _ _ _ _ Hb Hk) as (tscores & Hc & Hlen & Hout).
  rewrite Hrow in Hout. injection Hout as ->.
  rewrite scored_candidates_idxs in Hnot.
  destruct (candidate_scores_lookup _ _ _ _ _ _ _ Hc Hj) as (v' & Hv' & Hsc').
  assert (v' = v) as -> by congruence.
  assert (score_at tscores j = v) as Hsa by (unfold score_at; by rewrite Hv').
  assert (score_pos v) as Hp by (by eapply score_at_positive).
  set (L := reverse (argsort tscores)) in *.
  set (n := Z.to_nat at_).
  assert (py_slice_to at_ L = take n L) as Hslice.
  { unfold py_slice_to. by rewrite (proj2 (Z.ltb_ge at_ 0) Hat). }
  unfold top_idxs in Hnot |- *. fold L in Hnot |- *. rewrite Hslice in Hnot |- *.
  assert (j ∈ L) as HjL.
  { unfold L. rewrite elem_of_reverse. apply argsort_elem.
    by eapply lookup_lt_Some. }
  assert (j ∉ take n L) as Hjt.
  { intros Hin. apply Hnot. apply list_elem_of_filter. split; [|done]. by rewrite Hsa. }
  assert (j ∈ drop n L) as Hjd.
  { rewrite <- (take_drop n L) in HjL. apply elem_of_app in HjL as [|]; done. }
  pose proof (ranking_descending tscores) as Hs. fold L in Hs.
  rewrite <- (take_drop n L) in Hs.
  assert (forall i, i ∈ take n L -> score_leb v (score_at tscores i)) as Hge.
  { intros i Hi. rewrite <- Hsa.
    exact (StronglySorted_app_1_elem_of _ _ _ i j Hs Hi Hjd). }
  assert (Forall (fun i => score_pos (score_at tscores i)) (take n L)) as Hall.
  { apply Forall_forall. intros i Hi. eapply score_leb_pos; [exact Hp | by apply Hge]. }
  rewrite (filter_Forall_id _ _ Hall). split.
  - unfold scored_candidates. rewrite length_fmap, length_take.
    assert (n < length L)%nat; [|lia].
    destruct (decide (n < length L)%nat) as [|Hn]; [done|].
    rewrite drop_ge in Hjd by lia. by apply elem_of_nil in Hjd.
  - unfold scored_candidates. apply Forall_fmap, Forall_forall. intros i Hi. simpl.
    rewrite Forall_forall in Hall.
    apply score_leb_R; [by eapply tesserae_score_wf | | by apply Hge].
    apply score_pos_wf. by apply Hall.
Qed.

Lemma tesserae_baseline_top_k_witness :
  Z.of_nat (length [(1%nat, Log (4 # 2), 2%nat)]) = 1 /\
  Forall (fun c => (score_R (Log (4 # 2)) <= score_R c.1.2)%R)
         [(1%nat, Log (4 # 2), 2%nat)].
Proof.
  apply (tesserae_baseline_top_k (SI := dedup_iter) (AS := stable_argsort)
           [ab_segment] [ab_segment; ab_segment] freqs_1_1 freqs_1_1 1 min_freq 0%Q
           [[(1%nat, Log (4 # 2), 2%nat)]] 0%nat 0%nat ab_segment ab_segment).
  - lia.
  - vm_compute. reflexivity.
  - reflexivity.
  - reflexivity.
  - reflexivity.
  - vm_compute. reflexivity.
  - simpl. rewrite <- ln_1. apply ln_increasing; unfold Q2R; simpl; lra.
  - simpl. rewrite list_elem_of_singleton. lia.
Defined.

(** X14: with a cutoff at least as large as the candidate pool nothing is
    cut off: the row of [src[k]] lists exactly the candidates of [trg]
    that score above zero against it. *)
Theorem tesserae_baseline_large_cutoff `{SI : SetIter} `{AS : Argsort}
    (src trg : list (list string)) (src_freqs trg_freqs : gmap string Q)
    (at_ : Z) (m : method) (recall : Q) (output : list (list (nat * score * nat)))
    (k : nat) (s1 : list string) (row : list (nat * score * nat)) :
  Z.of_nat (length trg) <= at_ ->
  tesserae_baseline src trg src_freqs trg_freqs at_ m = Ok (recall, output) ->
  src !! k = Some s1 -> output !! k = Some row ->
  forall i, i ∈ row.*1.*1 <->
            exists s2 v, trg !! i = Some s2 /\
                         tesserae_score s1 s2 src_freqs trg_freqs min_freq = Ok v /\
                         (0 < score_R v)%R.
Proof.
  intros Hat Hb Hk Hrow i.
  destruct (baseline_row_lookup _ _ _ _ _ _ _ _ _ _ Hb Hk) as (tscores & Hc & Hlen & Hout).
  rewrite Hrow in Hout. injection Hout as ->.
  rewrite scored_candidates_idxs. unfold top_idxs, py_slice_to.
  rewrite (proj2 (Z.ltb_ge at_ 0)) by lia.
  rewrite take_ge by (rewrite length_reverse, argsort_perm, length_seq; lia).
  rewrite list_elem_of_filter, elem_of_reverse, argsort_elem, Hlen. split.
  - intros [Hp Hlt].
    destruct (lookup_lt_is_Some_2 trg i Hlt) as [s2 Hs2].
    destruct (candidate_scores_lookup _ _ _ _ _ _ _ Hc Hs2) as (v & Hv & Hsc).
    exists s2, v. split; [done|]. split; [done|].
    unfold score_at in Hp. rewrite Hv in Hp. simpl in Hp.
    by apply (score_at_positive _ _ _ _ _ Hsc).
  - intros (s2 & v & Hs2 & Hsc & Hpos).
    destruct (candidate_scores_lookup _ _ _ _ _ _ _ Hc Hs2) as (v' & Hv' & Hsc').
    assert (v' = v) as -> by congruence. split.
    + unfold score_at. rewrite Hv'. simpl. by apply (score_at_positive _ _ _ _ _ Hsc).
    + by eapply lookup_lt_Some.
Qed.

Lemma tesserae_baseline_large_cutoff_witness :
  0%nat ∈ [(1%nat, Log (4 # 2), 2%nat); (0%nat, Log (4 # 2), 2%nat)].*1.*1 <->
  exists s2 v, [ab_segment; ab_segment] !! 0%nat = Some s2 /\
               tesserae_score (SI := dedup_iter) ab_segment s2 freqs_1_1 freqs_1_1 min_freq
                 = Ok v /\
               (0 < score_R v)%R.
Proof.
  apply (tesserae_baseline_large_cutoff (SI := dedup_iter) (AS := stable_argsort)
           [ab_segment] [ab_segment; ab_segment] freqs_1_1 freqs_1_1 2 min_freq 1%Q
           [[(1%nat, Log (4 # 2), 2%nat); (0%nat, Log (4 # 2), 2%nat)]] 0%nat ab_segment).
  - simpl. lia.
  - vm_compute. reflexivity.
  - reflexivity.
  - reflexivity.
Defined.

(** ** [random_baseline] *)

Section RandomBaselineFacts.
Context {Id Seg : Type} `{EqDecision Id}.

Lemma random_hit_bounds (pool : list Id) (perm : list nat) (at_ : Z) (x : Id) :
  0 <= random_hit pool perm at_ x <= 1.
Proof. unfold random_hit. destruct (bool_decide _); lia. Qed.

Lemma permuted_pool (pool : list Id) (perm : list nat) (x : Id) :
  perm ≡ₚ seq 0 (length pool) -> x ∈ pool ->
  x ∈ omap (fun i => pool !! i) perm.
Proof.
  intros Hp [i Hi]%list_elem_of_lookup. apply list_elem_of_omap.
  exists i. split; [|done]. rewrite Hp. apply elem_of_seq.
  apply lookup_lt_Some in Hi. lia.
Qed.

Lemma length_omap_le {A B} (f : A -> option B) (l : list A) :
  (length (omap f l) <= length l)%nat.
Proof.
  induction l as [|x l IH]; [done|].
  cbn [omap list_omap]. destruct (f x); cbn [length]; fold (omap f l); lia.
Qed.

Lemma sum_Z_ones (hs : list Z) :
  Forall (fun h => h = 1) hs -> sum_Z hs = Z.of_nat (length hs).
Proof.
  induction 1 as [|h hs -> _ IH]; [done|]. rewrite sum_Z_cons, IH. simpl length. lia.
Qed.

Lemma sum_Z_zeros (hs : list Z) :
  Forall (fun h => h = 0) hs -> sum_Z hs = 0.
Proof.
  induction 1 as [|h hs -> _ IH]; [done|]. rewrite sum_Z_cons, IH. lia.
Qed.

Lemma random_baseline_unfold (gold background : list (Id * Seg)) (perms : nat -> list nat)
    (at_ n_background : Z) :
  gold <> [] ->
  random_baseline gold background perms at_ n_background =
  Ok (inject_Z (sum_Z (imap (fun doc x =>
                               random_hit (random_pool gold background n_background)
                                          (perms doc) at_ x) gold.*1))
      / inject_Z (Z.of_nat (length gold)))%Q.
Proof.
  intros Hne. unfold random_baseline, unzip_ids.
  destruct gold as [|g gold]; [done|]. cbn [mbind result_bind].
  rewrite py_div_Ok; [by rewrite length_fmap|].
  unfold Qeq. simpl. lia.
Qed.

End RandomBaselineFacts.

(** X15: when the cutoff is at least the size of the candidate pool (the
    truncated background plus the gold ids), every gold id is among the
    first [at] of any permutation of the pool, and the random baseline
    reports a recall of one. *)
Theorem random_baseline_full_recall {Id Seg : Type} `{EqDecision Id}
    (gold background : list (Id * Seg)) (perms : nat -> list nat)
    (at_ n_background : Z) :
  gold <> [] ->
  (forall doc, perms doc ≡ₚ seq 0 (length (random_pool gold background n_background))) ->
  Z.of_nat (length (random_pool gold background n_background)) <= at_ ->
  exists r, random_baseline gold background perms at_ n_background = Ok r /\ (r == 1)%Q.
Proof.
  intros Hne Hperm Hat. rewrite random_baseline_unfold by done.
  eexists. split; [done|].
  rewrite sum_Z_ones.
  - rewrite length_imap, length_fmap. apply Qmult_inv_r.
    unfold Qeq. simpl. destruct gold; [done | simpl; lia].
  - apply Forall_forall. intros h Hh.
    apply elem_of_lookup_imap in Hh as (doc & x & -> & Hx).
    unfold random_hit. rewrite bool_decide_eq_true_2; [done|].
    unfold py_slice_to. rewrite (proj2 (Z.ltb_ge at_ 0)) by lia.
    rewrite take_ge.
    + apply permuted_pool; [apply Hperm|].
      unfold random_pool. apply elem_of_app. right. by eapply list_elem_of_lookup_2.
    + pose proof (length_omap_le
                    (fun i => random_pool gold background n_background !! i) (perms doc)).
      pose proof (Permutation_length (Hperm doc)) as Hl. rewrite length_seq in Hl. lia.
Qed.

Lemma random_baseline_full_recall_witness :
  exists r, random_baseline [("g1", tt); ("g2", tt)] [("b1", tt)]
              (fun doc => [2%nat; 0%nat; 1%nat]) 5 1 = Ok r /\ (r == 1)%Q.
Proof.
  apply (random_baseline_full_recall [("g1", tt); ("g2", tt)] [("b1", tt)]
           (fun doc => [2%nat; 0%nat; 1%nat]) 5 1).
  - discriminate.
  - intros doc. vm_compute.
    etrans; [apply perm_swap | apply perm_skip, perm_swap].
  - vm_compute. discriminate.
Defined.

(** X16: the random baseline fails with [ValueError] on an empty gold set
    (there is nothing to unpack the ids from); on a non-empty one it
    returns a recall between [0] and [1], which is [0] when the cutoff is
    [0]. *)
Theorem random_baseline_outcome {Id Seg : Type} `{EqDecision Id}
    (gold background : list (Id * Seg)) (perms : nat -> list nat)
    (at_ n_background : Z) :
  (gold = [] ->
   random_baseline gold background perms at_ n_background = Raise ValueError) /\
  (gold <> [] ->
   exists r, random_baseline gold background perms at_ n_background = Ok r /\
             (0 <= r <= 1)%Q /\ (at_ = 0 -> (r == 0)%Q)).
Proof.
  split; [by intros ->|].
  intros Hne. rewrite random_baseline_unfold by done.
  eexists. split; [done|].
  assert (0 < inject_Z (Z.of_nat (length gold)))%Q as Hpos.
  { rewrite <- (Zlt_Qlt 0). destruct gold; [done | simpl; lia]. }
  match goal with |- context [sum_Z ?l] => set (hs := l) end.
  assert (Forall (fun h => 0 <= h <= 1) hs) as Hb.
  { apply Forall_forall. intros h Hh.
    apply elem_of_lookup_imap in Hh as (doc & x & -> & _). apply random_hit_bounds. }
  pose proof (sum_Z_bounds hs Hb) as [Hlo Hhi].
  assert (length hs = length gold) as Hlen by (unfold hs; by rewrite length_imap, length_fmap).
  rewrite Hlen in Hhi.
  split; [split|].
  - apply Qle_shift_div_l; [done|]. rewrite Qmult_0_l. by rewrite <- (Zle_Qle 0).
  - apply Qle_shift_div_r; [done|]. rewrite Qmult_1_l. by rewrite <- Zle_Qle.
  - intros ->. rewrite sum_Z_zeros; [reflexivity|].
    apply Forall_forall. intros h Hh.
    apply elem_of_lookup_imap in Hh as (doc & x & -> & _).
    unfold random_hit, py_slice_to. cbn [Z.ltb Z.compare Z.to_nat take].
    rewrite bool_decide_eq_false_2; [done | apply not_elem_of_nil].
Qed.

(** ** [chunks] and [window] *)

Section StreamFacts.
Context {A : Type}.

Lemma chunks_from_concat (size : Z) (buf it : list A) :
  concat (chunks_from size buf it) = (buf ++ it)%list.
Proof.
  revert buf. induction it as [|s it IH]; intros buf; simpl.
  - rewrite app_nil_r. destruct buf; [done|]. simpl. by rewrite app_nil_r.
  - destruct (Z.of_nat (length (buf ++ [s])) =? size); simpl.
    + by rewrite IH, <- app_assoc.
    + by rewrite IH, <- app_assoc.
Qed.

Lemma chunks_from_sizes (size : Z) (buf it : list A) :
  Z.of_nat (length buf) < size ->
  Forall (fun c => 1 <= Z.of_nat (length c) <= size) (chunks_from size buf it) /\
  (forall k c, chunks_from size buf it !! k = Some c ->
               (S k < length (chunks_from size buf it))%nat ->
               Z.of_nat (length c) = size) /\
  Z.of_nat (length (chunks_from size buf it))
    = (Z.of_nat (length buf) + Z.of_nat (length it) + size - 1) / size.
Proof.
  revert buf. induction it as [|s it IH]; intros buf Hbuf; simpl.
  - destruct buf as [|b buf]; simpl in *.
    + split; [constructor|]. split; [done|].
      symmetry. apply Z.div_small. lia.
    + split; [repeat constructor; simpl; lia|]. split.
      * intros k c _ Hk. simpl in Hk. lia.
      * apply Z.div_unique with (Z.of_nat (S (length buf)) - 1); lia.
  - rewrite length_app in *. simpl length in *.
    destruct (Z.of_nat (length buf + 1) =? size) eqn:E.
    + apply Z.eqb_eq in E.
      destruct (IH [] ltac:(simpl; lia)) as (Hall & Hfull & Hlen).
      split; [|split].
      * constructor; [|done]. rewrite length_app. simpl. lia.
      * intros [|k] c; simpl.
        -- intros [= <-] _. rewrite length_app. simpl. lia.
        -- intros Hc Hk. apply (Hfull k c Hc). lia.
      * simpl length. rewrite Nat2Z.inj_succ, Hlen. simpl length.
        replace (Z.of_nat (length buf) + Z.of_nat (S (length it)) + size - 1)
          with (0 + Z.of_nat (length it) + size - 1 + 1 * size) by lia.
        rewrite Z.div_add by lia. lia.
    + apply Z.eqb_neq in E.
      destruct (IH (buf ++ [s])%list) as (Hall & Hfull & Hlen).
      { rewrite length_app. simpl. lia. }
      split; [done|]. split; [done|].
      rewrite Hlen, length_app. simpl length. f_equal. lia.
Qed.

End StreamFacts.

(** X17: [chunks] loses nothing and reorders nothing: the chunks put end
    to end are the input, for any [size]. *)
Theorem chunks_concat {A : Type} (it : list A) (size : Z) :
  concat (chunks it size) = it.
Proof. unfold chunks. by rewrite chunks_from_concat. Qed.

(** X18: for a size of at least one, every chunk holds between [1] and
    [size] items, every chunk but the last holds exactly [size], and there
    are [ceil(len(it) / size)] chunks. *)
Theorem chunks_sizes {A : Type} (it : list A) (size : Z) :
  1 <= size ->
  Forall (fun c => 1 <= Z.of_nat (length c) <= size) (chunks it size) /\
  (forall k c, chunks it size !! k = Some c ->
               (S k < length (chunks it size))%nat ->
               Z.of_nat (length c) = size) /\
  Z.of_nat (length (chunks it size)) = (Z.of_nat (length it) + size - 1) / size.
Proof.
  intros Hsize. unfold chunks.
  destruct (chunks_from_sizes size [] it) as (H1 & H2 & H3); [simpl; lia|].
  split; [done|]. split; [done|]. rewrite H3. simpl. f_equal.
Qed.

Lemma chunks_sizes_witness :
  Forall (fun c => 1 <= Z.of_nat (length c) <= 2) (chunks [1; 2; 3; 4; 5] 2) /\
  (forall k c, chunks [1; 2; 3; 4; 5] 2 !! k = Some c ->
               (S k < length (chunks [1; 2; 3; 4; 5] 2))%nat ->
               Z.of_nat (length c) = 2) /\
  Z.of_nat (length (chunks [1; 2; 3; 4; 5] 2)) = (Z.of_nat (length [1; 2; 3; 4; 5]) + 2 - 1) / 2.
Proof. apply (chunks_sizes [1; 2; 3; 4; 5] 2). lia. Defined.

(** X19: a size that is never reached disables the chunking: with
    [size <= 0], or [size] larger than the input, a non-empty input comes
    out as one chunk (and an empty input as no chunk at all). *)
Theorem chunks_unreached_size {A : Type} (it : list A) (size : Z) :
  size <= 0 \/ Z.of_nat (length it) < size ->
  chunks it size = match it with [] => [] | _ => [it] end.
Proof.
  intros Hsize. unfold chunks.
  assert (forall buf (rest : list A),
            size <= 0 \/ Z.of_nat (length buf) + Z.of_nat (length rest) < size ->
            chunks_from size buf rest
              = match (buf ++ rest)%list with [] => [] | _ => [(buf ++ rest)%list] end) as Hgen.
  { intros buf rest. revert buf. induction rest as [|s rest IH]; intros buf Hb; simpl.
    - rewrite app_nil_r. by destruct buf.
    - rewrite length_app. simpl length.
      destruct (Z.of_nat (length buf + 1) =? size) eqn:E.
      + apply Z.eqb_eq in E. simpl length in Hb. lia.
      + rewrite IH.
        * by rewrite <- app_assoc.
        * rewrite length_app. simpl length in *. lia. }
  rewrite Hgen; [done|]. simpl. lia.
Qed.

Lemma chunks_unreached_size_witness :
  chunks [1; 2; 3] 0 = [[1; 2; 3]].
Proof. apply (chunks_unreached_size [1; 2; 3] 0). left. lia. Defined.

Section WindowFacts.
Context {A : Type}.

Lemma window_rest_lookup (rest : list (option A)) (a b c : option A) (k : nat) :
  ((a, b, c) :: window_rest (a, b, c) rest) !! k =
  (x ← (a :: b :: c :: rest) !! k;
   y ← (a :: b :: c :: rest) !! S k;
   z ← (a :: b :: c :: rest) !! S (S k);
   Some (x, y, z)).
Proof.
  revert a b c k. induction rest as [|e rest IH]; intros a b c k.
  - destruct k as [|[|[|k]]]; reflexivity.
  - destruct k as [|k]; [reflexivity|].
    change (((b, c, e) :: window_rest (b, c, e) rest) !! k =
            (x ← (b :: c :: e :: rest) !! k;
             y ← (b :: c :: e :: rest) !! S k;
             z ← (b :: c :: e :: rest) !! S (S k);
             Some (x, y, z))).
    apply IH.
Qed.

Lemma padded_lookup (it : list (option A)) (k : nat) :
  (it ++ [None])%list !! k =
  if decide (k < length it)%nat then it !! k
  else if decide (k = length it) then Some None else None.
Proof.
  destruct (decide (k < length it)%nat) as [Hlt|Hge].
  - by apply lookup_app_l.
  - rewrite lookup_app_r by lia. destruct (decide (k = length it)) as [->|Hne].
    + by rewrite Nat.sub_diag.
    + destruct (k - length it)%nat as [|n] eqn:E; [lia | done].
Qed.

End WindowFacts.

Lemma window_lookup_eq {A : Type} (it : list (option A)) (k : nat) :
  window it !! k = (fun x => (before it k, x, after it k)) <$> it !! k.
Proof.
  unfold window.
    destruct it as [|x it]; [by destruct k|].
    destruct (it ++ [None])%list as [|c rest] eqn:E.
    { by destruct it. }
    cbn [app]. rewrite E. rewrite window_rest_lookup, <- E.
    change ((None :: x :: (it ++ [None])%list) !! S k) with (((x :: it) ++ [None])%list !! k).
    change ((None :: x :: (it ++ [None])%list) !! S (S k))
      with (((x :: it) ++ [None])%list !! S k).
    rewrite !padded_lookup.
    destruct (decide (k < length (x :: it))%nat) as [Hlt|Hge].
    - destruct (lookup_lt_is_Some_2 (x :: it) k Hlt) as [y Hy]. rewrite Hy.
      assert ((None :: x :: (it ++ [None])%list) !! k = Some (before (x :: it) k)) as ->.
      { destruct k as [|k]; [done|]. unfold before.
        change ((None :: x :: (it ++ [None])%list) !! S k)
          with (((x :: it) ++ [None])%list !! k).
        rewrite padded_lookup. rewrite decide_True by lia.
        destruct (lookup_lt_is_Some_2 (x :: it) k ltac:(lia)) as [z Hz]. by rewrite Hz. }
      cbn [mbind option_bind fmap option_fmap option_map]. unfold after.
      destruct (decide (S k < length (x :: it))%nat) as [Hlt'|Hge'].
      + destruct (lookup_lt_is_Some_2 (x :: it) (S k) Hlt') as [z Hz]. by rewrite Hz.
      + rewrite decide_True by lia.
        by rewrite (lookup_ge_None_2 (x :: it) (S k)) by lia.
    - rewrite (lookup_ge_None_2 (x :: it) k) by lia.
      destruct (decide (S k < length (x :: it))%nat); [lia|].
      destruct (decide (S k = length (x :: it))); [lia|].
      cbn [fmap option_fmap option_map].
      destruct ((None :: x :: (it ++ [None])%list) !! k) as [p|]; [|done].
      cbn [mbind option_bind].
      by destruct (if decide (k = length (x :: it)) then Some None else None).
Qed.

(** X20: [window] yields one triple per element of the stream: the
    [k]-th triple is the [k]-th element between the element before it and
    the element after it, with [None] beyond either end.  In particular
    it yields [len(it)] triples whose middle components are the stream
    itself, and nothing on an empty stream. *)
Theorem window_lookup {A : Type} (it : list (option A)) :
  (forall k, window it !! k = (fun x => (before it k, x, after it k)) <$> it !! k) /\
  length (window it) = length it /\
  (window it).*1.*2 = it.
Proof.
  pose proof (window_lookup_eq it) as Hlookup.
  assert (length (window it) = length it) as Hlen.
  { destruct (decide (length (window it) = length it)) as [|Hne]; [done|]. exfalso.
    destruct (decide (length (window it) < length it)%nat).
    - pose proof (Hlookup (length (window it))) as H.
      rewrite lookup_ge_None_2 in H by lia.
      destruct (lookup_lt_is_Some_2 it (length (window it)) ltac:(lia)) as [y Hy].
      by rewrite Hy in H.
    - pose proof (Hlookup (length it)) as H.
      rewrite (lookup_ge_None_2 it) in H by lia.
      destruct (lookup_lt_is_Some_2 (window it) (length it) ltac:(lia)) as [y Hy].
      by rewrite Hy in H. }
  split; [done|]. split; [done|].
  apply list_eq. intros k. rewrite !list_lookup_fmap, Hlookup.
  by destruct (it !! k).
Qed.

(** ** The buffer of sentence pairs *)

Section BufferFacts.
Context {A : Type}.

Lemma window_imap (it : list (option A)) :
  window it = imap (fun k x => (before it k, x, after it k)) it.
Proof.
  apply list_eq. intros k. by rewrite window_lookup_eq, list_lookup_imap.
Qed.

Lemma omap_imap_length_le {B C D} (f : C -> option D) (g g' : nat -> B -> C) (l : list B) :
  (forall k x, l !! k = Some x -> is_Some (f (g k x)) -> is_Some (f (g' k x))) ->
  (length (omap f (imap g l)) <= length (omap f (imap g' l)))%nat.
Proof.
  revert g g'. induction l as [|x l IH]; intros g g' H; [done|].
  cbn [imap omap list_omap].
  pose proof (IH (g ∘ S) (g' ∘ S) (fun k y Hk => H (S k) y Hk)) as IH'.
  pose proof (H 0%nat x eq_refl) as H0.
  destruct (f (g 0%nat x)) as [d|].
  - destruct H0 as [d' ->]; [by eexists|]. simpl. lia.
  - destruct (f (g' 0%nat x)); simpl; lia.
Qed.

Lemma before_app_l (l1 l2 : list (option A)) (k : nat) :
  (k < length l1)%nat -> before (l1 ++ l2)%list k = before l1 k.
Proof.
  intros Hk. destruct k as [|k]; [done|]. unfold before.
  by rewrite lookup_app_l by lia.
Qed.

Lemma after_app_r (l1 l2 : list (option A)) (k : nat) :
  after (l1 ++ l2)%list (length l1 + k) = after l2 k.
Proof.
  unfold after. replace (S (length l1 + k)) with (length l1 + S k)%nat by lia.
  by rewrite lookup_app_r, Nat.add_comm, Nat.add_sub by lia.
Qed.

Lemma after_app_l (l1 l2 : list (option A)) (k : nat) (n : A) :
  after l1 k = Some n -> after (l1 ++ l2)%list k = Some n.
Proof.
  unfold after. intros H.
  destruct (l1 !! S k) as [x|] eqn:E; [|done].
  by rewrite (lookup_app_l_Some _ _ _ _ E).
Qed.

Lemma before_app_r (l1 l2 : list (option A)) (k : nat) (p : A) :
  before l2 k = Some p -> before (l1 ++ l2)%list (length l1 + k) = Some p.
Proof.
  destruct k as [|k]; [done|]. unfold before. intros H.
  replace (length l1 + S k)%nat with (S (length l1 + k)) by lia.
  by rewrite lookup_app_r, Nat.add_comm, Nat.add_sub by lia.
Qed.

Lemma buffer_entry_mono (b1 b2 : bool) (p p' n n' : option A) (x : option A) :
  (forall y, p = Some y -> p' = Some y) ->
  (forall y, n = Some y -> n' = Some y) ->
  is_Some (buffer_entry b1 b2 (p, x, n)) -> is_Some (buffer_entry b1 b2 (p', x, n')).
Proof.
  intros Hp Hn. unfold buffer_entry.
  destruct x as [c|]; [|done].
  destruct p as [y|]; [rewrite (Hp y eq_refl)|];
    (destruct n as [z|]; [rewrite (Hn z eq_refl)|]);
    destruct b1, b2, p', n'; simpl; intros H; try done; by inversion H.
Qed.

Lemma buffer_entry_both (p n : option A) (x : option A) (b1 b2 : bool) :
  b1 || b2 ->
  is_Some (buffer_entry true true (p, x, n)) -> is_Some (buffer_entry b1 b2 (p, x, n)).
Proof.
  unfold buffer_entry. destruct x as [c|]; [|done].
  destruct p, n, b1, b2; simpl; intros ? H; try done; by inversion H.
Qed.

Lemma buffer_of_chunk_app (b1 b2 : bool) (l1 l2 : list (option A)) :
  (length (buffer_of_chunk b1 b2 l1) + length (buffer_of_chunk b1 b2 l2)
   <= length (buffer_of_chunk b1 b2 (l1 ++ l2)%list))%nat.
Proof.
  unfold buffer_of_chunk. rewrite !window_imap, imap_app, omap_app, length_app.
  apply Nat.add_le_mono.
  - apply omap_imap_length_le. intros k x Hk.
    pose proof (lookup_lt_Some _ _ _ Hk) as Hlt.
    rewrite before_app_l by done.
    apply buffer_entry_mono; [done|]. apply after_app_l.
  - apply omap_imap_length_le. intros k x Hk. rewrite after_app_r.
    apply buffer_entry_mono; [|done]. apply before_app_r.
Qed.

Lemma pairs_of_chunks_concat (b1 b2 : bool) (cs : list (list (option A))) :
  (pairs_of_chunks b1 b2 cs <= length (buffer_of_chunk b1 b2 (concat cs)))%nat.
Proof.
  unfold pairs_of_chunks. induction cs as [|c cs IH]; [simpl; lia|].
  rewrite fmap_cons.
  change (concat (c :: cs)) with (c ++ concat cs)%list.
  pose proof (buffer_of_chunk_app b1 b2 c (concat cs)) as H.
  etransitivity; [|exact H].
  change (sum_list (?x :: ?l)) with (x + sum_list l)%nat. lia.
Qed.

End BufferFacts.

(** X29: what [batch_generator] buffers from a chunk.  [(current, ctx)]
    is buffered exactly when [current] is a line of the chunk (not a
    [None] marker) at some position [k] and its included neighbours at
    [k] are lines too: both of them as a tuple for [includes = (True,
    True)], the line before for [(True, False)], the line after for
    [(False, True)]; with [(False, False)] nothing is buffered.  A line
    at either end of the chunk, or next to a [None], is skipped when its
    missing neighbour is included.
    (Source: dataiter.py, DataIter.batch_generator with window.) *)
Theorem buffer_of_chunk_elem {A : Type} (self_prevline self_nextline : bool)
    (chunk : list (option A)) (current : A) (ctx : context A) :
  (current, ctx) ∈ buffer_of_chunk self_prevline self_nextline chunk <->
  exists k, chunk !! k = Some (Some current) /\
            context_at self_prevline self_nextline chunk k ctx.
Proof.
  unfold buffer_of_chunk. rewrite list_elem_of_omap. split.
  - intros ([[p x] n] & Ht & He).
    apply list_elem_of_lookup in Ht as [k Hk].
    rewrite window_lookup_eq in Hk.
    destruct (chunk !! k) as [y|] eqn:Ey; [|done].
    injection Hk as <- <- <-. exists k.
    unfold buffer_entry in He. destruct y as [c|]; [|done].
    unfold context_at.
    destruct self_prevline, self_nextline, (before chunk k) as [p|], (after chunk k) as [n|];
      simpl in He; try done; injection He as <- <-; (split; [done|]); eauto.
  - intros (k & Hk & Hc).
    exists (before chunk k, Some current, after chunk k). split.
    + apply list_elem_of_lookup. exists k. by rewrite window_lookup_eq, Hk.
    + unfold context_at in Hc. unfold buffer_entry.
      destruct self_prevline, self_nextline; simpl.
      * destruct Hc as (p & n & -> & -> & ->). done.
      * destruct Hc as (p & -> & ->). done.
      * destruct Hc as (n & -> & ->). done.
      * done.
Qed.

(** X30: the two remarks on the number of pairs at the head of
    [DataIter].  "Selecting both contexts results in less pairs": with
    [includes = (True, True)] a chunk gives at most as many entries as
    with [(True, False)] or with [(False, True)].  "Larger chunks =>
    more pairs": the chunks of a stream together give at most as many
    entries as the stream taken as a single chunk, whatever the chunk
    size, since the lines on both sides of a split point lose a neighbour.
    (Source: dataiter.py, DataIter.batch_generator with chunks and window.) *)
Theorem buffer_of_chunk_counts {A : Type} (self_prevline self_nextline : bool)
    (it : list (option A)) (size : Z) :
  (length (buffer_of_chunk true true it) <= length (buffer_of_chunk true false it))%nat /\
  (length (buffer_of_chunk true true it) <= length (buffer_of_chunk false true it))%nat /\
  (pairs_of_chunks self_prevline self_nextline (chunks it size)
   <= length (buffer_of_chunk self_prevline self_nextline it))%nat.
Proof.
  assert (forall b1 b2 : bool, b1 || b2 ->
            (length (buffer_of_chunk true true it)
             <= length (buffer_of_chunk b1 b2 it))%nat) as Hboth.
  { intros b1 b2 Hb. unfold buffer_of_chunk. rewrite !window_imap.
    generalize (fun (k : nat) (x : option A) => (before it k, x, after it k)).
    intros g. induction it as [|x it IH] in g |- *; [done|].
    cbn [imap omap list_omap].
    pose proof (IH (g ∘ S)) as IH'.
    destruct (g 0%nat x) as [[p y] n] eqn:E.
    pose proof (buffer_entry_both p n y _ _ Hb) as Hm.
    destruct (buffer_entry true true (p, y, n)).
    - destruct Hm as [d ->]; [by eexists|]. simpl. lia.
    - destruct (buffer_entry b1 b2 (p, y, n)); simpl; lia. }
  split; [by apply Hboth|]. split; [by apply Hboth|].
  pose proof (pairs_of_chunks_concat self_prevline self_nextline (chunks it size)) as H.
  unfold chunks in H. by rewrite chunks_from_concat in H.
Qed.

(** ** [count_feats] *)

Lemma Q_square_nonneg (x : Q) : (0 <= x * x)%Q.
Proof.
  unfold Qle, Qmult. simpl. rewrite Z.mul_1_r. apply Z.square_nonneg.
Qed.

Lemma Q_sum_inverse_ge_2 (q : Q) : (0 < q)%Q -> (2 <= q + / q)%Q.
Proof.
  intros Hq.
  assert (~ q == 0)%Q as Hne by (intros E; rewrite E in Hq; by apply Qlt_irrefl in Hq).
  apply Qle_minus_iff.
  assert (q + / q + - (2) == (q - 1) * (q - 1) * / q)%Q as -> by (field; exact Hne).
  apply Qmult_le_0_compat.
  - apply Q_square_nonneg.
  - apply Qlt_le_weak, Qinv_lt_0_compat, Hq.
Qed.

Lemma inject_nat_pos (n : nat) : (0 < n)%nat -> (0 < inject_Z (Z.of_nat n))%Q.
Proof. intros H. rewrite <- (Zlt_Qlt 0). lia. Qed.

Lemma inject_nat_zero (n : nat) : (inject_Z (Z.of_nat n) == 0)%Q <-> n = 0%nat.
Proof. unfold Qeq. simpl. lia. Qed.

Lemma token_set_size_pos (t : list string) : t <> [] -> (0 < size (token_set t))%nat.
Proof.
  intros Hne. destruct t as [|w t]; [done|].
  assert (size (token_set (w :: t)) <> 0%nat); [|lia].
  intros H%size_empty_inv. unfold token_set in H.
  assert (w ∈ (list_to_set (w :: t) : gset string)) as Hw.
  { apply elem_of_list_to_set. by left. }
  rewrite H in Hw. by apply elem_of_empty in Hw.
Qed.

Lemma token_set_size_zero (t : list string) : size (token_set t) = 0%nat <-> t = [].
Proof.
  split; [|by intros ->].
  intros H. destruct t as [|w t]; [done|].
  pose proof (token_set_size_pos (w :: t) ltac:(done)). lia.
Qed.

Section CountFeatsFacts.
Variable is_number : string -> bool.

Lemma pair_feats_nonempty (tA tB : list string) :
  tA <> [] -> tB <> [] ->
  pair_feats is_number tA tB =
  Ok [flag (bool_decide (token_set (numbers is_number tA) = token_set (numbers is_number tB)));
      flag (bool_decide (token_set (numbers is_number tA) = token_set (numbers is_number tB))
            && bool_decide (0 < length (numbers is_number tA))%nat);
      flag (bool_decide (token_set (numbers is_number tA) ⊆ token_set (numbers is_number tB))
            || bool_decide (token_set (numbers is_number tB) ⊆ token_set (numbers is_number tA)));
      (inject_Z (Z.of_nat (size (token_set tA ∩ token_set tB)))
       / inject_Z (Z.of_nat (size (token_set tA))))%Q;
      (inject_Z (Z.of_nat (size (token_set tA ∩ token_set tB)))
       / inject_Z (Z.of_nat (size (token_set tB))))%Q;
      ((1 # 2) * (inject_Z (Z.of_nat (length tA)) / inject_Z (Z.of_nat (length tB))
                  + inject_Z (Z.of_nat (length tB)) / inject_Z (Z.of_nat (length tA))))%Q].
Proof.
  intros HA HB. unfold pair_feats.
  rewrite !py_div_Ok; [done|..]; rewrite inject_nat_zero, ?token_set_size_zero;
    first [done | by destruct tA | by destruct tB].
Qed.

Lemma pair_feats_empty (tA tB : list string) :
  tA = [] \/ tB = [] -> pair_feats is_number tA tB = Raise ZeroDivisionError.
Proof.
  intros H. unfold pair_feats.
  destruct tA as [|a tA]; [reflexivity|].
  destruct H as [H| ->]; [done|].
  rewrite (py_div_Ok _ (inject_Z (Z.of_nat (size (token_set (a :: tA)))))).
  - reflexivity.
  - rewrite inject_nat_zero, token_set_size_zero. done.
Qed.

End CountFeatsFacts.

Section CountFeatsClaims.
Variable is_number : string -> bool.

Lemma pair_feats_cases (tA tB : list string) :
  (tA <> [] /\ tB <> []) \/ (tA = [] \/ tB = []).
Proof. destruct tA, tB; auto. Qed.

Lemma numbers_nonempty_iff (t : list string) :
  (0 < length (numbers is_number t))%nat <-> token_set (numbers is_number t) <> ∅.
Proof.
  unfold token_set. destruct (numbers is_number t) as [|w l].
  - split; [simpl; lia | done].
  - split; [|simpl; lia]. intros _ H.
    assert (w ∈ (list_to_set (w :: l) : gset string)) as Hw
      by (apply elem_of_list_to_set; by left).
    rewrite H in Hw. by apply elem_of_empty in Hw.
Qed.

(** X21: [count_feats] returns exactly when no paired sentence is empty;
    otherwise it raises, and the only exception it can raise is
    [ZeroDivisionError]. *)
Theorem count_feats_returns_iff (A B : list (list string)) :
  ((exists rows, count_feats is_number A B = Ok rows) <->
   Forall (fun p => p.1 <> [] /\ p.2 <> []) (zip A B)) /\
  (forall e, count_feats is_number A B = Raise e -> e = ZeroDivisionError).
Proof.
  split; [split|].
  - intros [rows Hr]. unfold count_feats in Hr. apply bind_Ok in Hr as (rs & Hm & _).
    assert (is_ok (mapM (fun p => pair_feats is_number p.1 p.2) (zip A B))) as Hok
      by (by rewrite Hm).
    apply mapM_is_ok in Hok. eapply Forall_impl; [exact Hok|].
    intros [tA tB] H. simpl in *.
    destruct (pair_feats_cases tA tB) as [|He]; [done|].
    by rewrite (pair_feats_empty is_number tA tB He) in H.
  - intros Hall. unfold count_feats.
    assert (is_ok (mapM (fun p => pair_feats is_number p.1 p.2) (zip A B))) as Hok.
    { apply mapM_is_ok. eapply Forall_impl; [exact Hall|].
      intros [tA tB] [H1 H2]. simpl in *. by rewrite pair_feats_nonempty. }
    destruct (mapM _ (zip A B)) as [rs|]; [simpl; eauto | done].
  - intros e Hr. unfold count_feats in Hr.
    destruct (mapM _ (zip A B)) as [rs|e'] eqn:Hm; simpl in Hr; [discriminate|].
    injection Hr as ->. apply mapM_Raise in Hm as ([tA tB] & _ & Hp). simpl in Hp.
    destruct (pair_feats_cases tA tB) as [[H1 H2]|He].
    + by rewrite pair_feats_nonempty in Hp.
    + rewrite (pair_feats_empty is_number tA tB He) in Hp. congruence.
Qed.

(** X22: the feature matrix has one row of six features per sentence of
    [A]; when [B] is shorter than [A], the rows past [len(B)] are all
    zero. *)
Theorem count_feats_shape (A B : list (list string)) (rows : list (list Q)) :
  count_feats is_number A B = Ok rows ->
  length rows = length A /\
  Forall (fun row => length row = 6%nat) rows /\
  (forall k, (length B <= k < length A)%nat -> rows !! k = Some (replicate 6 0%Q)).
Proof.
  unfold count_feats. intros (rs & Hm & [= <-])%bind_Ok.
  pose proof (mapM_Ok_length _ _ _ Hm) as Hlen. rewrite length_zip in Hlen.
  split; [|split].
  - rewrite length_app, length_replicate. lia.
  - apply Forall_app. split.
    + apply Forall_forall. intros row [k Hk]%list_elem_of_lookup.
      destruct (lookup_lt_is_Some_2 (zip A B) k) as [[tA tB] Hp].
      { rewrite length_zip, <- Hlen. by eapply lookup_lt_Some. }
      destruct (mapM_Ok_lookup _ _ _ _ _ Hm Hp) as (row' & Hrow' & Hf). simpl in Hf.
      assert (row' = row) as -> by congruence.
      destruct (pair_feats_cases tA tB) as [[H1 H2]|He].
      * rewrite pair_feats_nonempty in Hf by done. by injection Hf as <-.
      * by rewrite (pair_feats_empty is_number tA tB He) in Hf.
    + apply Forall_forall. intros row [-> _]%elem_of_replicate. done.
  - intros k Hk. rewrite lookup_app_r by lia.
    apply lookup_replicate. split; [done | lia].
Qed.

End CountFeatsClaims.

Lemma count_feats_shape_witness :
  length [[1%Q; 0%Q; 1%Q; 1%Q; 1%Q; (2 # 2)%Q]; replicate 6 0%Q] = length [["a"]; ["b"; "c"]] /\
  Forall (fun row => length row = 6%nat) [[1%Q; 0%Q; 1%Q; 1%Q; 1%Q; (2 # 2)%Q]; replicate 6 0%Q] /\
  (forall k, (length [["a"]] <= k < length [["a"]; ["b"; "c"]])%nat ->
             [[1%Q; 0%Q; 1%Q; 1%Q; 1%Q; (2 # 2)%Q]; replicate 6 0%Q] !! k = Some (replicate 6 0%Q)).
Proof.
  apply (count_feats_shape (fun _ => false) [["a"]; ["b"; "c"]] [["a"]]).
  vm_compute. reflexivity.
Defined.

Lemma ratio_in_unit (a b : nat) :
  (a <= b)%nat -> (0 < b)%nat ->
  (0 <= inject_Z (Z.of_nat a) / inject_Z (Z.of_nat b) <= 1)%Q.
Proof.
  intros Hab Hb. pose proof (inject_nat_pos b Hb) as Hpos. split.
  - apply Qle_shift_div_l; [done|]. rewrite Qmult_0_l, <- (Zle_Qle 0). lia.
  - apply Qle_shift_div_r; [done|]. rewrite Qmult_1_l, <- Zle_Qle. lia.
Qed.

Lemma half_ratio_sum_ge_1 (a b : nat) :
  (0 < a)%nat -> (0 < b)%nat ->
  (1 <= (1 # 2) * (inject_Z (Z.of_nat a) / inject_Z (Z.of_nat b)
                   + inject_Z (Z.of_nat b) / inject_Z (Z.of_nat a)))%Q.
Proof.
  intros Ha Hb.
  pose proof (inject_nat_pos a Ha) as HA. pose proof (inject_nat_pos b Hb) as HB.
  set (x := inject_Z (Z.of_nat a)) in *. set (y := inject_Z (Z.of_nat b)) in *.
  assert (~ x == 0)%Q as Hx by (intros E; rewrite E in HA; by apply Qlt_irrefl in HA).
  assert (~ y == 0)%Q as Hy by (intros E; rewrite E in HB; by apply Qlt_irrefl in HB).
  assert (0 < x / y)%Q as Hq.
  { apply Qlt_shift_div_l; [done|]. by rewrite Qmult_0_l. }
  pose proof (Q_sum_inverse_ge_2 (x / y) Hq) as H2.
  assert (/ (x / y) == y / x)%Q as E by (field; split; done).
  rewrite E in H2.
  assert (1 == (1 # 2) * 2)%Q as -> by reflexivity.
  apply Qmult_le_l; [reflexivity | exact H2].
Qed.

Section PairFeatsClaims.
Variable is_number : string -> bool.

(** X23: for a pair of non-empty sentences the six features are in
    range: the three number features are [0] or [1] and nested (equal
    number sets with a number present imply equal number sets, which imply
    that one number set contains the other), the two overlap ratios lie
    between [0] and [1], and the length feature is at least [1]. *)
Theorem pair_feats_ranges (tA tB : list string) (feats : list Q) :
  pair_feats is_number tA tB = Ok feats ->
  exists f0 f1 f2 f3 f4 f5,
    feats = [f0; f1; f2; f3; f4; f5] /\
    (f0 = 1%Q <-> token_set (numbers is_number tA) = token_set (numbers is_number tB)) /\
    (f0 = 0%Q \/ f0 = 1%Q) /\ (f1 = 0%Q \/ f1 = 1%Q) /\ (f2 = 0%Q \/ f2 = 1%Q) /\
    (f1 <= f0)%Q /\ (f0 <= f2)%Q /\
    (0 <= f3 <= 1)%Q /\ (0 <= f4 <= 1)%Q /\ (1 <= f5)%Q.
Proof.
  intros Hf. destruct (pair_feats_cases tA tB) as [[HA HB]|He];
    [|by rewrite (pair_feats_empty is_number tA tB He) in Hf].
  rewrite pair_feats_nonempty in Hf by done. injection Hf as <-.
  do 6 eexists. split; [reflexivity|].
  set (sA := token_set (numbers is_number tA)). set (sB := token_set (numbers is_number tB)).
  split; [|split; [|split; [|split; [|split; [|split; [|split; [|split]]]]]]].
  - unfold flag. destruct (bool_decide (sA = sB)) eqn:E.
    + apply bool_decide_eq_true in E. done.
    + apply bool_decide_eq_false in E. split; [discriminate | done].
  - unfold flag. destruct (bool_decide _); auto.
  - unfold flag. destruct (_ && _); auto.
  - unfold flag. destruct (_ || _); auto.
  - unfold flag. destruct (bool_decide (sA = sB)); simpl; [|apply Qle_refl].
    destruct (bool_decide _); [apply Qle_refl | discriminate].
  - unfold flag. destruct (bool_decide (sA = sB)) eqn:E; simpl.
    + apply bool_decide_eq_true in E.
      rewrite bool_decide_eq_true_2 by (by rewrite E). apply Qle_refl.
    + destruct (_ || _); [discriminate | apply Qle_refl].
  - apply ratio_in_unit; [|by apply token_set_size_pos].
    apply subseteq_size. apply intersection_subseteq_l.
  - apply ratio_in_unit; [|by apply token_set_size_pos].
    apply subseteq_size. apply intersection_subseteq_r.
  - apply half_ratio_sum_ge_1; [by destruct tA; simpl; [|lia] | by destruct tB; simpl; [|lia]].
Qed.

(** X24: exchanging the two sentences exchanges the two overlap ratios
    and leaves the other four features as they are. *)
Theorem pair_feats_swap (tA tB : list string) (f0 f1 f2 f3 f4 f5 : Q) :
  pair_feats is_number tA tB = Ok [f0; f1; f2; f3; f4; f5] ->
  exists f5', pair_feats is_number tB tA = Ok [f0; f1; f2; f4; f3; f5'] /\ (f5' == f5)%Q.
Proof.
  intros Hf. destruct (pair_feats_cases tA tB) as [[HA HB]|He];
    [|by rewrite (pair_feats_empty is_number tA tB He) in Hf].
  rewrite pair_feats_nonempty in Hf by done. injection Hf as <- <- <- <- <- <-.
  rewrite pair_feats_nonempty by done.
  set (sA := token_set (numbers is_number tA)). set (sB := token_set (numbers is_number tB)).
  assert (bool_decide (sB = sA) = bool_decide (sA = sB)) as E0
    by (apply bool_decide_ext; split; by intros ->).
  assert (bool_decide (sB = sA) && bool_decide (0 < length (numbers is_number tB))%nat
          = bool_decide (sA = sB) && bool_decide (0 < length (numbers is_number tA))%nat)
    as E1.
  { rewrite E0. destruct (bool_decide (sA = sB)) eqn:E; [|done]. simpl.
    apply bool_decide_eq_true in E. apply bool_decide_ext.
    rewrite !numbers_nonempty_iff. fold sA sB. by rewrite E. }
  rewrite E1, E0, (orb_comm (bool_decide (sB ⊆ sA))),
    (intersection_comm_L (token_set tB) (token_set tA)).
  eexists. split; [reflexivity|].
  apply Qmult_comp; [reflexivity | apply Qplus_comm].
Qed.

End PairFeatsClaims.

Lemma pair_feats_ranges_witness :
  exists f0 f1 f2 f3 f4 f5,
    [1%Q; 0%Q; 1%Q; 1%Q; (1 # 2)%Q; (5 # 4)%Q] = [f0; f1; f2; f3; f4; f5] /\
    (f0 = 1%Q <-> token_set (numbers (fun _ => false) ["a"])
                  = token_set (numbers (fun _ => false) ["a"; "b"])) /\
    (f0 = 0%Q \/ f0 = 1%Q) /\ (f1 = 0%Q \/ f1 = 1%Q) /\ (f2 = 0%Q \/ f2 = 1%Q) /\
    (f1 <= f0)%Q /\ (f0 <= f2)%Q /\
    (0 <= f3 <= 1)%Q /\ (0 <= f4 <= 1)%Q /\ (1 <= f5)%Q.
Proof.
  apply (pair_feats_ranges (fun _ => false) ["a"] ["a"; "b"]).
  vm_compute. reflexivity.
Defined.

Lemma pair_feats_swap_witness :
  exists f5', pair_feats (fun _ => false) ["a"; "b"] ["a"]
              = Ok [1%Q; 0%Q; 1%Q; (1 # 2)%Q; 1%Q; f5'] /\ (f5' == 5 # 4)%Q.
Proof.
  apply (pair_feats_swap (fun _ => false) ["a"] ["a"; "b"]).
  vm_compute. reflexivity.
Defined.

(** ** The dataset splits of [sample_dataset.py] *)

Section SampleDatasetFacts.
Context {A : Type}.

Lemma dd_get_extend (splits : gmap nat (list A)) (k k' : nat) (items : list A) :
  dd_get (dd_extend splits k items) k' =
  if decide (k = k') then (dd_get splits k ++ items)%list else dd_get splits k'.
Proof.
  unfold dd_extend, dd_get at 1. rewrite lookup_insert.
  destruct (decide (k = k')); done.
Qed.

Lemma dom_dd_extend (splits : gmap nat (list A)) (k : nat) (items : list A) :
  dom (dd_extend splits k items) = {[k]} ∪ dom splits.
Proof. unfold dd_extend. apply dom_insert_L. Qed.

Lemma append_each (splits : gmap nat (list A)) (k k' : nat) (sl : list A) :
  dd_get (fold_left (fun sp i => dd_extend sp k [i]) sl splits) k' =
  if decide (k = k') then (dd_get splits k ++ sl)%list else dd_get splits k'.
Proof.
  revert splits. induction sl as [|i sl IH]; intros splits; simpl.
  - destruct (decide (k = k')) as [->|]; [by rewrite app_nil_r | done].
  - rewrite IH, !dd_get_extend.
    destruct (decide (k = k')) as [->|].
    + rewrite decide_True by done. by rewrite <- app_assoc.
    + done.
Qed.

Lemma append_each_dom (splits : gmap nat (list A)) (k : nat) (sl : list A) :
  dom (fold_left (fun sp i => dd_extend sp k [i]) sl splits) ⊆ {[k]} ∪ dom splits.
Proof.
  revert splits. induction sl as [|i sl IH]; intros splits; simpl.
  - apply union_subseteq_r.
  - etrans; [apply IH|]. rewrite dom_dd_extend.
    intros x. rewrite !elem_of_union. tauto.
Qed.

Lemma append_each_dom_mono (splits : gmap nat (list A)) (k : nat) (sl : list A) :
  dom splits ⊆ dom (fold_left (fun sp i => dd_extend sp k [i]) sl splits).
Proof.
  revert splits. induction sl as [|i sl IH]; intros splits; simpl; [done|].
  etrans; [|apply IH]. rewrite dom_dd_extend. apply union_subseteq_r.
Qed.

Lemma add_split_get (lines : list A) (splits : gmap nat (list A)) (split k : nat) :
  (split < NSPLITS)%nat -> (k < NSPLITS)%nat ->
  dd_get (add_split lines splits split) k =
  (dd_get splits k ++
   if decide (split = k) then split_lines lines split
   else reserve_of (split_lines lines split))%list.
Proof.
  intros Hs Hk. unfold add_split, NSPLITS in *. simpl.
  destruct split as [|[|[|[|?]]]]; [..|lia];
    destruct k as [|[|[|[|?]]]]; try lia;
    simpl; rewrite ?dd_get_extend; simpl; rewrite ?append_each; simpl; reflexivity.
Qed.

Lemma add_split_dom (lines : list A) (splits : gmap nat (list A)) (split : nat) :
  (split < NSPLITS)%nat ->
  {[0%nat; 1%nat; 2%nat; 3%nat]} ∖ {[split]} ⊆ dom (add_split lines splits split) /\
  dom (add_split lines splits split) ⊆ {[0%nat; 1%nat; 2%nat; 3%nat]} ∪ dom splits /\
  dom splits ⊆ dom (add_split lines splits split).
Proof.
  intros Hs. unfold add_split, NSPLITS in *. simpl.
  pose proof (append_each_dom splits split (split_lines lines split)) as Hd.
  pose proof (append_each_dom_mono splits split (split_lines lines split)) as Hm.
  destruct split as [|[|[|[|?]]]]; [..|lia]; simpl;
    rewrite !dom_dd_extend;
    (split; [|split]; intros x; specialize (Hd x); specialize (Hm x); revert Hd Hm;
     rewrite ?elem_of_difference, ?elem_of_union, ?elem_of_singleton; intuition lia).
Qed.

End SampleDatasetFacts.

Section SplitsClaims.
Context {A : Type}.

Lemma make_splits_get (lines : list A) (k : nat) :
  (k < NSPLITS)%nat ->
  dd_get (make_splits lines) k = concat (split_part lines k <$> seq 0 NSPLITS).
Proof.
  intros Hk. unfold make_splits. simpl.
  rewrite !add_split_get by (unfold NSPLITS in *; lia).
  unfold dd_get at 1. rewrite lookup_empty. simpl.
  unfold split_part. by rewrite app_nil_r, !app_assoc.
Qed.

Lemma PROP_covers (lines : list A) : (length lines <= NSPLITS * PROP lines)%nat.
Proof.
  unfold PROP, NSPLITS.
  pose proof (Nat.div_mod_eq (length lines + (4 - 1)) 4).
  pose proof (Nat.mod_upper_bound (length lines + (4 - 1)) 4). lia.
Qed.

Lemma own_parts_partition (lines : list A) :
  concat (split_lines lines <$> seq 0 NSPLITS) = lines.
Proof.
  pose proof (PROP_covers lines) as Hc. unfold NSPLITS in *. simpl.
  unfold split_lines. set (P := PROP lines) in *. rewrite app_nil_r.
  rewrite drop_0. cbn [Nat.mul].
  replace (P + 0)%nat with P by lia.
  replace (P + (P + 0))%nat with (P + P)%nat by lia.
  replace (P + (P + P))%nat with (P + P + P)%nat by lia.
  rewrite !app_assoc, !take_take_drop.
  apply take_ge. lia.
Qed.

Lemma list_elem_of_concat_local (x : A) (ls : list (list A)) :
  x ∈ concat ls <-> exists l, x ∈ l /\ l ∈ ls.
Proof.
  rewrite list_elem_of_In, in_concat. split.
  - intros (l & Hl & Hx). exists l. by rewrite !list_elem_of_In.
  - intros (l & Hx & Hl). exists l. by rewrite <- !list_elem_of_In.
Qed.

Lemma reserve_of_sublist (l : list A) : reserve_of l `sublist_of` l.
Proof. apply sublist_drop. Qed.

Lemma split_lines_sublist (lines : list A) (j : nat) : split_lines lines j `sublist_of` lines.
Proof. unfold split_lines. etrans; [apply sublist_take | apply sublist_drop]. Qed.

Lemma split_part_subseteq (lines : list A) (k j : nat) (x : A) :
  x ∈ split_part lines k j -> x ∈ split_lines lines j.
Proof.
  unfold split_part. destruct (decide (j = k)); [done|].
  apply sublist_subseteq, reserve_of_sublist.
Qed.

End SplitsClaims.

(** X25: the four splits in closed form.  Split [k] is, for [j = 0..3] in
    turn, all the lines of slice [j] when [j = k] and the last [RESERVE]
    lines of slice [j] otherwise; and the dictionary holds exactly the
    keys [0..3], whatever the input (four files are written even for an
    empty one). *)
Theorem make_splits_closed_form {A : Type} (lines : list A) :
  (forall k, (k < NSPLITS)%nat ->
     dd_get (make_splits lines) k = concat (split_part lines k <$> seq 0 NSPLITS)) /\
  dom (make_splits lines) = {[0%nat; 1%nat; 2%nat; 3%nat]}.
Proof.
  split; [apply make_splits_get|].
  unfold make_splits. simpl.
  set (s0 := add_split lines ∅ 0). set (s1 := add_split lines s0 1).
  set (s2 := add_split lines s1 2). set (s3 := add_split lines s2 3).
  assert (0 < NSPLITS /\ 1 < NSPLITS /\ 2 < NSPLITS /\ 3 < NSPLITS)%nat
    as (H0 & H1 & H2 & H3) by (unfold NSPLITS; lia).
  destruct (add_split_dom lines ∅ 0 H0) as (L0 & U0 & _).
  destruct (add_split_dom lines s0 1 H1) as (L1 & U1 & M1).
  destruct (add_split_dom lines s1 2 H2) as (L2 & U2 & M2).
  destruct (add_split_dom lines s2 3 H3) as (L3 & U3 & M3).
  fold s0 in L0, U0. fold s1 in L1, U1, M1. fold s2 in L2, U2, M2. fold s3 in L3, U3, M3.
  rewrite dom_empty_L in U0.
  assert (dom s0 ⊆ {[0%nat; 1%nat; 2%nat; 3%nat]}) as B0.
  { intros x Hx. apply U0 in Hx. revert Hx. rewrite !elem_of_union, elem_of_empty. tauto. }
  assert (dom s1 ⊆ {[0%nat; 1%nat; 2%nat; 3%nat]}) as B1.
  { intros x Hx. apply U1 in Hx. revert Hx. specialize (B0 x). revert B0.
    rewrite !elem_of_union. tauto. }
  assert (dom s2 ⊆ {[0%nat; 1%nat; 2%nat; 3%nat]}) as B2.
  { intros x Hx. apply U2 in Hx. revert Hx. specialize (B1 x). revert B1.
    rewrite !elem_of_union. tauto. }
  assert (dom s3 ⊆ {[0%nat; 1%nat; 2%nat; 3%nat]}) as B3.
  { intros x Hx. apply U3 in Hx. revert Hx. specialize (B2 x). revert B2.
    rewrite !elem_of_union. tauto. }
  apply set_eq. intros x. split; [apply B3|]. intros Hx.
  destruct (decide (x = 3%nat)) as [->|Hne].
  - apply M3, L2. apply elem_of_difference.
    rewrite !elem_of_union, !elem_of_singleton. split; [auto | lia].
  - apply L3. apply elem_of_difference. split; [done|]. by rewrite elem_of_singleton.
Qed.

(** X26: the script's own check ("All targets are captured") always
    succeeds: the slices of the four splits tile the input, so a line is
    in the input exactly when it is in one of the splits. *)
Theorem make_splits_capture_all {A : Type} (lines : list A) :
  concat (split_lines lines <$> seq 0 NSPLITS) = lines /\
  (forall x, x ∈ lines <->
             exists k, (k < NSPLITS)%nat /\ x ∈ dd_get (make_splits lines) k).
Proof.
  split; [apply own_parts_partition|].
  intros x. split.
  - intros Hx. rewrite <- (own_parts_partition lines) in Hx.
    apply list_elem_of_concat_local in Hx as (part & Hx & Hpart).
    apply list_elem_of_fmap in Hpart as (j & -> & Hj). apply elem_of_seq in Hj.
    exists j. split; [lia|]. rewrite make_splits_get by lia.
    apply list_elem_of_concat_local. exists (split_part lines j j). split.
    + unfold split_part. by rewrite decide_True.
    + apply list_elem_of_fmap. exists j. split; [done|]. apply elem_of_seq. lia.
  - intros (k & Hk & Hx). rewrite make_splits_get in Hx by done.
    apply list_elem_of_concat_local in Hx as (part & Hx & Hpart).
    apply list_elem_of_fmap in Hpart as (j & -> & _).
    apply split_part_subseteq in Hx.
    eapply sublist_subseteq; [apply split_lines_sublist | exact Hx].
Qed.

(** X27: the splits overlap by construction: each of the last [RESERVE]
    lines of a slice is also in every other split, and split [k] has the
    size of its slice plus, for each other slice, [min(RESERVE, size)]. *)
Theorem make_splits_share_reserve {A : Type} (lines : list A) (j k : nat) :
  (j < NSPLITS)%nat -> (k < NSPLITS)%nat -> j <> k ->
  (forall x, x ∈ reserve_of (split_lines lines j) -> x ∈ dd_get (make_splits lines) k) /\
  length (dd_get (make_splits lines) k) =
    sum_list ((fun i => if decide (i = k) then length (split_lines lines i)
                        else Nat.min RESERVE (length (split_lines lines i)))
              <$> seq 0 NSPLITS).
Proof.
  intros Hj Hk Hne. rewrite make_splits_get by done. split.
  - intros x Hx. apply list_elem_of_concat_local. exists (split_part lines k j). split.
    + unfold split_part. by rewrite decide_False.
    + apply list_elem_of_fmap. exists j. split; [done|]. apply elem_of_seq. lia.
  - unfold NSPLITS. cbn [seq fmap list_fmap concat sum_list sum_list_with].
    rewrite !length_app. cbn [length].
    unfold split_part, reserve_of.
    repeat (destruct (decide _)); rewrite ?length_drop; unfold RESERVE, Datatypes.id; lia.
Qed.

Lemma make_splits_share_reserve_witness :
  (forall x, x ∈ reserve_of (split_lines [1; 2; 3; 4; 5] 0) ->
             x ∈ dd_get (make_splits [1; 2; 3; 4; 5]) 1) /\
  length (dd_get (make_splits [1; 2; 3; 4; 5]) 1) =
    sum_list ((fun i => if decide (i = 1%nat) then length (split_lines [1; 2; 3; 4; 5] i)
                        else Nat.min RESERVE (length (split_lines [1; 2; 3; 4; 5] i)))
              <$> seq 0 NSPLITS).
Proof.
  apply (make_splits_share_reserve [1; 2; 3; 4; 5] 0 1); unfold NSPLITS; lia.
Defined.
